(** * bili_voice: the TTS generation-and-playback pipeline

    A shallow embedding of [src/backend/tts_service.py]: the two queues
    ([_PredictQueue], [_AudioQueue]), the service facade ([TTSService]), the
    playback worker, the Gradio client with its model-selection memo, and the
    health probe.  Each definition follows the Python function of the same
    name; blocking calls are modelled by [option] ([None] = the worker waits),
    calls that may raise by [Outcome]. *)

From Stdlib Require Import List ZArith String Ascii Bool Lia DecimalString.
From Stdlib Require QArith Lqa.
Import ListNotations.

Set Implicit Arguments.

(** ** Python values that may sit in a queue's [_max_size] field *)

(** [_max_size] is annotated [Optional[int]] but is only checked at run time,
    by [isinstance(self._max_size, int) and self._max_size > 0].  [bool] is a
    subclass of [int] in Python; [PyOther] stands for any object that is not
    an instance of [int] (a float, a str, ...), described by its [repr]. *)
Inductive PyVal : Type :=
| PyNone
| PyInt (z : Z)
| PyBool (b : bool)
| PyOther (repr : string).

(** [isinstance(v, int)] *)
Definition isinstance_int (v : PyVal) : bool :=
  match v with
  | PyInt _ | PyBool _ => true
  | PyNone | PyOther _ => false
  end.

(** The integer a Python [int] instance compares as ([True] is 1). *)
Definition int_value (v : PyVal) : Z :=
  match v with
  | PyInt z => z
  | PyBool true => 1
  | _ => 0
  end.

(** [cap = self._max_size if isinstance(self._max_size, int)
            and self._max_size > 0 else None] *)
Definition effective_cap (v : PyVal) : option Z :=
  if isinstance_int v && (0 <? int_value v)%Z then Some (int_value v) else None.

(** ** Tasks and status events *)

Inductive Priority : Type := HIGH | NORMAL.

Definition Priority_eqb (a b : Priority) : bool :=
  match a, b with
  | HIGH, HIGH | NORMAL, NORMAL => true
  | _, _ => false
  end.

Record TtsTask : Type := mkTask {
  text : string;
  priority : Priority;
  key : option string;
  room_id : option Z
}.

Inductive Status : Type := pending | playing | done | cancelled.

Definition Status_eqb (a b : Status) : bool :=
  match a, b with
  | pending, pending | playing, playing | done, done | cancelled, cancelled => true
  | _, _ => false
  end.

(** One call [_emit_status(room_id, key, status)]. *)
Record StatusEvent : Type := mkEvent {
  ev_room : option Z;
  ev_key : option string;
  ev_status : Status
}.

(** An eviction callback, described by the status events it emits. *)
Definition EvictCallback : Type := TtsTask -> list StatusEvent.

(** [if evicted and self._on_evict: self._on_evict(evicted)]; a task (a
    dataclass instance) and an [(audio, task)] pair are always truthy. *)
Definition notify (on_evict : option EvictCallback) (evicted : option TtsTask)
  : list StatusEvent :=
  match evicted, on_evict with
  | Some t, Some cb => cb t
  | _, _ => []
  end.

(** What one queue operation shows to its caller. *)
Inductive Obs : Type :=
| ObsPush (accepted : bool) (emitted : list StatusEvent)
| ObsPop (popped : option TtsTask).

(** ** [_PredictQueue] *)

Module PredictQueue.

Record t : Type := mk {
  max_size : PyVal;
  high : list TtsTask;
  normal : list TtsTask;
  on_evict : option EvictCallback
}.

Definition empty (max_size : PyVal) (on_evict : option EvictCallback) : t :=
  mk max_size [] [] on_evict.

(** [len(self._high) + len(self._normal)] *)
Definition size (q : t) : Z := Z.of_nat (List.length (high q) + List.length (normal q)).

Definition set_max_size (v : PyVal) (q : t) : t :=
  mk v (high q) (normal q) (on_evict q).

(** [enqueue]: the tail of [push]. *)
Definition append (task : TtsTask) (q : t) : t :=
  match priority task with
  | HIGH => mk (max_size q) (high q ++ [task]) (normal q) (on_evict q)
  | NORMAL => mk (max_size q) (high q) (normal q ++ [task]) (on_evict q)
  end.

(** The victim choice of a full HIGH push: [popleft] of [_normal] if it is
    non-empty, else [popleft] of [_high], else nothing. *)
Definition evict (q : t) : option TtsTask * t :=
  match normal q with
  | v :: rest => (Some v, mk (max_size q) (high q) rest (on_evict q))
  | [] =>
      match high q with
      | v :: rest => (Some v, mk (max_size q) rest [] (on_evict q))
      | [] => (None, q)
      end
  end.

Record PushResult : Type := mkPush {
  accepted : bool;
  emitted : list StatusEvent;
  after : t
}.

Definition is_full (q : t) : bool :=
  match effective_cap (max_size q) with
  | Some cap => (cap <=? size q)%Z
  | None => false
  end.

Definition push (task : TtsTask) (q : t) : PushResult :=
  if is_full q then
    match priority task with
    | HIGH =>
        let '(evicted, q1) := evict q in
        mkPush true (notify (on_evict q) evicted) (append task q1)
    | NORMAL => mkPush false [] q
    end
  else mkPush true [] (append task q).

(** [pop]; [None] is the branch that reaches [self._cv.wait()]. *)
Definition pop (q : t) : option (TtsTask * t) :=
  match high q with
  | x :: rest => Some (x, mk (max_size q) rest (normal q) (on_evict q))
  | [] =>
      match normal q with
      | x :: rest => Some (x, mk (max_size q) [] rest (on_evict q))
      | [] => None
      end
  end.

Inductive Op : Type := OpPush (task : TtsTask) | OpPop.

Definition step (o : Op) (q : t) : Obs * t :=
  match o with
  | OpPush task =>
      let r := push task q in (ObsPush (accepted r) (emitted r), after r)
  | OpPop =>
      match pop q with
      | Some (x, q') => (ObsPop (Some x), q')
      | None => (ObsPop None, q)
      end
  end.

Fixpoint run (ops : list Op) (q : t) : list Obs * t :=
  match ops with
  | [] => ([], q)
  | o :: ops' =>
      let '(ob, q1) := step o q in
      let '(obs, q2) := run ops' q1 in
      (ob :: obs, q2)
  end.

(** Pop until the queue is empty, at most [fuel] times. *)
Fixpoint drain (fuel : nat) (q : t) : list TtsTask :=
  match fuel with
  | O => []
  | S fuel' =>
      match pop q with
      | Some (x, q') => x :: drain fuel' q'
      | None => []
      end
  end.

(** Every task sits in the sub-sequence of its priority. *)
Definition wf (q : t) : Prop :=
  Forall (fun x => priority x = HIGH) (high q) /\
  Forall (fun x => priority x = NORMAL) (normal q).

End PredictQueue.

(** ** [_AudioQueue] *)

(** Decoded audio, opaque to the queues: the PCM samples. *)
Inductive AudioSegment : Type := Audio (samples : list Z).

Module AudioQueue.

Record t : Type := mk {
  max_size : PyVal;
  q : list (AudioSegment * TtsTask);
  on_evict : option EvictCallback
}.

Definition empty (max_size : PyVal) (on_evict : option EvictCallback) : t :=
  mk max_size [] on_evict.

Definition size (a : t) : Z := Z.of_nat (List.length (q a)).

Definition set_max_size (v : PyVal) (a : t) : t := mk v (q a) (on_evict a).

Definition is_full (a : t) : bool :=
  match effective_cap (max_size a) with
  | Some cap => (cap <=? size a)%Z
  | None => false
  end.

(** [push] returns nothing; the pair is what the callback emitted and the
    queue afterwards. *)
Definition push (audio : AudioSegment) (task : TtsTask) (a : t)
  : list StatusEvent * t :=
  if is_full a then
    match q a with
    | old :: rest =>
        (notify (on_evict a) (Some (snd old)),
         mk (max_size a) (rest ++ [(audio, task)]) (on_evict a))
    | [] =>
        (* [popleft] raised IndexError: [evicted = None] *)
        ([], mk (max_size a) [(audio, task)] (on_evict a))
    end
  else ([], mk (max_size a) (q a ++ [(audio, task)]) (on_evict a)).

Definition pop (a : t) : option ((AudioSegment * TtsTask) * t) :=
  match q a with
  | x :: rest => Some (x, mk (max_size a) rest (on_evict a))
  | [] => None
  end.

Inductive Op : Type := OpPush (audio : AudioSegment) (task : TtsTask) | OpPop.

Definition step (o : Op) (a : t) : Obs * t :=
  match o with
  | OpPush audio task =>
      let '(ev, a') := push audio task a in (ObsPush true ev, a')
  | OpPop =>
      match pop a with
      | Some (x, a') => (ObsPop (Some (snd x)), a')
      | None => (ObsPop None, a)
      end
  end.

Fixpoint run (ops : list Op) (a : t) : list Obs * t :=
  match ops with
  | [] => ([], a)
  | o :: ops' =>
      let '(ob, a1) := step o a in
      let '(obs, a2) := run ops' a1 in
      (ob :: obs, a2)
  end.

(** The same operation on the predict queue: the audio is dropped. *)
Definition forget (o : Op) : PredictQueue.Op :=
  match o with
  | OpPush _ task => PredictQueue.OpPush task
  | OpPop => PredictQueue.OpPop
  end.

Definition pushes_high (o : Op) : Prop :=
  match o with
  | OpPush _ task => priority task = HIGH
  | OpPop => True
  end.

End AudioQueue.

(** ** Settings (the fields of [models.Settings] that the service reads) *)

Record ReplacementRule : Type := mkRule {
  rule_key : string;
  rule_value : string;
  match_case : bool;
  whole_word : bool;
  use_regex : bool
}.

Record Settings : Type := mkSettings {
  tts_enabled : bool;
  max_tts_queue_size : Z;
  replacement_rules : list ReplacementRule;
  gradio_server_url : string;
  sovits_model : string;
  gpt_model : string;
  text_lang : string
}.

(** [max_q = getattr(cfg, "max_tts_queue_size", None)
            or getattr(cfg, "tts_max_queue_size", None)]
    ([Settings] has no attribute [tts_max_queue_size], so a zero falls
    through to [None]); then [cap = int(max_q) if max_q is not None else None]. *)
Definition configured_cap (cfg : Settings) : PyVal :=
  if (max_tts_queue_size cfg =? 0)%Z then PyNone else PyInt (max_tts_queue_size cfg).

(** ** [TTSService] *)

(** What [re.sub(pattern, repl, text, flags=flags)] does: it returns the new
    text, or raises [re.error] (the pattern does not compile, the replacement
    names a group the pattern lacks), or raises another exception
    ([OverflowError] for a repeat count beyond the engine's limit,
    [RecursionError], ...). *)
Inductive SubResult : Type :=
| Substituted (txt : string)
| ReError
| OtherError (msg : string).

Inductive RenderResult : Type :=
| PlayedWinsound          (* [winsound.PlaySound] returned *)
| PlayedFfplay            (* the [ffplay] subprocess returned 0 *)
| RenderFailed.           (* both failed: "FFplay playback failed" is logged *)

(** What the environment does at one playback: whether
    [audio.export(buf, format="wav")] returns, whether [winsound.PlaySound]
    returns, whether [shutil.which("ffplay")] finds the program, whether
    [subprocess.run(..., check=True)] returns. *)
Record RenderEnv : Type := mkEnv {
  export_ok : bool;
  winsound_ok : bool;
  ffplay_found : bool;
  ffplay_ok : bool
}.

(** What the service does that can be seen from outside, in the order in
    which it happens. *)
Inductive Action : Type :=
| Emit (e : StatusEvent)                        (* a call of [_emit_status] *)
| Render (task : TtsTask) (res : RenderResult)  (* the [try] around [winsound.PlaySound] ran to its end *)
| ExportFailed (task : TtsTask).                (* [audio.export] raised: "Play worker error" is logged *)

(** The calls of [_emit_status] in a trace, and the playbacks in it. *)
Definition statuses (tr : list Action) : list StatusEvent :=
  flat_map (fun a => match a with Emit e => [e] | _ => [] end) tr.

Definition renders (tr : list Action) : list (TtsTask * RenderResult) :=
  flat_map (fun a => match a with Render x res => [(x, res)] | _ => [] end) tr.

Module TTSService.

(** [trace] lists what the service did, oldest first: every call of
    [_emit_status] (each is logged and handed to the registered listener, if
    any) and what the play worker did with each popped task. *)
Record t : Type := mk {
  cfg : option Settings;
  predict_q : PredictQueue.t;
  audio_q : AudioQueue.t;
  trace : list Action
}.

(** The calls of [_emit_status] so far, oldest first. *)
Definition status_log (s : t) : list StatusEvent := statuses (trace s).

(** What the play worker rendered so far, oldest first. *)
Definition rendered (s : t) : list (TtsTask * RenderResult) := renders (trace s).

(** [lambda t: self._emit_status(getattr(t, "room_id", None),
                                 getattr(t, "key", None), "cancelled")] *)
Definition on_evict_cancelled : EvictCallback :=
  fun x => [mkEvent (room_id x) (key x) cancelled].

(** [TTSService.__init__] followed by [init(settings)]. *)
Definition init (settings : Settings) : t :=
  mk (Some settings)
     (PredictQueue.empty PyNone (Some on_evict_cancelled))
     (AudioQueue.empty PyNone (Some on_evict_cancelled))
     [].

Definition update_settings (settings : Settings) (s : t) : t :=
  mk (Some settings) (predict_q s) (audio_q s) (trace s).

Definition log (acts : list Action) (s : t) : t :=
  mk (cfg s) (predict_q s) (audio_q s) (trace s ++ acts).

Definition emit_all (evs : list StatusEvent) (s : t) : t := log (map Emit evs) s.

Definition _emit_status (room : option Z) (k : option string) (st : Status)
           (s : t) : t :=
  emit_all [mkEvent room k st] s.

Section Replacement.

(** The two functions of Python's [re] module the facade calls:
    [re.escape(s)] and [re.sub(pattern, repl, text, flags)]; the flag is
    [re.IGNORECASE]. *)
Variable re_escape : string -> string.
Variable re_sub : string -> string -> string -> bool -> SubResult.

(** The body of the loop over the rules, for one rule; [None] when
    [re.sub] raises an exception that is no [re.error], which leaves the
    loop. *)
Definition apply_rule (rule : ReplacementRule) (txt : string) : option string :=
  if String.eqb (rule_key rule) EmptyString then Some txt
  else
    let ignorecase := negb (match_case rule) in
    let pattern := if use_regex rule then rule_key rule
                   else re_escape (rule_key rule) in
    let pattern := if whole_word rule then ("\b" ++ pattern ++ "\b")%string
                   else pattern in
    match re_sub pattern (rule_value rule) txt ignorecase with
    | Substituted txt' => Some txt'
    | ReError => Some txt               (* [except re.error: continue] *)
    | OtherError _ => None
    end.

(** [for raw in rep_list], on [text_to_process]. *)
Fixpoint run_rules (rules : list ReplacementRule) (txt : string) : option string :=
  match rules with
  | [] => Some txt
  | rule :: rest =>
      match apply_rule rule txt with
      | Some txt' => run_rules rest txt'
      | None => None
      end
  end.

(** The text that is queued: [t = text_to_process] after the loop; when the
    loop was left by an exception, [except Exception: pass] skips that
    assignment and [t] is the text as it came. *)
Definition apply_rules (rules : list ReplacementRule) (txt : string) : string :=
  match run_rules rules txt with
  | Some txt' => txt'
  | None => txt
  end.

Definition enqueue_text (txt : string) (prio : Priority)
           (k : option string) (room : option Z) (s : t) : bool * t :=
  match cfg s with
  | None => (false, s)
  | Some c =>
      if negb (tts_enabled c) then (false, s)
      else
        let txt' := apply_rules (replacement_rules c) txt in
        let cap := configured_cap c in
        let pq := PredictQueue.set_max_size cap (predict_q s) in
        let aq := AudioQueue.set_max_size cap (audio_q s) in
        let r := PredictQueue.push (mkTask txt' prio k room) pq in
        let s1 := emit_all (PredictQueue.emitted r)
                    (mk (cfg s) (PredictQueue.after r) aq (trace s)) in
        if PredictQueue.accepted r then
          (true, _emit_status room k pending s1)
        else
          match k with
          | Some _ => (false, _emit_status room k cancelled s1)
          | None => (false, s1)
          end
  end.

End Replacement.

(** [audio.export(buf, format="wav")] and [buf.getvalue()]: the in-memory
    encoding of the opaque audio buffer (the RIFF header is left out), or
    [None] when [export] raises. *)
Definition export_wav (env : RenderEnv) (audio : AudioSegment) : option (list Z) :=
  if export_ok env
  then Some (match audio with Audio samples => samples end)
  else None.

(** The [try] / [except] / [finally] around [winsound.PlaySound]. *)
Definition render (env : RenderEnv) (data : list Z) : RenderResult :=
  if winsound_ok env then PlayedWinsound
  else if ffplay_found env then
         if ffplay_ok env then PlayedFfplay else RenderFailed
       else (* bare [raise], caught by [except Exception as fe] *)
         RenderFailed.

(** One turn of the loop of [_play_worker]; [None] when [pop] waits.  The
    export sits after the [playing] event and before the [try] whose
    [finally] emits [done]: when it raises, the exception goes to the
    [except Exception] of the loop, which logs it and takes the next turn. *)
Definition play_once (env : RenderEnv) (s : t) : option t :=
  match AudioQueue.pop (audio_q s) with
  | None => None
  | Some ((audio, task), aq) =>
      let s1 := mk (cfg s) (predict_q s) aq (trace s) in
      let s2 := _emit_status (room_id task) (key task) playing s1 in
      match export_wav env audio with
      | None => Some (log [ExportFailed task] s2)
      | Some data =>
          let s3 := log [Render task (render env data)] s2 in
          (* finally *)
          Some (_emit_status (room_id task) (key task) done s3)
      end
  end.

(** The loop itself, one turn per environment, until [pop] waits. *)
Fixpoint _play_worker (envs : list RenderEnv) (s : t) : t :=
  match envs with
  | [] => s
  | env :: envs' =>
      match play_once env s with
      | Some s' => _play_worker envs' s'
      | None => s
      end
  end.


End TTSService.

(** ** Strings as the client handles them *)

Module Str.

Definition is_slash (c : ascii) : bool := (c =? "/")%char.

(** ASCII code points for which [str.isspace] holds. *)
Definition is_space (c : ascii) : bool :=
  let n := nat_of_ascii c in
  ((9 <=? n) && (n <=? 13) || (28 <=? n) && (n <=? 32))%nat.

Fixpoint lstrip_by (p : ascii -> bool) (s : string) : string :=
  match s with
  | EmptyString => EmptyString
  | String c s' => if p c then lstrip_by p s' else s
  end.

Fixpoint rstrip_by (p : ascii -> bool) (s : string) : string :=
  match s with
  | EmptyString => EmptyString
  | String c s' =>
      match rstrip_by p s' with
      | EmptyString => if p c then EmptyString else String c EmptyString
      | r => String c r
      end
  end.

(** [s.strip()] *)
Definition strip (s : string) : string := rstrip_by is_space (lstrip_by is_space s).
(** [s.lstrip("/")], [s.rstrip("/")] *)
Definition lstrip_slash : string -> string := lstrip_by is_slash.
Definition rstrip_slash : string -> string := rstrip_by is_slash.

(** [s.endswith("/")] *)
Fixpoint endswith_slash (s : string) : bool :=
  match s with
  | EmptyString => false
  | String c EmptyString => is_slash c
  | String _ s' => endswith_slash s'
  end.

(** [base if base.endswith("/") else (base + "/")] *)
Definition with_slash (base : string) : string :=
  if endswith_slash base then base else (base ++ "/")%string.

Definition is_empty (s : string) : bool :=
  match s with EmptyString => true | _ => false end.

(** [str(n)] for an int *)
Definition of_Z (n : Z) : string :=
  DecimalString.NilZero.string_of_int (Z.to_int n).

End Str.

(** ** The remote inference server, as the client sees it *)

Inductive Outcome (A : Type) : Type :=
| Returned (a : A)
| Raised (msg : string).
Arguments Raised {A} msg.

(** One record of the ["dependencies"] list of the descriptor document. *)
Record Dep : Type := mkDep {
  dep_api_name : option string;
  dep_id : option Z
}.

(** One element of the ["dependencies"] list, as the loop of [_load_config]
    meets it.  [Readable]: a dict (or [null], which [dep or {}] reads as an
    empty dict) whose ["id"] is absent or a value [int()] takes.
    [Unreadable]: an element on which the loop body raises, with the
    exception: a dict that has a name and an ["id"] that [int()] rejects
    ([null], a list, text that is no number), or a non-empty value that has
    no [.get] (a number, text, a list). *)
Inductive Entry : Type :=
| Readable (d : Dep)
| Unreadable (error : string).

(** What [resp.json()] gives. *)
Inductive Json : Type :=
| ConfigDoc (dependencies : list Entry)
| PredictDoc (error : option string) (data : string)
| UploadDoc (paths : list string)
| NotJson.

(** What the server does with one request: the connection fails (refused,
    timed out), or a response comes back. *)
Inductive Reply : Type :=
| ConnectFailed (msg : string)
| Response (status : Z) (body_text : string) (json : Json).

(** What the client side does, as an outside observer sees it. *)
Inductive Event : Type :=
| NewClient (base_url : string)            (* [_GradioClient(base)] *)
| HttpGet (url : string)
| HttpUpload (url : string) (path : string)
| HttpPost (url : string) (api_name : string) (fn_index : Z).

Record GradioClient : Type := mkClient {
  base_url : string;
  session : bool;                          (* [_session is not None] *)
  fn_map : list (string * Z)               (* newest binding first *)
}.

(** [(base, str(sovits_model), str(gpt_model), str(text_lang))] *)
Definition Sig : Type := (string * string * string * string)%type.

Definition Sig_eqb (a b : Sig) : bool :=
  let '(a1, a2, a3, a4) := a in
  let '(b1, b2, b3, b4) := b in
  ((a1 =? b1) && (a2 =? b2) && (a3 =? b3) && (a4 =? b4))%string.

(** [selected_sig != sig] *)
Definition sig_differs (sel : option Sig) (sg : Sig) : bool :=
  match sel with
  | Some s => negb (Sig_eqb s sg)
  | None => true
  end.

(** An argument of [predict]: a plain value, or a ["gradio.FileData"] dict
    with its ["path"]. *)
Inductive Arg : Type :=
| Plain (v : string)
| FileData (path : option string).

(** The variables that hold the client and the memo ([client] and
    [selected_sig] in the predict worker, [_http_client] and [_selected_sig]
    at module level), the [_gradio_ready] flag of the worker, the events so
    far (newest first) and the replies the server is going to give. *)
Record St : Type := mkSt {
  client : option GradioClient;
  selected_sig : option Sig;
  gradio_ready : bool;
  events : list Event;
  replies : list Reply
}.

(** State and exceptions: a raised exception keeps the state reached. *)
Definition M (A : Type) : Type := St -> Outcome A * St.

Definition ret {A} (a : A) : M A := fun s => (Returned a, s).
Definition raise {A} (msg : string) : M A := fun s => (Raised msg, s).
Definition bind {A B} (m : M A) (f : A -> M B) : M B :=
  fun s => match m s with
           | (Returned a, s') => f a s'
           | (Raised msg, s') => (Raised msg, s')
           end.
(** [try: m  except Exception as e: h(e)] *)
Definition try_except {A} (m : M A) (h : string -> M A) : M A :=
  fun s => match m s with
           | (Returned a, s') => (Returned a, s')
           | (Raised msg, s') => h msg s'
           end.

Declare Scope py_scope.
Delimit Scope py_scope with py.
Notation "x <- m ;; k" := (bind m (fun x => k))
  (at level 61, m at next level, right associativity) : py_scope.
Notation "m ;; k" := (bind m (fun _ => k))
  (at level 61, right associativity) : py_scope.
Local Open Scope py_scope.

Definition get_client : M (option GradioClient) := fun s => (Returned (client s), s).
Definition set_client (c : option GradioClient) : M unit :=
  fun s => (Returned tt, mkSt c (selected_sig s) (gradio_ready s) (events s) (replies s)).
Definition get_sig : M (option Sig) := fun s => (Returned (selected_sig s), s).
Definition set_sig (g : option Sig) : M unit :=
  fun s => (Returned tt, mkSt (client s) g (gradio_ready s) (events s) (replies s)).
Definition set_ready (b : bool) : M unit :=
  fun s => (Returned tt, mkSt (client s) (selected_sig s) b (events s) (replies s)).
Definition log_event (e : Event) : M unit :=
  fun s => (Returned tt,
            mkSt (client s) (selected_sig s) (gradio_ready s) (e :: events s) (replies s)).

(** One HTTP exchange: the request is logged, the server's next reply is
    consumed; no reply at all is the request timing out. *)
Definition http (e : Event) : M (Z * string * Json) :=
  fun s =>
    let s1 := mkSt (client s) (selected_sig s) (gradio_ready s) (e :: events s)
                   (tl (replies s)) in
    match replies s with
    | Response status txt j :: _ => (Returned (status, txt, j), s1)
    | ConnectFailed msg :: _ => (Raised msg, s1)
    | [] => (Raised "TimeoutError", s1)
    end.

(** ** [_GradioClient] *)

Module GradioClient.

(** [_GradioClient(base_url)] *)
Definition new (base : string) : M unit :=
  log_event (NewClient base) ;;
  set_client (Some (mkClient (Str.with_slash base) false [])).

(** The current client object; the callers hold one when they call. *)
Definition self : M GradioClient :=
  c <- get_client ;;
  match c with
  | Some c => ret c
  | None => raise "AttributeError: 'NoneType' object"
  end.

Definition update (c : GradioClient) : M unit := set_client (Some c).

Fixpoint lookup (name : string) (m : list (string * Z)) : option Z :=
  match m with
  | [] => None
  | (k, v) :: m' => if (k =? name)%string then Some v else lookup name m'
  end.

(** The bindings the loop of [_load_config] makes for records it can read,
    [i] being the position of the first of them. *)
Fixpoint add_deps (i : Z) (deps : list Dep) (m : list (string * Z))
  : list (string * Z) :=
  match deps with
  | [] => m
  | d :: deps' =>
      let m' :=
        match dep_api_name d with
        | Some name =>
            if Str.is_empty name then m
            else (Str.lstrip_slash (Str.strip name),
                  match dep_id d with Some n => n | None => i end) :: m
        | None => m
        end in
      add_deps (i + 1)%Z deps' m'
  end.

(** The loop of [_load_config] over [enumerate(deps)]: [self._fn_map] is
    filled in place, one record at a time, so that an element on which the
    body raises leaves the bindings of the records before it. *)
Fixpoint load_deps (i : Z) (entries : list Entry) : M unit :=
  match entries with
  | [] => ret tt
  | Readable d :: rest =>
      c <- self ;;
      update (mkClient (base_url c) (session c) (add_deps i [d] (fn_map c))) ;;
      load_deps (i + 1)%Z rest
  | Unreadable error :: _ => raise error
  end.

Definition _load_config : M unit :=
  c <- self ;;
  r <- http (HttpGet (base_url c ++ "config")) ;;
  let '(status, _, j) := r in
  if (400 <=? status)%Z then raise "ClientResponseError"
  else
    match j with
    | ConfigDoc entries => load_deps 0 entries
    | PredictDoc _ _ => ret tt          (* no ["dependencies"]: [or []] *)
    | UploadDoc _ => raise "AttributeError: 'list' object has no attribute 'get'"
    | NotJson => raise "ContentTypeError"
    end.

Definition ensure : M unit :=
  c <- self ;;
  if session c then ret tt
  else update (mkClient (base_url c) true (fn_map c)) ;; _load_config.

Definition close : M unit :=
  c <- self ;;
  if session c then update (mkClient (base_url c) false (fn_map c)) else ret tt.

Definition _upload_file (file_path : string) : M string :=
  c <- self ;;
  r <- http (HttpUpload (base_url c ++ "upload") file_path) ;;
  let '(status, _, j) := r in
  if (400 <=? status)%Z then raise "ClientResponseError"
  else
    match j with
    | UploadDoc (p :: _) => ret p
    | UploadDoc [] => raise "IndexError"
    | ConfigDoc _ | PredictDoc _ _ => raise "KeyError: 0"
    | NotJson => raise "ContentTypeError"
    end.

Definition is_remote (p : string) : bool :=
  String.prefix "http://" p || String.prefix "https://" p.

Fixpoint _process_inputs (args : list Arg) : M (list Arg) :=
  match args with
  | [] => ret []
  | a :: args' =>
      a' <- match a with
            | FileData (Some p) =>
                if negb (Str.is_empty p) && negb (is_remote p)
                then (uploaded <- _upload_file p ;; ret (FileData (Some uploaded)))
                else ret a
            | _ => ret a
            end ;;
      rest <- _process_inputs args' ;;
      ret (a' :: rest)
  end.

Definition predict (api_name : string) (args : list Arg) : M string :=
  ensure ;;
  c <- self ;;
  match lookup (Str.lstrip_slash (Str.strip api_name)) (fn_map c) with
  | None => raise "RuntimeError: API not found in gradio config"
  | Some fn =>
      _ <- _process_inputs args ;;
      r <- http (HttpPost (base_url c ++ "api/predict/") api_name fn) ;;
      let '(status, _, j) := r in
      if negb (status =? 200)%Z then raise "RuntimeError: Gradio predict failed"
      else
        match j with
        | PredictDoc (Some e) d =>
            if Str.is_empty e then ret d else raise "RuntimeError: Gradio API error"
        | PredictDoc None d => ret d
        | ConfigDoc _ => ret EmptyString (* no ["error"], no ["data"] *)
        | UploadDoc _ => raise "AttributeError: 'list' object has no attribute 'get'"
        | NotJson => raise "ContentTypeError"
        end
  end.

End GradioClient.

(** ** Model selection and the health probe *)

Definition sovits_api : string := "/change_sovits_weights".
Definition gpt_api : string := "/change_gpt_weights".
Definition inference_api : string := "/inference".

Definition signature (base : string) (cfg : Settings) : Sig :=
  (base, sovits_model cfg, gpt_model cfg, text_lang cfg).

(** The signature a call computes from the settings it reads:
    [base = (cfg.gradio_server_url or "").strip()] and the three names. *)
Definition signature_of (cfg : Settings) : Sig :=
  signature (Str.strip (gradio_server_url cfg)) cfg.

(** The two "load weights" calls. *)
Definition select_models (cfg : Settings) : M unit :=
  GradioClient.predict sovits_api
    [Plain (sovits_model cfg); Plain (text_lang cfg); Plain (text_lang cfg)] ;;
  GradioClient.predict gpt_api [Plain (gpt_model cfg)] ;;
  ret tt.

Module PredictWorker.

(** [client is None or client.base_url.rstrip("/") !=
     (base if base.endswith("/") else (base + "/")).rstrip("/")] *)
Definition must_recreate (c : option GradioClient) (base : string) : bool :=
  match c with
  | None => true
  | Some c =>
      negb (Str.rstrip_slash (base_url c) =? Str.rstrip_slash (Str.with_slash base))%string
  end.

(** [_ensure_and_select_models]; the argument is [self._cfg] as the call
    reads it. *)
Definition _ensure_and_select_models (cfg : option Settings) : M bool :=
  match cfg with
  | None => ret false
  | Some cfg =>
      let base := Str.strip (gradio_server_url cfg) in
      if Str.is_empty base then ret false
      else
        c <- get_client ;;
        (if must_recreate c base
         then GradioClient.new base ;; set_sig None
         else ret tt) ;;
        try_except
          (let sg := signature base cfg in
           sel <- get_sig ;;
           (if sig_differs sel sg
            then select_models cfg ;; set_sig (Some sg) ;; set_ready true
            else ret tt) ;;
           ret true)
          (fun _ =>
             (* [client.close()] only builds a coroutine that is never awaited *)
             set_client None ;; set_sig None ;; set_ready false ;; ret false)
  end.

(** One turn of the loop of [_predict_worker], from the task popped to the
    answer of the inference call: the steps that use [client] and
    [selected_sig].  What follows in the loop (reading the audio URL,
    the download, the gain, the push to the playback queue) assigns
    neither.  An exception ends the turn ([except Exception] of the loop).
    Of the arguments of the ["/inference"] call only [ref_audio] can be a
    ["gradio.FileData"] dict; the plain ones after the text language are
    left out, [predict] passes them on untouched. *)
Definition inference (cfg : option Settings) (ref_audio : Arg) (task : TtsTask)
  : M (option string) :=
  try_except
    (ok <- _ensure_and_select_models cfg ;;
     if ok then
       match cfg with
       | Some c =>
           d <- GradioClient.predict inference_api
                  [Plain (text task); Plain (text_lang c); ref_audio] ;;
           ret (Some d)
       | None => raise "AssertionError"
       end
     else ret None)
    (fun _ => ret None).

(** What one turn of the loop reads: [self._cfg] as it is at that turn
    ([update_settings] may have replaced it since the turn before), the
    reference audio built from it, and the task popped. *)
Record Turn : Type := mkTurn {
  turn_cfg : option Settings;
  turn_ref_audio : Arg;
  turn_task : TtsTask
}.

Fixpoint inferences (turns : list Turn) (s : St) : St :=
  match turns with
  | [] => s
  | t :: turns' =>
      inferences turns'
        (snd (inference (turn_cfg t) (turn_ref_audio t) (turn_task t) s))
  end.

End PredictWorker.

Module HttpHelper.

(** [_http_client is None or
     _http_client.base_url.rstrip("/") != base.rstrip("/") + ""] *)
Definition must_recreate (c : option GradioClient) (base : string) : bool :=
  match c with
  | None => true
  | Some c => negb (Str.rstrip_slash (base_url c) =? Str.rstrip_slash base)%string
  end.

(** [_ensure_client_and_models(settings)] *)
Definition _ensure_client_and_models (settings : Settings) : M bool :=
  let base := Str.strip (gradio_server_url settings) in
  if Str.is_empty base then ret false
  else
    c <- get_client ;;
    (if must_recreate c base
     then
       try_except
         (match c with Some _ => GradioClient.close | None => ret tt end)
         (fun _ => ret tt) ;;
       GradioClient.new base ;; set_sig None
     else ret tt) ;;
    GradioClient.ensure ;;
    let sg := signature base settings in
    sel <- get_sig ;;
    if sig_differs sel sg
    then
      try_except
        (select_models settings ;; set_sig (Some sg) ;; ret true)
        (fun _ => ret false)
    else ret true.

(** Consecutive calls, each with the settings its caller passes. *)
Fixpoint calls (settings : list Settings) (s : St) : St :=
  match settings with
  | [] => s
  | x :: later => calls later (snd (_ensure_client_and_models x s))
  end.

Record Health : Type := mkHealth {
  ok : bool;
  ready : bool;
  url : string;
  message : option string
}.

(** [gradio_health(settings)].  The probe opens a session of its own for
    the one GET. *)
Definition gradio_health (settings : Settings) : M Health :=
  let base := Str.strip (gradio_server_url settings) in
  if Str.is_empty base
  then ret (mkHealth false false base (Some "未配置 WebUI 服务地址"%string))
  else
    let u := (Str.with_slash base ++ "config")%string in
    try_except
      (r <- http (HttpGet u) ;;
       let '(status, txt, _) := r in
       if negb (status =? 200)%Z
       then ret (mkHealth false false base
                   (Some ("HTTP " ++ Str.of_Z status ++ ": " ++ substring 0 120 txt)%string))
       else ret (mkHealth true true base None))
      (fun e =>
         set_sig None ;;
         try_except
           (c <- get_client ;;
            match c with Some _ => GradioClient.close | None => ret tt end)
           (fun _ => ret tt) ;;
         ret (mkHealth false false base (Some e))).

End HttpHelper.

(** The events since the current client was made, for one API name. *)
Definition is_post (api : string) (e : Event) : bool :=
  match e with
  | HttpPost _ a _ => (a =? api)%string
  | _ => false
  end.

Definition is_selection (api : string) : bool :=
  ((api =? sovits_api) || (api =? gpt_api))%string.

Fixpoint posted_on_current_client (api : string) (evs : list Event) : bool :=
  match evs with
  | [] => false
  | NewClient _ :: _ => false
  | e :: rest => is_post api e || posted_on_current_client api rest
  end.

(** No client issues the same model-selection call twice; [evs] is newest
    first. *)
Fixpoint selection_once (evs : list Event) : bool :=
  match evs with
  | [] => true
  | e :: rest =>
      selection_once rest &&
      match e with
      | HttpPost _ a _ =>
          if is_selection a then negb (posted_on_current_client a rest) else true
      | _ => true
      end
  end.

Definition count_posts (api : string) (evs : list Event) : nat :=
  List.length (filter (is_post api) evs).

Definition count_new_clients (evs : list Event) : nat :=
  List.length (filter (fun e => match e with NewClient _ => true | _ => false end) evs).

(** ** The two queues side by side *)

(** Both queues, built alike and given the same pushes and pops, show their
    callers the same thing at every operation. *)
Definition queues_agree_on (cap : PyVal) (cb : option EvictCallback)
           (ops : list AudioQueue.Op) : Prop :=
  fst (AudioQueue.run ops (AudioQueue.empty cap cb)) =
  fst (PredictQueue.run (map AudioQueue.forget ops) (PredictQueue.empty cap cb)).

(** The playback queue seen as a predict queue that holds HIGH tasks only. *)
Definition same_contents (a : AudioQueue.t) (p : PredictQueue.t) : Prop :=
  PredictQueue.max_size p = AudioQueue.max_size a /\
  PredictQueue.on_evict p = AudioQueue.on_evict a /\
  PredictQueue.high p = map snd (AudioQueue.q a) /\
  PredictQueue.normal p = [].

(** ** Rejection as the facade reports it *)

(** A NORMAL enqueue that the facade answers with [False] adds nothing to the
    status log. *)
Definition rejection_is_silent
           (re_escape : string -> string)
           (re_sub : string -> string -> string -> bool -> SubResult)
           (s : TTSService.t) (txt : string) (k : option string) (room : option Z)
  : Prop :=
  fst (TTSService.enqueue_text re_escape re_sub txt NORMAL k room s) = false ->
  TTSService.status_log
    (snd (TTSService.enqueue_text re_escape re_sub txt NORMAL k room s)) =
  TTSService.status_log s.

(** ** The play worker's trace *)

(** [_emit_status(getattr(task, "room_id", None), getattr(task, "key", None), st)]
    as it stands in the trace. *)
Definition emits (x : TtsTask) (st : Status) : Action :=
  Emit (mkEvent (room_id x) (key x) st).


(** ** How the event log grows *)

(** Requests that are neither a [predict] call nor a new client. *)
Definition is_quiet (e : Event) : bool :=
  match e with
  | HttpGet _ | HttpUpload _ _ => true
  | NewClient _ | HttpPost _ _ _ => false
  end.

(** [evs] is [old] with some quiet requests added in front. *)
Inductive quiet_ext (old : list Event) : list Event -> Prop :=
| qe_refl : quiet_ext old old
| qe_cons e evs : is_quiet e = true -> quiet_ext old evs -> quiet_ext old (e :: evs).

(** [evs] is [old], some quiet requests, and then at most one [predict] call
    of [api]. *)
Inductive extends (api : string) (old : list Event) : list Event -> Prop :=
| ext_quiet evs : quiet_ext old evs -> extends api old evs
| ext_post url fn evs : quiet_ext old evs -> extends api old (HttpPost url api fn :: evs).

Definition client_base (s : St) : option string := option_map base_url (client s).

(** The step assigned neither variable and kept the client's base URL. *)
Definition keeps (s s' : St) : Prop :=
  client_base s' = client_base s /\
  selected_sig s' = selected_sig s /\
  gradio_ready s' = gradio_ready s.

Definition quietly {A} (m : M A) : Prop :=
  forall s, keeps s (snd (m s)) /\ quiet_ext (events s) (events (snd (m s))).

(** No client of the run issued the same model-selection call twice. *)
Definition once_per_client (evs : list Event) : Prop := selection_once evs = true.

(** The state between two turns of the predict worker, for the configuration
    [cfg]: the log is fine, and either there is no client, or the client has
    the configured base URL and the memo is the configured signature, or the
    current client has issued no model-selection call yet. *)
Definition worker_inv (cfg : Settings) (s : St) : Prop :=
  let base := Str.strip (gradio_server_url cfg) in
  once_per_client (events s) /\
  ((client s = None /\ selected_sig s = None) \/
   ((exists b, client_base s = Some b /\
               Str.rstrip_slash b = Str.rstrip_slash (Str.with_slash base)) /\
    selected_sig s = Some (signature base cfg)) \/
   (posted_on_current_client sovits_api (events s) = false /\
    posted_on_current_client gpt_api (events s) = false)).

(** The health probe leaves the cached client and the memo as they were. *)
Definition probe_leaves_cache_alone (settings : Settings) (s : St) : Prop :=
  client (snd (HttpHelper.gradio_health settings s)) = client s /\
  selected_sig (snd (HttpHelper.gradio_health settings s)) = selected_sig s.

(** [close()] on the cached client, if there is one. *)
Definition closed (c : option GradioClient) : option GradioClient :=
  option_map (fun c => mkClient (base_url c) false (fn_map c)) c.

(** The connection failure the next request is going to meet, if any. *)
Definition next_failure (s : St) : option string :=
  match replies s with
  | ConnectFailed msg :: _ => Some msg
  | [] => Some "TimeoutError"%string
  | Response _ _ _ :: _ => None
  end.

(** The ["dependencies"] list the next request is going to be answered
    with, when the answer is a descriptor document with a status below
    400. *)
Definition next_descriptor (s : St) : option (list Entry) :=
  match replies s with
  | Response status _ (ConfigDoc entries) :: _ =>
      if (400 <=? status)%Z then None else Some entries
  | _ => None
  end.

(** The state a successful [_ensure_client_and_models] leaves: the client is
    connected and has the configured base URL, the memo is the configured
    signature. *)
Definition settled (settings : Settings) (s : St) : Prop :=
  let base := Str.strip (gradio_server_url settings) in
  Str.is_empty base = false /\
  (exists c, client s = Some c /\ session c = true /\
             HttpHelper.must_recreate (Some c) base = false) /\
  selected_sig s = Some (signature base settings).

Definition connected (s : St) : Prop :=
  exists c, client s = Some c /\ session c = true.

(** The step leaves the client object as it is. *)
Definition client_fixed {A} (m : M A) : Prop :=
  forall s, client (snd (m s)) = client s.

(** ** Sample data *)

Module Sample.

Definition a : TtsTask := mkTask "a" NORMAL (Some "key-a"%string) (Some 7%Z).
Definition b : TtsTask := mkTask "b" NORMAL (Some "key-b"%string) (Some 7%Z).
Definition c : TtsTask := mkTask "c" NORMAL None None.
Definition h : TtsTask := mkTask "h" HIGH (Some "key-h"%string) (Some 7%Z).
Definition g : TtsTask := mkTask "g" HIGH None (Some 7%Z).

Definition silence : AudioSegment := Audio [0%Z; 0%Z].

Definition cancelled_cb : option EvictCallback := Some TTSService.on_evict_cancelled.

(** A stand-in for [re]: nothing is escaped, no pattern matches. *)
Definition re_escape (s : string) : string := s.
Definition re_sub (pattern repl txt : string) (ignorecase : bool) : SubResult :=
  Substituted txt.

Definition settings : Settings :=
  mkSettings true 1 [] "http://localhost:9872/" "s1.pth" "g1.ckpt" "zh".

(** The same server, models and language; the URL is written with blanks
    around it, the queue is larger and a replacement rule is set. *)
Definition resized : Settings :=
  mkSettings true 8 [mkRule "lol" "laughs" false true false]
             " http://localhost:9872/ " "s1.pth" "g1.ckpt" "zh".

(** The service after [init] and one admitted NORMAL task: with
    [max_tts_queue_size = 1] the predict queue is full. *)
Definition busy : TTSService.t :=
  snd (TTSService.enqueue_text re_escape re_sub "a" NORMAL (Some "key-a"%string)
         (Some 7%Z) (TTSService.init settings)).

Definition fns : list (string * Z) :=
  [("change_sovits_weights"%string, 0%Z); ("change_gpt_weights"%string, 1%Z);
   ("inference"%string, 2%Z)].

(** The helper's variables after a successful selection, and a server that
    has gone away since. *)
Definition warm : St :=
  mkSt (Some (mkClient "http://localhost:9872/" true fns))
       (Some (signature "http://localhost:9872/" settings))
       false [] [ConnectFailed "Cannot connect to host localhost:9872"].

Definition deps : list Dep :=
  [mkDep (Some "/change_sovits_weights"%string) (Some 0%Z);
   mkDep (Some "/change_gpt_weights"%string) (Some 1%Z);
   mkDep (Some "/inference"%string) None].

Definition answer : Reply := Response 200 "{}" (PredictDoc None "done").
Definition broken : Reply := Response 500 "Internal Server Error" NotJson.

(** A fresh process and a server whose first [change_gpt_weights] fails. *)
Definition flaky : St :=
  mkSt None None false []
       [Response 200 "{}" (ConfigDoc (map Readable deps)); answer; broken; answer; answer].

(** A fresh process and a server that answers. *)
Definition healthy : St :=
  mkSt None None false []
       [Response 200 "{}" (ConfigDoc (map Readable deps)); answer; answer; answer; answer].

(** The export works, every renderer fails. *)
Definition deaf : RenderEnv := mkEnv true false true false.


(** The service with one audio waiting to be played. *)
Definition loaded : TTSService.t :=
  TTSService.mk (Some settings)
    (PredictQueue.empty PyNone cancelled_cb)
    (AudioQueue.mk PyNone [(silence, a)] cancelled_cb)
    [].

(** HIGH tasks [h], [g] and NORMAL tasks [a], [b], all queued. *)
Definition mixed_q : PredictQueue.t := PredictQueue.mk PyNone [h; g] [a; b] cancelled_cb.

(** A predict queue of capacity 2 that is full: [h] then [a]. *)
Definition full_q : PredictQueue.t := PredictQueue.mk (PyInt 2) [h] [a] cancelled_cb.

End Sample.

(** ** Reading a run of queue operations *)

(** What the eviction callback emitted over a run. *)
Definition emitted_of (obs : list Obs) : list StatusEvent :=
  flat_map (fun o => match o with ObsPush _ e => e | ObsPop _ => [] end) obs.

(** The pushes that were admitted, the pops that returned a task. *)
Definition accepted_count (obs : list Obs) : nat :=
  List.length (filter (fun o => match o with ObsPush true _ => true | _ => false end) obs).

Definition popped_count (obs : list Obs) : nat :=
  List.length (filter (fun o => match o with ObsPop (Some _) => true | _ => false end) obs).

Definition is_high (x : TtsTask) : bool := Priority_eqb (priority x) HIGH.
Definition is_normal (x : TtsTask) : bool := Priority_eqb (priority x) NORMAL.

(** [n] items fit under the capacity value [v]. *)
Definition fits (v : PyVal) (n : nat) : Prop :=
  match effective_cap v with
  | Some c => (Z.of_nat n <= c)%Z
  | None => True
  end.

Definition predict_pushes (tasks : list TtsTask) : list PredictQueue.Op :=
  map PredictQueue.OpPush tasks.

Definition audio_pushes (items : list (AudioSegment * TtsTask)) : list AudioQueue.Op :=
  map (fun x => AudioQueue.OpPush (fst x) (snd x)) items.

(** [self._cfg] is set and has [tts_enabled]: the facade goes on past its
    first test. *)
Definition enabled (s : TTSService.t) : bool :=
  match TTSService.cfg s with
  | Some c => tts_enabled c
  | None => false
  end.

(** The number of queued tasks, as a natural number. *)
Definition nsize (q : PredictQueue.t) : nat :=
  List.length (PredictQueue.high q) + List.length (PredictQueue.normal q).



(** ** Reading the client's requests *)

(** An argument [_process_inputs] uploads: a ["gradio.FileData"] dict whose
    path is not empty and does not start with [http://] or [https://]. *)
Definition is_local_file (a : Arg) : bool :=
  match a with
  | FileData (Some p) => negb (Str.is_empty p) && negb (GradioClient.is_remote p)
  | _ => false
  end.

Definition count_uploads (evs : list Event) : nat :=
  List.length (filter (fun e => match e with HttpUpload _ _ => true | _ => false end) evs).

(** The paths [_process_inputs] uploads, in the order of the arguments. *)
Definition local_paths (args : list Arg) : list string :=
  flat_map (fun a => match a with
                     | FileData (Some p) => if is_local_file a then [p] else []
                     | _ => []
                     end) args.

(** What [_upload_file] returns for a reply of the server: [j[0]] of a
    response below 400 whose body is a non-empty list. *)
Definition uploaded_path (r : Reply) : option string :=
  match r with
  | Response status _ (UploadDoc (p :: _)) =>
      if (400 <=? status)%Z then None else Some p
  | _ => None
  end.

(** [uploads rs args args' rs']: with the replies [rs] to come, the local
    files of [args] take one reply each, in order, and [args'] has in the
    place of each the file with the path its reply gave; every other
    argument is in [args'] as it is in [args]; [rs'] are the replies left. *)
Inductive uploads : list Reply -> list Arg -> list Arg -> list Reply -> Prop :=
| uploads_nil rs : uploads rs [] [] rs
| uploads_keep rs rs' a args args' :
    is_local_file a = false ->
    uploads rs args args' rs' ->
    uploads rs (a :: args) (a :: args') rs'
| uploads_file r rs rs' p uploaded args args' :
    is_local_file (FileData (Some p)) = true ->
    uploaded_path r = Some uploaded ->
    uploads rs args args' rs' ->
    uploads (r :: rs) (FileData (Some p) :: args) (FileData (Some uploaded) :: args') rs'.

(** The key under which [predict] looks an API name up. *)
Definition api_key (api_name : string) : string := Str.lstrip_slash (Str.strip api_name).

Definition api_not_found : string := "RuntimeError: API not found in gradio config".

(** [if j.get("error")]: the error field is there and not empty. *)
Definition has_error (e : option string) : bool :=
  match e with
  | Some msg => negb (Str.is_empty msg)
  | None => false
  end.

Module Fixture.

Definition base : string := "http://localhost:9872/".

(** A client just made, and a server that answers the descriptor request. *)
Definition fresh : St :=
  mkSt (Some (mkClient base false [])) None false []
       [Response 200 "{}" (ConfigDoc (map Readable Sample.deps))].

(** A client just made, and a server that is down. *)
Definition fresh_down : St :=
  mkSt (Some (mkClient base false [])) None false []
       [ConnectFailed "Cannot connect to host localhost:9872"].

(** A client just made, and a server whose descriptor has a record with
    ["id": null] in the second place. *)
Definition half_read : St :=
  mkSt (Some (mkClient base false [])) None false []
       [Response 200 "{}"
          (ConfigDoc
             [Readable (mkDep (Some "/change_sovits_weights"%string) (Some 0%Z));
              Unreadable
                "TypeError: int() argument must be a string or a real number, not 'NoneType'";
              Readable (mkDep (Some "/inference"%string) None)])].

(** No client yet, and a server that is down. *)
Definition cold_down : St :=
  mkSt None None false [] [ConnectFailed "Cannot connect to host localhost:9872"].

(** A connected client that knows the three APIs, and a server that answers. *)
Definition ready : St :=
  mkSt (Some (mkClient base true Sample.fns)) None false []
       [Sample.answer; Sample.answer].

Definition reference : Arg := FileData (Some "C:/voices/ref.wav"%string).

(** A connected client, and a server that takes one upload and then
    answers a call. *)
Definition uploading : St :=
  mkSt (Some (mkClient base true Sample.fns)) None false []
       [Response 200 "[...]" (UploadDoc ["/tmp/gradio/0a1b/ref.wav"%string]);
        Sample.answer].

End Fixture.

(** ** [priority_from_event_type] *)

Module Text.

(** [str.upper] on ASCII text: the letters [a] to [z] go to [A] to [Z],
    every other ASCII character stays.  (Strings are byte strings here; on
    text with code points above 127 Python's [upper] does more.) *)
Definition upper_char (c : ascii) : ascii :=
  let n := nat_of_ascii c in
  if ((97 <=? n) && (n <=? 122))%nat then ascii_of_nat (n - 32) else c.

Fixpoint upper (s : string) : string :=
  match s with
  | EmptyString => EmptyString
  | String c s' => String (upper_char c) (upper s')
  end.

(** [needle in s] *)
Fixpoint contains (needle s : string) : bool :=
  String.prefix needle s ||
  match s with
  | EmptyString => false
  | String _ s' => contains needle s'
  end.

Fixpoint is_ascii (s : string) : bool :=
  match s with
  | EmptyString => true
  | String c s' => (nat_of_ascii c <? 128)%nat && is_ascii s'
  end.

End Text.

(** [priority_from_event_type(event_type)]; [None] stands for a falsy
    argument, which [event_type or ""] turns into the empty string. *)
Definition priority_from_event_type (event_type : option string) : Priority :=
  let t := Text.upper (match event_type with Some s => s | None => EmptyString end) in
  if Text.contains "SUPER_CHAT" t
     || (t =? "SEND_GIFT")%string || (t =? "COMBO_SEND")%string
     || (t =? "GUARD_BUY")%string
  then HIGH else NORMAL.

(** ** The gain of the predict worker *)

Module Volume.
Import QArith.

(** A Python float: not-a-number, an infinity, or a finite value, which is a
    rational number. *)
Inductive PyFloat : Type :=
| FNaN
| FInf (negative : bool)
| FFinite (q : Q).

(** [x > b], [x < b] and [x != 0.0] for a float [x]; every comparison with
    NaN is false, except [!=]. *)
Definition gt (x : PyFloat) (b : Q) : bool :=
  match x with
  | FNaN => false
  | FInf negative => negb negative
  | FFinite q => negb (Qle_bool q b)
  end.

Definition lt (x : PyFloat) (b : Q) : bool :=
  match x with
  | FNaN => false
  | FInf negative => negative
  | FFinite q => negb (Qle_bool b q)
  end.

Definition nonzero (x : PyFloat) : bool :=
  match x with
  | FNaN | FInf _ => true
  | FFinite q => negb (Qeq_bool q 0)
  end.

(** [vol_db = float(getattr(cfg, "tts_volume", 0.0) or 0.0)], the two
    clamps, and the test [vol_db != 0.0]: the argument of
    [audio.apply_gain], or [None] when the audio is left as it is. *)
Definition gain_to_apply (tts_volume : PyFloat) : option PyFloat :=
  let vol_db := if nonzero tts_volume then tts_volume else FFinite 0 in
  let vol_db := if gt vol_db 24 then FFinite 24 else vol_db in
  let vol_db := if lt vol_db (-60) then FFinite (-60) else vol_db in
  if nonzero vol_db then Some vol_db else None.

(** The value lies within the safe range and is not zero. *)
Definition safe_gain (x : PyFloat) : Prop :=
  match x with
  | FFinite q => -60 <= q /\ q <= 24 /\ ~ q == 0
  | _ => False
  end.

End Volume.

(** ** The audio URL in the answer of the inference call *)

Module Answer.

Unset Elimination Schemes.

(** A decoded JSON value; the fields of an object are in the order of the
    document, and [get] takes the first of a name. *)
Inductive JVal : Type :=
| JNull
| JBool (b : bool)
| JNum (q : QArith_base.Q)
| JStr (s : string)
| JList (items : list JVal)
| JDict (fields : list (string * JVal)).

Set Elimination Schemes.

(** Python's truth value of a decoded JSON value. *)
Definition truthy (v : JVal) : bool :=
  match v with
  | JNull => false
  | JBool b => b
  | JNum q => negb (QArith_base.Qeq_bool q (QArith_base.Qmake 0 1))
  | JStr s => negb (Str.is_empty s)
  | JList items => match items with [] => false | _ => true end
  | JDict fields => match fields with [] => false | _ => true end
  end.

Fixpoint get (name : string) (fields : list (string * JVal)) : option JVal :=
  match fields with
  | [] => None
  | (k, v) :: rest => if (k =? name)%string then Some v else get name rest
  end.

(** [isinstance(sublist, list) and len(sublist) >= 3 and
     isinstance(sublist[1], list) and len(sublist[1]) > 0 and
     sublist[1][0] == "url"]; the value is [sublist[2]]. *)
Definition tagged_url (sublist : JVal) : option JVal :=
  match sublist with
  | JList (_ :: JList (JStr tag :: _) :: v :: _) =>
      if (tag =? "url")%string then Some v else None
  | _ => None
  end.

(** The loop [for sublist in data[0]] with its [break]. *)
Fixpoint scan (entries : list JVal) : option JVal :=
  match entries with
  | [] => None
  | e :: rest =>
      match tagged_url e with
      | Some v => Some v
      | None => scan rest
      end
  end.

(** The two shapes of [data] and the final test [if not audio_url]: the
    URL the worker goes on to download, or [None] when it logs "Unexpected
    inference result" and takes the next task. *)
Definition audio_url (data : JVal) : option JVal :=
  let found :=
    match data with
    | JList (JDict fields :: _) => get "url" fields
    | JList (JList entries :: _) => scan entries
    | _ =>
        (* [data] is no list or is empty; or [data[0]] is a string, whose
           characters are no lists; or it is not iterable: TypeError, caught *)
        None
    end in
  match found with
  | Some v => if truthy v then Some v else None
  | None => None
  end.

(** An entry the scan stops at. *)
Definition entry (first : JVal) (more_tags : list JVal) (v : JVal) (more : list JVal)
  : JVal :=
  JList (first :: JList (JStr "url" :: more_tags) :: v :: more).

End Answer.

(** * Properties *)

(** ** The capacity test *)

(** The values of [_max_size] that give no bound: not an [int] instance, or
    an [int] that is zero or negative. *)
Definition unbounded_cap (v : PyVal) : Prop :=
  isinstance_int v = false \/ (int_value v <= 0)%Z.

Lemma effective_cap_unbounded (v : PyVal) :
  unbounded_cap v -> effective_cap v = None.
Proof.
  unfold unbounded_cap, effective_cap.
  intros [Hi | Hz].
  - now rewrite Hi.
  - destruct (isinstance_int v); [simpl | reflexivity].
    destruct (Z.ltb_spec 0 (int_value v)); [lia | reflexivity].
Qed.

Lemma effective_cap_int (c : Z) :
  (0 < c)%Z -> effective_cap (PyInt c) = Some c.
Proof.
  intros Hc. unfold effective_cap. simpl.
  destruct (Z.ltb_spec 0 c); [reflexivity | lia].
Qed.

Lemma effective_cap_pos (v : PyVal) (c : Z) :
  effective_cap v = Some c -> (0 < c)%Z.
Proof.
  unfold effective_cap.
  destruct (isinstance_int v); simpl; [ | discriminate].
  destruct (Z.ltb_spec 0 (int_value v)) as [Hlt | Hge]; [ | discriminate].
  intros Heq; injection Heq as <-. exact Hlt.
Qed.

(** ** The predict queue *)

Module PredictQueueFacts.
Import PredictQueue.

Lemma is_full_true (q : t) (c : Z) :
  effective_cap (max_size q) = Some c -> (c <= size q)%Z -> is_full q = true.
Proof.
  intros Hc Hs. unfold is_full. rewrite Hc. now apply Z.leb_le.
Qed.

Lemma is_full_false (q : t) (c : Z) :
  effective_cap (max_size q) = Some c -> (size q < c)%Z -> is_full q = false.
Proof.
  intros Hc Hs. unfold is_full. rewrite Hc. now apply Z.leb_gt.
Qed.

Lemma size_app_len (m : PyVal) (h n : list TtsTask) (cb : option EvictCallback) :
  size (mk m h n cb) = Z.of_nat (List.length h + List.length n).
Proof. reflexivity. Qed.

Lemma size_append (task : TtsTask) (q : t) :
  size (append task q) = (size q + 1)%Z.
Proof.
  unfold append, size. destruct (priority task); simpl;
    rewrite length_app; simpl; lia.
Qed.

Lemma max_size_append (task : TtsTask) (q : t) :
  max_size (append task q) = max_size q.
Proof. unfold append. now destruct (priority task). Qed.

Lemma evict_spec (q : t) :
  max_size (snd (evict q)) = max_size q /\
  ((0 < size q)%Z -> size (snd (evict q)) = (size q - 1)%Z).
Proof.
  unfold evict, size.
  destruct (normal q) as [ | v rest] eqn:Hn.
  - destruct (high q) as [ | v rest] eqn:Hh; cbn [snd max_size high normal List.length].
    + rewrite Hh, Hn. cbn [List.length]. split; [reflexivity | lia].
    + split; [reflexivity | intros _; lia].
  - cbn [snd max_size high normal List.length]. split; [reflexivity | intros _; lia].
Qed.

(** One push keeps a positive integer bound. *)
Lemma push_keeps_bound (c : Z) (task : TtsTask) (q : t) :
  (0 < c)%Z -> max_size q = PyInt c -> (size q <= c)%Z ->
  max_size (after (push task q)) = PyInt c /\ (size (after (push task q)) <= c)%Z.
Proof.
  intros Hc Hm Hs.
  pose proof (effective_cap_int Hc) as He.
  unfold push.
  destruct (is_full q) eqn:Hf.
  - unfold is_full in Hf. rewrite Hm, He in Hf. apply Z.leb_le in Hf.
    destruct (priority task) eqn:Hp.
    + destruct (evict q) as [ev q1] eqn:Hev. simpl.
      pose proof (evict_spec q) as [Hm1 Hs1]. rewrite Hev in Hm1, Hs1. simpl in Hm1, Hs1.
      rewrite max_size_append, size_append, Hm1, Hs1 by lia.
      split; [assumption | lia].
    + simpl. split; assumption.
  - unfold is_full in Hf. rewrite Hm, He in Hf. apply Z.leb_gt in Hf.
    simpl. rewrite max_size_append, size_append. split; [assumption | lia].
Qed.

Lemma pop_keeps_bound (q q' : t) (x : TtsTask) :
  pop q = Some (x, q') -> max_size q' = max_size q /\ (size q' <= size q)%Z.
Proof.
  unfold pop, size.
  destruct (high q) as [ | h hs] eqn:Hh.
  - destruct (normal q) as [ | n ns] eqn:Hn; [discriminate | ].
    intros H; injection H as <- <-. simpl. split; [reflexivity | lia].
  - intros H; injection H as <- <-. simpl. split; [reflexivity | lia].
Qed.

Lemma step_keeps_bound (c : Z) (o : Op) (q : t) :
  (0 < c)%Z -> max_size q = PyInt c -> (size q <= c)%Z ->
  max_size (snd (step o q)) = PyInt c /\ (size (snd (step o q)) <= c)%Z.
Proof.
  intros Hc Hm Hs. destruct o as [task | ]; simpl.
  - now apply push_keeps_bound.
  - destruct (pop q) as [[x q'] | ] eqn:Hp; simpl.
    + destruct (pop_keeps_bound _ Hp) as [Hm' Hs']. rewrite Hm'. split; [assumption | lia].
    + split; assumption.
Qed.

Lemma run_keeps_bound (c : Z) (ops : list Op) :
  (0 < c)%Z -> forall q, max_size q = PyInt c -> (size q <= c)%Z ->
  (size (snd (run ops q)) <= c)%Z.
Proof.
  intros Hc. induction ops as [ | o ops IH]; intros q Hm Hs; simpl.
  - assumption.
  - destruct (step o q) as [ob q1] eqn:Hst.
    destruct (step_keeps_bound o q Hc Hm Hs) as [Hm1 Hs1].
    rewrite Hst in Hm1, Hs1. simpl in Hm1, Hs1.
    specialize (IH q1 Hm1 Hs1).
    destruct (run ops q1) as [obs q2]. simpl in *. assumption.
Qed.

End PredictQueueFacts.

(** ** The playback queue *)

Module AudioQueueFacts.
Import AudioQueue.

Lemma audio_push_keeps_bound (c : Z) (audio : AudioSegment) (task : TtsTask) (a : t) :
  (0 < c)%Z -> max_size a = PyInt c -> (size a <= c)%Z ->
  max_size (snd (push audio task a)) = PyInt c /\
  (size (snd (push audio task a)) <= c)%Z.
Proof.
  intros Hc Hm Hs.
  pose proof (effective_cap_int Hc) as He.
  unfold push, is_full. rewrite Hm, He.
  destruct (Z.leb_spec c (size a)) as [Hf | Hf].
  - unfold size in *. destruct (q a) as [ | old rest]; simpl in *.
    + split; [reflexivity | lia].
    + split; [reflexivity | ]. rewrite length_app. simpl. lia.
  - unfold size in *. simpl. split; [reflexivity | ].
    rewrite length_app. simpl. lia.
Qed.

Lemma audio_step_keeps_bound (c : Z) (o : Op) (a : t) :
  (0 < c)%Z -> max_size a = PyInt c -> (size a <= c)%Z ->
  max_size (snd (step o a)) = PyInt c /\ (size (snd (step o a)) <= c)%Z.
Proof.
  intros Hc Hm Hs. destruct o as [audio task | ]; simpl.
  - pose proof (audio_push_keeps_bound audio task a Hc Hm Hs) as H.
    destruct (push audio task a) as [ev a']. exact H.
  - unfold pop, size in *. destruct (q a) as [ | x rest] eqn:Hq; simpl.
    + rewrite Hq. split; assumption.
    + split; [assumption | ]. simpl in Hs. lia.
Qed.

Lemma audio_run_keeps_bound (c : Z) (ops : list Op) :
  (0 < c)%Z -> forall a, max_size a = PyInt c -> (size a <= c)%Z ->
  (size (snd (run ops a)) <= c)%Z.
Proof.
  intros Hc. induction ops as [ | o ops IH]; intros a Hm Hs; simpl.
  - assumption.
  - destruct (step o a) as [ob a1] eqn:Hst.
    destruct (audio_step_keeps_bound o a Hc Hm Hs) as [Hm1 Hs1].
    rewrite Hst in Hm1, Hs1. simpl in Hm1, Hs1.
    specialize (IH a1 Hm1 Hs1).
    destruct (run ops a1) as [obs a2]. simpl in *. assumption.
Qed.

End AudioQueueFacts.

(** C3. With a fixed positive integer capacity [c], after every sequence of
    pushes and pops from the empty queue the number of queued items (HIGH
    plus NORMAL for the predict queue) is at most [c]; this holds for both
    queues. *)
Theorem occupancy_never_exceeds_capacity
        (c : Z) (cb : option EvictCallback)
        (ops : list PredictQueue.Op) (aops : list AudioQueue.Op) :
  (0 < c)%Z ->
  (PredictQueue.size (snd (PredictQueue.run ops (PredictQueue.empty (PyInt c) cb))) <= c)%Z /\
  (AudioQueue.size (snd (AudioQueue.run aops (AudioQueue.empty (PyInt c) cb))) <= c)%Z.
Proof.
  intros Hc. split.
  - apply PredictQueueFacts.run_keeps_bound; [assumption | reflexivity | ].
    unfold PredictQueue.size. simpl. lia.
  - apply AudioQueueFacts.audio_run_keeps_bound; [assumption | reflexivity | ].
    unfold AudioQueue.size. simpl. lia.
Qed.

Lemma occupancy_never_exceeds_capacity_witness :
  (0 < 2)%Z /\
  (PredictQueue.size
     (snd (PredictQueue.run
             [PredictQueue.OpPush Sample.a; PredictQueue.OpPush Sample.b;
              PredictQueue.OpPush Sample.h; PredictQueue.OpPop;
              PredictQueue.OpPush Sample.g; PredictQueue.OpPush Sample.c]
             (PredictQueue.empty (PyInt 2) Sample.cancelled_cb))) <= 2)%Z /\
  (AudioQueue.size
     (snd (AudioQueue.run
             [AudioQueue.OpPush Sample.silence Sample.a;
              AudioQueue.OpPush Sample.silence Sample.b;
              AudioQueue.OpPush Sample.silence Sample.h]
             (AudioQueue.empty (PyInt 2) Sample.cancelled_cb))) <= 2)%Z.
Proof.
  split; [lia | ].
  apply (@occupancy_never_exceeds_capacity 2 Sample.cancelled_cb). lia.
Defined.

(** A full queue turns a NORMAL push down and stays as it is. *)
Lemma full_queue_turns_normal_down
      (q : PredictQueue.t) (task : TtsTask) (c : Z) :
  effective_cap (PredictQueue.max_size q) = Some c ->
  (c <= PredictQueue.size q)%Z ->
  priority task = NORMAL ->
  PredictQueue.push task q = PredictQueue.mkPush false [] q.
Proof.
  intros Hc Hs Hp. unfold PredictQueue.push.
  rewrite (PredictQueueFacts.is_full_true q Hc Hs), Hp. reflexivity.
Qed.

(** C6. A NORMAL push on a full predict queue returns [accepted = false],
    runs no callback and leaves the queue (both sub-sequences, their order,
    the capacity) exactly as it was. *)
Theorem normal_push_on_full_queue_rejected
        (q : PredictQueue.t) (task : TtsTask) (c : Z) :
  effective_cap (PredictQueue.max_size q) = Some c ->
  (c <= PredictQueue.size q)%Z ->
  priority task = NORMAL ->
  PredictQueue.push task q = PredictQueue.mkPush false [] q.
Proof.
  intros Hc Hs Hp. now apply full_queue_turns_normal_down with (c := c).
Qed.

Lemma normal_push_on_full_queue_rejected_witness :
  PredictQueue.push Sample.b Sample.full_q = PredictQueue.mkPush false [] Sample.full_q.
Proof.
  apply (@normal_push_on_full_queue_rejected Sample.full_q Sample.b 2);
    [reflexivity | vm_compute; discriminate | reflexivity].
Defined.

(** C4. A HIGH push on a full predict queue evicts exactly one victim, the
    oldest NORMAL item if a NORMAL item is queued and otherwise the oldest
    HIGH item, appends the new task to the HIGH sub-sequence and returns
    [accepted = true]; the victim is handed to the eviction callback, and the
    callback the service installs emits [cancelled] for it. *)
Theorem high_push_on_full_queue_evicts_one
        (q : PredictQueue.t) (task : TtsTask) (c : Z) :
  effective_cap (PredictQueue.max_size q) = Some c ->
  (c <= PredictQueue.size q)%Z ->
  priority task = HIGH ->
  exists victim rest_high rest_normal,
    ((PredictQueue.normal q = victim :: rest_normal /\ rest_high = PredictQueue.high q) \/
     (PredictQueue.normal q = [] /\ rest_normal = [] /\
      PredictQueue.high q = victim :: rest_high)) /\
    PredictQueue.push task q =
      PredictQueue.mkPush true
        (notify (PredictQueue.on_evict q) (Some victim))
        (PredictQueue.mk (PredictQueue.max_size q) (rest_high ++ [task]) rest_normal
                         (PredictQueue.on_evict q)) /\
    (PredictQueue.on_evict q = Some TTSService.on_evict_cancelled ->
     PredictQueue.emitted (PredictQueue.push task q) =
       [mkEvent (room_id victim) (key victim) cancelled]).
Proof.
  intros Hc Hs Hp.
  pose proof (effective_cap_pos _ Hc) as Hpos.
  unfold PredictQueue.push.
  rewrite (PredictQueueFacts.is_full_true q Hc Hs), Hp.
  unfold PredictQueue.evict.
  destruct (PredictQueue.normal q) as [ | v rest] eqn:Hn.
  - destruct (PredictQueue.high q) as [ | v rest] eqn:Hh.
    + exfalso. unfold PredictQueue.size in Hs. rewrite Hh, Hn in Hs. simpl in Hs. lia.
    + exists v, rest, []. split; [right; auto | ].
      unfold PredictQueue.append. rewrite Hp. simpl. split; [reflexivity | ].
      intros ->. reflexivity.
  - exists v, (PredictQueue.high q), rest. split; [left; auto | ].
    unfold PredictQueue.append. rewrite Hp. simpl. split; [reflexivity | ].
    intros ->. reflexivity.
Qed.

Lemma high_push_on_full_queue_evicts_one_witness :
  exists victim rest_high rest_normal,
    ((PredictQueue.normal Sample.full_q = victim :: rest_normal /\
      rest_high = PredictQueue.high Sample.full_q) \/
     (PredictQueue.normal Sample.full_q = [] /\ rest_normal = [] /\
      PredictQueue.high Sample.full_q = victim :: rest_high)) /\
    PredictQueue.push Sample.g Sample.full_q =
      PredictQueue.mkPush true
        (notify (PredictQueue.on_evict Sample.full_q) (Some victim))
        (PredictQueue.mk (PredictQueue.max_size Sample.full_q) (rest_high ++ [Sample.g])
                         rest_normal (PredictQueue.on_evict Sample.full_q)) /\
    (PredictQueue.on_evict Sample.full_q = Some TTSService.on_evict_cancelled ->
     PredictQueue.emitted (PredictQueue.push Sample.g Sample.full_q) =
       [mkEvent (room_id victim) (key victim) cancelled]).
Proof.
  apply (@high_push_on_full_queue_evicts_one Sample.full_q Sample.g 2);
    [reflexivity | vm_compute; discriminate | reflexivity].
Defined.

Module PopOrder.
Import PredictQueue.

Lemma drain_normal (m : PyVal) (cb : option EvictCallback) (n : list TtsTask) :
  drain (List.length n) (mk m [] n cb) = n.
Proof.
  induction n as [ | x n IH]; simpl; [reflexivity | ].
  now rewrite IH.
Qed.

Lemma drain_all (m : PyVal) (cb : option EvictCallback) (h n : list TtsTask) :
  drain (List.length h + List.length n) (mk m h n cb) = h ++ n.
Proof.
  induction h as [ | x h IH]; simpl.
  - apply drain_normal.
  - now rewrite IH.
Qed.

Lemma append_wf (task : TtsTask) (q : t) : wf q -> wf (append task q).
Proof.
  intros [Hh Hn]. unfold wf, append.
  destruct (priority task) eqn:Hp; simpl; split; try assumption;
    apply Forall_app; split; try assumption; constructor; auto.
Qed.

Lemma evict_wf (q : t) : wf q -> wf (snd (evict q)).
Proof.
  intros [Hh Hn]. unfold wf, evict.
  destruct (normal q) as [ | v rest] eqn:En.
  - destruct (high q) as [ | v rest] eqn:Eh; simpl.
    + rewrite Eh, En. split; constructor.
    + split; [now inversion Hh | constructor].
  - simpl. split; [assumption | now inversion Hn].
Qed.

Lemma push_wf (task : TtsTask) (q : t) : wf q -> wf (after (push task q)).
Proof.
  intros Hw. unfold push.
  destruct (is_full q).
  - destruct (priority task) eqn:Hp; [ | exact Hw].
    pose proof (evict_wf Hw) as He.
    destruct (evict q) as [ev q1]. simpl in *. now apply append_wf.
  - simpl. now apply append_wf.
Qed.

End PopOrder.

(** C5. In a queue whose HIGH sub-sequence holds the HIGH tasks and whose
    NORMAL sub-sequence the NORMAL ones, popping until the queue is empty
    returns every HIGH item, oldest first, and only then the NORMAL items,
    oldest first; while a HIGH item is queued [pop] returns the oldest HIGH
    item and leaves the NORMAL items alone, so a pop that returns a NORMAL
    task found no HIGH item queued. *)
Theorem pop_serves_high_before_normal (q : PredictQueue.t) :
  PredictQueue.wf q ->
  PredictQueue.drain (List.length (PredictQueue.high q) + List.length (PredictQueue.normal q)) q
    = PredictQueue.high q ++ PredictQueue.normal q /\
  Forall (fun x => priority x = HIGH) (PredictQueue.high q) /\
  Forall (fun x => priority x = NORMAL) (PredictQueue.normal q) /\
  (forall x rest, PredictQueue.high q = x :: rest ->
     PredictQueue.pop q =
       Some (x, PredictQueue.mk (PredictQueue.max_size q) rest (PredictQueue.normal q)
                                (PredictQueue.on_evict q))) /\
  (forall x q', PredictQueue.pop q = Some (x, q') -> priority x = NORMAL ->
     PredictQueue.high q = []).
Proof.
  intros [Hh Hn]. repeat split; try assumption.
  - destruct q as [m h n cb]. simpl. apply PopOrder.drain_all.
  - intros x rest Hq. unfold PredictQueue.pop. now rewrite Hq.
  - intros x q' Hpop Hp. unfold PredictQueue.pop in Hpop.
    destruct (PredictQueue.high q) as [ | y rest]; [reflexivity | ].
    injection Hpop as <- _. inversion Hh; subst. congruence.
Qed.

Lemma pop_serves_high_before_normal_witness :
  PredictQueue.wf Sample.mixed_q /\
  PredictQueue.drain 4 Sample.mixed_q = [Sample.h; Sample.g; Sample.a; Sample.b].
Proof.
  assert (W : PredictQueue.wf Sample.mixed_q) by (split; repeat constructor).
  split; [exact W | ].
  exact (proj1 (pop_serves_high_before_normal W)).
Defined.

(** C10. When [_max_size] is [None], not an [int] instance, zero or negative,
    both queues are unbounded: in every state a push is admitted (the predict
    queue returns [True]), runs no eviction callback, keeps every queued item
    and appends the new one at the tail of its sub-sequence. *)
Theorem no_bound_no_eviction_no_rejection (v : PyVal) :
  unbounded_cap v ->
  (forall (q : PredictQueue.t) (task : TtsTask),
     PredictQueue.max_size q = v ->
     let r := PredictQueue.push task q in
     PredictQueue.accepted r = true /\
     PredictQueue.emitted r = [] /\
     PredictQueue.max_size (PredictQueue.after r) = v /\
     PredictQueue.on_evict (PredictQueue.after r) = PredictQueue.on_evict q /\
     match priority task with
     | HIGH =>
         PredictQueue.high (PredictQueue.after r) = PredictQueue.high q ++ [task] /\
         PredictQueue.normal (PredictQueue.after r) = PredictQueue.normal q
     | NORMAL =>
         PredictQueue.high (PredictQueue.after r) = PredictQueue.high q /\
         PredictQueue.normal (PredictQueue.after r) = PredictQueue.normal q ++ [task]
     end) /\
  (forall (a : AudioQueue.t) (audio : AudioSegment) (task : TtsTask),
     AudioQueue.max_size a = v ->
     AudioQueue.push audio task a =
       ([], AudioQueue.mk v (AudioQueue.q a ++ [(audio, task)]) (AudioQueue.on_evict a))).
Proof.
  intros Hv. pose proof (effective_cap_unbounded Hv) as He. split.
  - intros q task Hm r. subst r.
    unfold PredictQueue.push, PredictQueue.is_full. rewrite Hm, He. simpl.
    unfold PredictQueue.append.
    destruct (priority task); simpl; repeat split; assumption.
  - intros a audio task Hm.
    unfold AudioQueue.push, AudioQueue.is_full. rewrite Hm, He. reflexivity.
Qed.

Lemma no_bound_no_eviction_no_rejection_witness :
  unbounded_cap (PyInt (-3)) /\
  AudioQueue.push Sample.silence Sample.a
    (AudioQueue.mk (PyInt (-3)) [(Sample.silence, Sample.h)] Sample.cancelled_cb) =
  ([], AudioQueue.mk (PyInt (-3))
         ([(Sample.silence, Sample.h)] ++ [(Sample.silence, Sample.a)])
         Sample.cancelled_cb).
Proof.
  assert (U : unbounded_cap (PyInt (-3))) by (right; simpl; lia).
  split; [exact U | ].
  exact (proj2 (no_bound_no_eviction_no_rejection U)
           (AudioQueue.mk (PyInt (-3)) [(Sample.silence, Sample.h)] Sample.cancelled_cb)
           Sample.silence Sample.a eq_refl).
Defined.

(** ** The playback queue against the predict queue *)

Module Agreement.

Lemma same_size (a : AudioQueue.t) (p : PredictQueue.t) :
  same_contents a p -> PredictQueue.size p = AudioQueue.size a.
Proof.
  intros (_ & _ & Hh & Hn). unfold PredictQueue.size, AudioQueue.size.
  rewrite Hh, Hn, length_map. simpl. f_equal. lia.
Qed.

Lemma same_full (a : AudioQueue.t) (p : PredictQueue.t) :
  same_contents a p -> PredictQueue.is_full p = AudioQueue.is_full a.
Proof.
  intros H. unfold PredictQueue.is_full, AudioQueue.is_full.
  rewrite (same_size H). destruct H as (-> & _). reflexivity.
Qed.

Lemma push_agrees (a : AudioQueue.t) (p : PredictQueue.t)
      (audio : AudioSegment) (task : TtsTask) :
  same_contents a p -> priority task = HIGH ->
  PredictQueue.accepted (PredictQueue.push task p) = true /\
  PredictQueue.emitted (PredictQueue.push task p) = fst (AudioQueue.push audio task a) /\
  same_contents (snd (AudioQueue.push audio task a))
                (PredictQueue.after (PredictQueue.push task p)).
Proof.
  intros H Hp. pose proof (same_full H) as Hf.
  destruct H as (Hm & Hcb & Hh & Hn).
  unfold PredictQueue.push, AudioQueue.push. rewrite Hf, Hp.
  destruct (AudioQueue.is_full a).
  - unfold PredictQueue.evict. rewrite Hn, Hh.
    destruct (AudioQueue.q a) as [ | old rest] eqn:Hq; simpl.
    + unfold PredictQueue.append. rewrite Hp. simpl.
      repeat split; try assumption. now rewrite Hh.
    + unfold PredictQueue.append. rewrite Hp. simpl. rewrite Hcb.
      repeat split; try assumption. simpl. now rewrite map_app.
  - simpl. unfold PredictQueue.append. rewrite Hp. simpl.
    repeat split; try assumption. simpl. now rewrite Hh, map_app.
Qed.

Lemma pop_agrees (a : AudioQueue.t) (p : PredictQueue.t) :
  same_contents a p ->
  fst (PredictQueue.step PredictQueue.OpPop p) = fst (AudioQueue.step AudioQueue.OpPop a) /\
  same_contents (snd (AudioQueue.step AudioQueue.OpPop a))
                (snd (PredictQueue.step PredictQueue.OpPop p)).
Proof.
  intros H. pose proof H as (Hm & Hcb & Hh & Hn).
  unfold PredictQueue.step, AudioQueue.step, PredictQueue.pop, AudioQueue.pop.
  rewrite Hh, Hn.
  destruct (AudioQueue.q a) as [ | x rest] eqn:Hq; simpl.
  - split; [reflexivity | assumption].
  - split; [reflexivity | ]. repeat split; assumption.
Qed.

Lemma step_agrees (a : AudioQueue.t) (p : PredictQueue.t) (o : AudioQueue.Op) :
  same_contents a p -> AudioQueue.pushes_high o ->
  fst (AudioQueue.step o a) = fst (PredictQueue.step (AudioQueue.forget o) p) /\
  same_contents (snd (AudioQueue.step o a))
                (snd (PredictQueue.step (AudioQueue.forget o) p)).
Proof.
  intros H Ho. destruct o as [audio task | ].
  - destruct (@push_agrees a p audio task H Ho) as (Hacc & Hem & Hs).
    simpl. destruct (AudioQueue.push audio task a) as [ev a'] eqn:Hpush.
    simpl in *. rewrite Hacc, Hem. split; [reflexivity | assumption].
  - destruct (pop_agrees H) as [Hobs Hs]. split; [now symmetry | assumption].
Qed.

Lemma run_agrees (ops : list AudioQueue.Op) :
  Forall AudioQueue.pushes_high ops ->
  forall a p, same_contents a p ->
  fst (AudioQueue.run ops a) = fst (PredictQueue.run (map AudioQueue.forget ops) p).
Proof.
  induction 1 as [ | o ops Ho _ IH]; intros a p H; simpl; [reflexivity | ].
  destruct (@step_agrees a p o H Ho) as [Hobs Hs].
  destruct (AudioQueue.step o a) as [ob a1].
  destruct (PredictQueue.step (AudioQueue.forget o) p) as [ob' p1].
  simpl in Hobs, Hs. subst ob'.
  specialize (IH a1 p1 Hs).
  destruct (AudioQueue.run ops a1) as [obs a2].
  destruct (PredictQueue.run (map AudioQueue.forget ops) p1) as [obs' p2].
  simpl in *. now rewrite IH.
Qed.

End Agreement.

(** C2, counterexample: the playback queue is one FIFO that ignores the
    priority.  Unbounded, it pops the NORMAL task [a] before the HIGH task
    [h] queued after it, where the predict queue pops [h] first; with
    capacity 1 it answers a second NORMAL push by evicting the first, where
    the predict queue rejects the push. *)
Lemma queues_agree_on_counterexample :
  ~ queues_agree_on PyNone Sample.cancelled_cb
      [AudioQueue.OpPush Sample.silence Sample.a;
       AudioQueue.OpPush Sample.silence Sample.h;
       AudioQueue.OpPop] /\
  ~ queues_agree_on (PyInt 1) Sample.cancelled_cb
      [AudioQueue.OpPush Sample.silence Sample.a;
       AudioQueue.OpPush Sample.silence Sample.b].
Proof.
  split; unfold queues_agree_on; vm_compute; discriminate.
Qed.

(** C2, amended.  The playback queue is one bounded FIFO: a push is always
    admitted, a full push first drops the oldest item whatever its priority,
    and pop returns the oldest item.  For every capacity value, callback and
    sequence of pushes and pops whose pushed tasks are all HIGH, it admits,
    evicts and orders exactly as the predict queue does. *)
Theorem queues_agree_on_high_traffic
        (cap : PyVal) (cb : option EvictCallback) (ops : list AudioQueue.Op) :
  Forall AudioQueue.pushes_high ops ->
  queues_agree_on cap cb ops /\
  (forall a audio task,
     AudioQueue.q (snd (AudioQueue.push audio task a)) =
       (if AudioQueue.is_full a then tl (AudioQueue.q a) else AudioQueue.q a)
       ++ [(audio, task)] /\
     fst (AudioQueue.push audio task a) =
       (if AudioQueue.is_full a
        then notify (AudioQueue.on_evict a) (option_map snd (hd_error (AudioQueue.q a)))
        else [])) /\
  (forall a, option_map fst (AudioQueue.pop a) = hd_error (AudioQueue.q a)).
Proof.
  intros Hops. split; [ | split].
  - unfold queues_agree_on.
    apply Agreement.run_agrees; [assumption | ].
    repeat split.
  - intros a audio task. unfold AudioQueue.push.
    destruct (AudioQueue.is_full a); [ | split; reflexivity].
    destruct (AudioQueue.q a) as [ | old rest]; split; reflexivity.
  - intros a. unfold AudioQueue.pop.
    now destruct (AudioQueue.q a).
Qed.

Lemma queues_agree_on_high_traffic_witness :
  queues_agree_on (PyInt 1) Sample.cancelled_cb
    [AudioQueue.OpPush Sample.silence Sample.h;
     AudioQueue.OpPush Sample.silence Sample.g;
     AudioQueue.OpPop; AudioQueue.OpPop].
Proof.
  apply (@queues_agree_on_high_traffic (PyInt 1) Sample.cancelled_cb).
  repeat constructor.
Defined.

(** ** The facade *)

Module TraceFacts.
Import TTSService.

Lemma statuses_app (a b : list Action) : statuses (a ++ b) = statuses a ++ statuses b.
Proof. unfold statuses. apply flat_map_app. Qed.

Lemma renders_app (a b : list Action) : renders (a ++ b) = renders a ++ renders b.
Proof. unfold renders. apply flat_map_app. Qed.

Lemma statuses_emit (evs : list StatusEvent) : statuses (map Emit evs) = evs.
Proof.
  induction evs as [ | e evs IH]; [reflexivity | ].
  cbn [map]. change (statuses (Emit e :: map Emit evs)) with (e :: statuses (map Emit evs)).
  now rewrite IH.
Qed.

Lemma renders_emit (evs : list StatusEvent) : renders (map Emit evs) = [].
Proof. induction evs as [ | e evs IH]; [reflexivity | exact IH]. Qed.

Lemma status_log_emit_all (evs : list StatusEvent) (s : t) :
  status_log (emit_all evs s) = status_log s ++ evs.
Proof.
  unfold status_log, emit_all, log. cbn [trace].
  now rewrite statuses_app, statuses_emit.
Qed.

Lemma rendered_emit_all (evs : list StatusEvent) (s : t) :
  rendered (emit_all evs s) = rendered s.
Proof.
  unfold rendered, emit_all, log. cbn [trace].
  now rewrite renders_app, renders_emit, app_nil_r.
Qed.

End TraceFacts.

(** C1, counterexample: with [max_tts_queue_size = 1] and one task queued,
    a NORMAL enqueue with key ["key-b"] is rejected and the facade emits
    [cancelled] for it. *)
Lemma rejection_is_silent_counterexample :
  ~ rejection_is_silent Sample.re_escape Sample.re_sub Sample.busy
      "b" (Some "key-b"%string) (Some 7%Z).
Proof.
  unfold rejection_is_silent. intros H.
  specialize (H eq_refl). vm_compute in H. discriminate H.
Qed.

(** C1, amended.  When the service is enabled and the predict queue is full
    for the configured capacity, a NORMAL enqueue returns [False], leaves the
    predict queue's contents as they were and emits no [pending]; it emits
    one [cancelled] for the task when the key is not [None], and no status
    event when the key is [None]. *)
Theorem rejected_normal_enqueue_cancels_keyed_task
        (re_escape : string -> string)
        (re_sub : string -> string -> string -> bool -> SubResult)
        (s : TTSService.t) (c : Settings) (cap : Z)
        (txt : string) (k : option string) (room : option Z) :
  TTSService.cfg s = Some c ->
  tts_enabled c = true ->
  effective_cap (configured_cap c) = Some cap ->
  (cap <= PredictQueue.size (TTSService.predict_q s))%Z ->
  let r := TTSService.enqueue_text re_escape re_sub txt NORMAL k room s in
  fst r = false /\
  PredictQueue.high (TTSService.predict_q (snd r)) = PredictQueue.high (TTSService.predict_q s) /\
  PredictQueue.normal (TTSService.predict_q (snd r)) = PredictQueue.normal (TTSService.predict_q s) /\
  TTSService.status_log (snd r) =
    TTSService.status_log s ++
    match k with
    | Some _ => [mkEvent room k cancelled]
    | None => []
    end.
Proof.
  intros Hcfg Hen Hcap Hsize r. subst r.
  unfold TTSService.enqueue_text. rewrite Hcfg, Hen. cbn [negb].
  rewrite (@full_queue_turns_normal_down
             (PredictQueue.set_max_size (configured_cap c) (TTSService.predict_q s))
             (mkTask (TTSService.apply_rules re_escape re_sub (replacement_rules c) txt)
                     NORMAL k room) cap Hcap Hsize eq_refl).
  cbn [PredictQueue.accepted PredictQueue.emitted PredictQueue.after].
  destruct k as [k | ]; cbn [fst snd]; unfold TTSService._emit_status;
    rewrite ?TraceFacts.status_log_emit_all; cbn [TTSService.predict_q TTSService.emit_all
      TTSService.log PredictQueue.high PredictQueue.normal PredictQueue.set_max_size];
    rewrite ?app_nil_r; repeat split; reflexivity.
Qed.

Lemma rejected_normal_enqueue_cancels_keyed_task_witness :
  fst (TTSService.enqueue_text Sample.re_escape Sample.re_sub "b" NORMAL
         (Some "key-b"%string) (Some 7%Z) Sample.busy) = false /\
  TTSService.status_log
    (snd (TTSService.enqueue_text Sample.re_escape Sample.re_sub "b" NORMAL
            (Some "key-b"%string) (Some 7%Z) Sample.busy)) =
  TTSService.status_log Sample.busy ++
  [mkEvent (Some 7%Z) (Some "key-b"%string) cancelled].
Proof.
  destruct (@rejected_normal_enqueue_cancels_keyed_task
              Sample.re_escape Sample.re_sub Sample.busy Sample.settings 1
              "b" (Some "key-b"%string) (Some 7%Z))
    as (Hfst & _ & _ & Hlog);
    [reflexivity | reflexivity | reflexivity | vm_compute; discriminate | ].
  split; [exact Hfst | exact Hlog].
Defined.

(** ** The play worker *)

Module PlayWorkerFacts.
Import TTSService.

Lemma play_once_waits (env : RenderEnv) (s : t) :
  AudioQueue.q (audio_q s) = [] -> play_once env s = None.
Proof. intros Hq. unfold play_once, AudioQueue.pop. now rewrite Hq. Qed.

Lemma play_once_spec (env : RenderEnv) (s : t)
      (audio : AudioSegment) (task : TtsTask) (rest : list (AudioSegment * TtsTask)) :
  AudioQueue.q (audio_q s) = (audio, task) :: rest ->
  exists s',
    play_once env s = Some s' /\
    AudioQueue.q (audio_q s') = rest /\
    AudioQueue.max_size (audio_q s') = AudioQueue.max_size (audio_q s) /\
    AudioQueue.on_evict (audio_q s') = AudioQueue.on_evict (audio_q s) /\
    predict_q s' = predict_q s /\
    cfg s' = cfg s /\
    trace s' =
      trace s ++
      emits task playing ::
      match export_wav env audio with
      | Some data => [Render task (render env data); emits task done]
      | None => [ExportFailed task]
      end.
Proof.
  intros Hq. unfold play_once, AudioQueue.pop. rewrite Hq.
  destruct (export_wav env audio) as [data | ];
    (eexists; split; [reflexivity | ]; cbn; rewrite <- ?app_assoc; repeat split).
Qed.


End PlayWorkerFacts.



(** Both renderers fail on the one queued task: [playing], the failed
    rendering, then [done]. *)
Example play_worker_failed_render :
  TTSService.trace (TTSService._play_worker [Sample.deaf; Sample.deaf] Sample.loaded) =
    [emits Sample.a playing; Render Sample.a RenderFailed; emits Sample.a done].
Proof. reflexivity. Qed.

(** ** The health probe *)

(** C9, counterexample: the probe of an unreachable server clears the
    cached signature and closes the cached client's session. *)
Lemma probe_leaves_cache_alone_counterexample :
  ~ probe_leaves_cache_alone Sample.settings Sample.warm.
Proof.
  unfold probe_leaves_cache_alone. intros [Hc _].
  vm_compute in Hc. discriminate Hc.
Qed.

(** C9, amended.  When the request of the probe meets a connection failure,
    [gradio_health] returns, without raising, a report with [ok = false],
    [ready = false] and a message.  It sends its one GET on a session of its
    own; after the failure it sets the cached signature to [None] and closes
    the session of the cached client, if there is one.  (With an empty URL it
    returns the report at once and changes nothing.) *)
Theorem health_probe_unreachable_reports_and_resets
        (settings : Settings) (s : St) (msg : string) :
  next_failure s = Some msg ->
  let base := Str.strip (gradio_server_url settings) in
  let s' := snd (HttpHelper.gradio_health settings s) in
  exists h,
    fst (HttpHelper.gradio_health settings s) = Returned h /\
    HttpHelper.ok h = false /\
    HttpHelper.ready h = false /\
    HttpHelper.url h = base /\
    HttpHelper.message h <> None /\
    if Str.is_empty base then s' = s
    else
      HttpHelper.message h = Some msg /\
      selected_sig s' = None /\
      client s' = closed (client s) /\
      events s' = HttpGet (Str.with_slash base ++ "config") :: events s /\
      replies s' = tl (replies s) /\
      gradio_ready s' = gradio_ready s.
Proof.
  intros Hfail base s'. subst s'.
  unfold HttpHelper.gradio_health. fold base.
  destruct (Str.is_empty base) eqn:Hb.
  - eexists. cbn. repeat split. discriminate.
  - unfold next_failure in Hfail.
    unfold try_except, bind, http, set_sig, get_client, GradioClient.close,
      GradioClient.self, GradioClient.update, set_client, get_client, ret, raise, bind.
    destruct (replies s) as [ | [m | st txt j] rest] eqn:Hr; try discriminate;
      injection Hfail as <-;
      cbn [client selected_sig gradio_ready events replies tl];
      (destruct (client s) as [c | ] eqn:Hc;
       [destruct (session c) eqn:Hs | ]);
      cbn; rewrite ?Hc; cbn; rewrite ?Hs; cbn;
      eexists; (split; [reflexivity | ]); cbn;
      repeat split; try discriminate; try reflexivity.
    all: destruct c as [bu se fm]; cbn in *; subst; reflexivity.
Qed.

Lemma health_probe_unreachable_reports_and_resets_witness :
  next_failure Sample.warm = Some "Cannot connect to host localhost:9872"%string /\
  exists h,
    fst (HttpHelper.gradio_health Sample.settings Sample.warm) = Returned h /\
    HttpHelper.ok h = false /\
    selected_sig (snd (HttpHelper.gradio_health Sample.settings Sample.warm)) = None.
Proof.
  split; [reflexivity | ].
  destruct (@health_probe_unreachable_reports_and_resets Sample.settings Sample.warm
              "Cannot connect to host localhost:9872" eq_refl)
    as (h & Hret & Hok & _ & _ & _ & Hrest).
  exists h. split; [exact Hret | split; [exact Hok | ]].
  exact (proj1 (proj2 Hrest)).
Defined.

(** ** Model selection *)

Module EventLog.

Lemma quiet_ext_trans (a b c : list Event) :
  quiet_ext a b -> quiet_ext b c -> quiet_ext a c.
Proof.
  intros Hab Hbc. induction Hbc as [ | e evs He _ IH]; [assumption | ].
  now constructor.
Qed.

Lemma posted_quiet (api : string) (old evs : list Event) :
  quiet_ext old evs ->
  posted_on_current_client api evs = posted_on_current_client api old.
Proof.
  induction 1 as [ | e evs He _ IH]; [reflexivity | ].
  destruct e; try discriminate; simpl; assumption.
Qed.

Lemma once_quiet (old evs : list Event) :
  quiet_ext old evs -> selection_once evs = selection_once old.
Proof.
  induction 1 as [ | e evs He _ IH]; [reflexivity | ].
  destruct e; try discriminate; simpl; rewrite IH; apply andb_true_r.
Qed.

Lemma posted_extends_other (api other : string) (old evs : list Event) :
  (api =? other)%string = false ->
  extends api old evs ->
  posted_on_current_client other evs = posted_on_current_client other old.
Proof.
  intros Hne [evs' Hq | url fn evs' Hq].
  - now apply posted_quiet.
  - simpl. rewrite Hne. simpl. now apply posted_quiet.
Qed.

Lemma once_extends (api : string) (old evs : list Event) :
  extends api old evs ->
  posted_on_current_client api old = false ->
  selection_once old = true ->
  selection_once evs = true.
Proof.
  intros [evs' Hq | url fn evs' Hq] Hp Ho.
  - now rewrite (once_quiet Hq).
  - simpl. rewrite (once_quiet Hq), Ho, (posted_quiet api Hq), Hp. simpl.
    now destruct (is_selection api).
Qed.

Lemma once_extends_other (api : string) (old evs : list Event) :
  is_selection api = false ->
  extends api old evs ->
  selection_once evs = selection_once old.
Proof.
  intros Hsel [evs' Hq | url fn evs' Hq].
  - now apply once_quiet.
  - simpl. rewrite Hsel, (once_quiet Hq). apply andb_true_r.
Qed.

End EventLog.

Module DescriptorLoop.

Lemma add_deps_step (i : Z) (d : Dep) (read : list Dep) (m : list (string * Z)) :
  GradioClient.add_deps (i + 1) read (GradioClient.add_deps i [d] m) =
  GradioClient.add_deps i (d :: read) m.
Proof. reflexivity. Qed.

Lemma load_deps_readable (i : Z) (d : Dep) (rest : list Entry) (s : St) (c : GradioClient) :
  client s = Some c ->
  GradioClient.load_deps i (Readable d :: rest) s =
  GradioClient.load_deps (i + 1) rest
    (mkSt (Some (mkClient (base_url c) (session c)
                   (GradioClient.add_deps i [d] (fn_map c))))
          (selected_sig s) (gradio_ready s) (events s) (replies s)).
Proof.
  intros Hc. cbn [GradioClient.load_deps].
  unfold bind, GradioClient.self, bind, get_client, GradioClient.update, set_client, ret.
  now rewrite Hc.
Qed.

(** The loop reads the readable records up to the first element it cannot
    read, and touches nothing but the map of the client. *)
Lemma load_deps_run (entries : list Entry) :
  forall i s c,
    client s = Some c ->
    exists read,
      snd (GradioClient.load_deps i entries s) =
        mkSt (Some (mkClient (base_url c) (session c)
                      (GradioClient.add_deps i read (fn_map c))))
             (selected_sig s) (gradio_ready s) (events s) (replies s) /\
      ((fst (GradioClient.load_deps i entries s) = Returned tt /\
        entries = map Readable read) \/
       exists err tail,
         fst (GradioClient.load_deps i entries s) = Raised err /\
         entries = map Readable read ++ Unreadable err :: tail).
Proof.
  induction entries as [ | [d | err] rest IH]; intros i s c Hc.
  - exists []. destruct s as [cl sg rd evs rs]. cbn in *. subst cl.
    destruct c. split; [reflexivity | left; split; reflexivity].
  - rewrite (load_deps_readable i d rest s Hc).
    match goal with |- context [GradioClient.load_deps (i + 1) rest ?st] =>
      destruct (IH (i + 1)%Z st
                   (mkClient (base_url c) (session c)
                      (GradioClient.add_deps i [d] (fn_map c))) eq_refl)
        as (read & Hst & Hres)
    end.
    exists (d :: read).
    cbn [base_url session fn_map selected_sig gradio_ready events replies] in Hst.
    rewrite add_deps_step in Hst. split; [exact Hst | ].
    destruct Hres as [[Ho ->] | (e & tail & Ho & ->)].
    + left. split; [exact Ho | reflexivity].
    + right. exists e, tail. split; [exact Ho | reflexivity].
  - exists []. destruct s as [cl sg rd evs rs]. cbn in *. subst cl.
    destruct c. split; [reflexivity | ].
    right. exists err, rest. split; reflexivity.
Qed.

Lemma load_deps_events (entries : list Entry) (i : Z) (s : St) (c : GradioClient) :
  client s = Some c ->
  events (snd (GradioClient.load_deps i entries s)) = events s /\
  replies (snd (GradioClient.load_deps i entries s)) = replies s.
Proof.
  intros Hc. destruct (load_deps_run entries i s Hc) as (read & Hst & _).
  rewrite Hst. split; reflexivity.
Qed.

End DescriptorLoop.

Module Effects.

Lemma keeps_refl (s : St) : keeps s s.
Proof. repeat split. Qed.

Lemma keeps_trans (a b c : St) : keeps a b -> keeps b c -> keeps a c.
Proof.
  intros (H1 & H2 & H3) (K1 & K2 & K3). repeat split; congruence.
Qed.

Lemma quietly_ret {A} (a : A) : quietly (ret a).
Proof. intros s. split; [apply keeps_refl | constructor]. Qed.

Lemma quietly_raise {A} (msg : string) : quietly (@raise A msg).
Proof. intros s. split; [apply keeps_refl | constructor]. Qed.

Lemma quietly_bind {A B} (m : M A) (f : A -> M B) :
  quietly m -> (forall a, quietly (f a)) -> quietly (bind m f).
Proof.
  intros Hm Hf s. unfold bind.
  destruct (Hm s) as [Hk Hq].
  destruct (m s) as [[a | msg] s1]; simpl in *.
  - destruct (Hf a s1) as [Hk' Hq'].
    split; [eapply keeps_trans | eapply EventLog.quiet_ext_trans]; eassumption.
  - split; assumption.
Qed.

Lemma quietly_http (e : Event) : is_quiet e = true -> quietly (http e).
Proof.
  intros He s. unfold http.
  destruct (replies s) as [ | [msg | st txt j] rest]; simpl;
    (split; [repeat split | constructor; [assumption | constructor]]).
Qed.

Lemma quietly_self : quietly GradioClient.self.
Proof.
  intros s. unfold GradioClient.self, bind, get_client.
  destruct (client s); simpl; (split; [apply keeps_refl | constructor]).
Qed.

(** The same at one state, for steps that depend on it. *)
Lemma bind_at {A B} (m : M A) (f : A -> M B) (s : St) :
  keeps s (snd (m s)) /\ quiet_ext (events s) (events (snd (m s))) ->
  (forall a s1, m s = (Returned a, s1) ->
     keeps s1 (snd (f a s1)) /\ quiet_ext (events s1) (events (snd (f a s1)))) ->
  keeps s (snd (bind m f s)) /\ quiet_ext (events s) (events (snd (bind m f s))).
Proof.
  intros [Hk Hq] Hf. unfold bind.
  destruct (m s) as [[a | msg] s1]; simpl in *; [ | split; assumption].
  destruct (Hf a s1 eq_refl) as [Hk' Hq'].
  split; [eapply keeps_trans | eapply EventLog.quiet_ext_trans]; eassumption.
Qed.

Lemma self_returns (s s1 : St) (c : GradioClient) :
  GradioClient.self s = (Returned c, s1) -> s1 = s /\ client s = Some c.
Proof.
  unfold GradioClient.self, bind, get_client, ret, raise.
  destruct (client s); intros H; inversion H; subst; auto.
Qed.

Lemma http_returns (e : Event) (s s1 : St) (r : Z * string * Json) :
  http e s = (Returned r, s1) -> client s1 = client s.
Proof.
  unfold http. destruct (replies s) as [ | [msg | st txt j] rest];
    intros H; inversion H; reflexivity.
Qed.

Lemma update_at (c c' : GradioClient) (s : St) :
  client s = Some c -> base_url c' = base_url c ->
  keeps s (snd (GradioClient.update c' s)) /\
  quiet_ext (events s) (events (snd (GradioClient.update c' s))).
Proof.
  intros Hc Hb. unfold GradioClient.update, set_client, keeps, client_base. simpl.
  rewrite Hc. simpl. rewrite Hb. repeat split. constructor.
Qed.

Lemma quietly_load_config : quietly GradioClient._load_config.
Proof.
  intros s. unfold GradioClient._load_config.
  apply bind_at; [apply quietly_self | intros c s1 Hself].
  apply self_returns in Hself as [-> Hc].
  apply bind_at; [now apply quietly_http | intros [[st txt] j] s2 Hhttp].
  apply http_returns in Hhttp. rewrite Hc in Hhttp.
  destruct (400 <=? st)%Z; [apply quietly_raise | ].
  destruct j as [entries | e d | ps | ];
    first [apply quietly_raise | apply quietly_ret | idtac].
  destruct (DescriptorLoop.load_deps_run entries 0 s2 Hhttp) as (read & Hst & _).
  rewrite Hst. unfold keeps, client_base. rewrite Hhttp. cbn.
  repeat split. constructor.
Qed.

Lemma quietly_ensure : quietly GradioClient.ensure.
Proof.
  intros s. unfold GradioClient.ensure.
  apply bind_at; [apply quietly_self | intros c s1 Hself].
  apply self_returns in Hself as [-> Hc].
  destruct (session c); [apply quietly_ret | ].
  apply bind_at; [now apply update_at with (c := c) | intros _ s2 _].
  apply quietly_load_config.
Qed.

Lemma quietly_upload (path : string) : quietly (GradioClient._upload_file path).
Proof.
  unfold GradioClient._upload_file.
  apply quietly_bind; [apply quietly_self | intros c].
  apply quietly_bind; [now apply quietly_http | intros [[st txt] j]].
  destruct (400 <=? st)%Z; [apply quietly_raise | ].
  destruct j as [deps | e d | [ | p ps] | ];
    first [apply quietly_raise | apply quietly_ret].
Qed.

Lemma quietly_process_inputs (args : list Arg) :
  quietly (GradioClient._process_inputs args).
Proof.
  induction args as [ | a args IH]; simpl; [apply quietly_ret | ].
  apply quietly_bind.
  - destruct a as [v | [p | ]]; try apply quietly_ret.
    destruct (negb (Str.is_empty p) && negb (GradioClient.is_remote p));
      [ | apply quietly_ret].
    apply quietly_bind; [apply quietly_upload | intros; apply quietly_ret].
  - intros a'. apply quietly_bind; [exact IH | intros; apply quietly_ret].
Qed.

Lemma quiet_then_extends (api : string) (a b c : list Event) :
  quiet_ext a b -> extends api b c -> extends api a c.
Proof.
  intros Hab [evs Hq | url fn evs Hq]; constructor;
    eapply EventLog.quiet_ext_trans; eassumption.
Qed.

Lemma bind_quiet_then {A B} (api : string) (m : M A) (f : A -> M B) (s : St) :
  quietly m ->
  (forall a s1, keeps s1 (snd (f a s1)) /\
                extends api (events s1) (events (snd (f a s1)))) ->
  keeps s (snd (bind m f s)) /\ extends api (events s) (events (snd (bind m f s))).
Proof.
  intros Hm Hf. unfold bind. destruct (Hm s) as [Hk Hq].
  destruct (m s) as [[a | msg] s1]; simpl in *.
  - destruct (Hf a s1) as [Hk' He].
    split; [eapply keeps_trans | eapply quiet_then_extends]; eassumption.
  - split; [assumption | now constructor].
Qed.

(** The POST of [predict] and the reading of its answer. *)
Lemma post_effect {B} (api url : string) (fn : Z)
      (k : Z * string * Json -> M B) (s : St) :
  (forall r s1, snd (k r s1) = s1) ->
  keeps s (snd (bind (http (HttpPost url api fn)) k s)) /\
  extends api (events s) (events (snd (bind (http (HttpPost url api fn)) k s))).
Proof.
  intros Hk. unfold bind, http.
  destruct (replies s) as [ | [msg | st txt j] rest]; simpl; rewrite ?Hk; simpl;
    (split; [repeat split | apply ext_post; constructor]).
Qed.

(** One [predict] call: some quiet requests, then at most the POST. *)
Lemma predict_effect (api : string) (args : list Arg) (s : St) :
  keeps s (snd (GradioClient.predict api args s)) /\
  extends api (events s) (events (snd (GradioClient.predict api args s))).
Proof.
  unfold GradioClient.predict.
  apply bind_quiet_then; [apply quietly_ensure | intros _ s1].
  apply bind_quiet_then; [apply quietly_self | intros c s2].
  destruct (GradioClient.lookup _ (fn_map c)) as [fn | ].
  - apply bind_quiet_then; [apply quietly_process_inputs | intros _ s3].
    apply post_effect. intros [[st txt] j] s4.
    destruct (negb (st =? 200)%Z); [reflexivity | ].
    destruct j as [deps | [e | ] d | ps | ]; try reflexivity.
    now destruct (Str.is_empty e).
  - split; [apply keeps_refl | constructor; constructor].
Qed.

End Effects.

Module WorkerFacts.
Import PredictWorker.

Lemma Sig_eqb_refl (g : Sig) : Sig_eqb g g = true.
Proof.
  destruct g as [[[a b] c] d]. unfold Sig_eqb.
  now rewrite !String.eqb_refl.
Qed.

Lemma sig_same (g : Sig) : sig_differs (Some g) g = false.
Proof. unfold sig_differs. now rewrite Sig_eqb_refl. Qed.

Lemma client_base_none (s : St) : client_base s = None -> client s = None.
Proof. unfold client_base. now destruct (client s). Qed.

(** A step that issues no model-selection call keeps the invariant. *)
Lemma inv_step_other (cfg : Settings) (api : string) (s s' : St) :
  is_selection api = false ->
  keeps s s' -> extends api (events s) (events s') ->
  worker_inv cfg s -> worker_inv cfg s'.
Proof.
  intros Hsel (Kc & Ks & Kr) Hext [Honce Hcases].
  pose proof Hsel as Hsel'.
  apply orb_false_elim in Hsel' as [Hs Hg].
  split.
  - unfold once_per_client in *.
    now rewrite (EventLog.once_extends_other Hsel Hext).
  - destruct Hcases as [[Hc Hsig] | [[Hb Hsig] | [Hps Hpg]]].
    + left. split; [ | congruence].
      apply client_base_none. rewrite Kc. unfold client_base. now rewrite Hc.
    + right; left. rewrite Kc, Ks. split; assumption.
    + right; right.
      rewrite (@EventLog.posted_extends_other api sovits_api _ _ Hs Hext),
              (@EventLog.posted_extends_other api gpt_api _ _ Hg Hext).
      split; assumption.
Qed.

(** The two selection calls on a client that has issued none yet. *)
Lemma select_models_effect (cfg : Settings) (s : St) :
  posted_on_current_client sovits_api (events s) = false ->
  posted_on_current_client gpt_api (events s) = false ->
  once_per_client (events s) ->
  keeps s (snd (select_models cfg s)) /\
  once_per_client (events (snd (select_models cfg s))).
Proof.
  intros Hps Hpg Honce. unfold select_models, bind.
  match goal with |- context [GradioClient.predict sovits_api ?args s] =>
    destruct (Effects.predict_effect sovits_api args s) as [K1 E1];
    destruct (GradioClient.predict sovits_api args s) as [[d1 | msg1] s1]
  end; simpl in *.
  - assert (O1 : once_per_client (events s1))
      by (eapply EventLog.once_extends; eassumption).
    assert (P1 : posted_on_current_client gpt_api (events s1) = false)
      by (rewrite (@EventLog.posted_extends_other sovits_api gpt_api _ _ eq_refl E1);
          assumption).
    match goal with |- context [GradioClient.predict gpt_api ?args s1] =>
      destruct (Effects.predict_effect gpt_api args s1) as [K2 E2];
      destruct (GradioClient.predict gpt_api args s1) as [[d2 | msg2] s2]
    end; simpl in *;
      (split; [eapply Effects.keeps_trans; eassumption
              | eapply EventLog.once_extends; eassumption]).
  - split; [assumption | eapply EventLog.once_extends; eassumption].
Qed.

(** The state after the client test of [_ensure_and_select_models]. *)
Lemma recreate_effect (cfg : Settings) (s : St) (m : M bool) :
  let base := Str.strip (gradio_server_url cfg) in
  worker_inv cfg s ->
  exists sA,
    bind get_client
      (fun c => bind (if must_recreate c base
                      then bind (GradioClient.new base) (fun _ => set_sig None)
                      else ret tt)
                     (fun _ => m)) s = m sA /\
    worker_inv cfg sA /\
    exists c, client sA = Some c /\
              Str.rstrip_slash (base_url c) = Str.rstrip_slash (Str.with_slash base).
Proof.
  intros base [Honce Hcases].
  unfold bind at 1, get_client.
  destruct (must_recreate (client s) base) eqn:Hm.
  - eexists. split; [reflexivity | ]. cbn. split.
    + split; [ | right; right; split; reflexivity].
      unfold once_per_client in *. cbn. now rewrite Honce.
    + eexists. split; reflexivity.
  - exists s. split; [reflexivity | ]. split; [split; assumption | ].
    unfold must_recreate in Hm. destruct (client s) as [c | ]; [ | discriminate].
    exists c. split; [reflexivity | ].
    apply negb_false_iff in Hm. now apply String.eqb_eq in Hm.
Qed.

Lemma ensure_keeps_inv (cfg : Settings) (s : St) :
  worker_inv cfg s ->
  worker_inv cfg (snd (_ensure_and_select_models (Some cfg) s)).
Proof.
  intros Hinv. unfold _ensure_and_select_models.
  destruct (Str.is_empty (Str.strip (gradio_server_url cfg))); [exact Hinv | ].
  match goal with |- context [bind (if _ then _ else _) (fun _ => ?m)] =>
    destruct (recreate_effect m Hinv) as (sA & -> & [Honce Hcases] & c & Hc & Hbase)
  end.
  unfold try_except, bind at 1, get_sig.
  destruct (sig_differs (selected_sig sA) _) eqn:Hd.
  - destruct Hcases as [[Hn _] | [[_ Hsig] | [Hps Hpg]]];
      [congruence | rewrite Hsig, sig_same in Hd; discriminate | ].
    unfold bind at 1. unfold bind at 1.
    destruct (@select_models_effect cfg sA Hps Hpg Honce) as [(Kc & Ks & Kr) Honce'].
    destruct (select_models cfg sA) as [[[] | msg] sC]; cbn in *.
    + split; [assumption | right; left]. split; [ | reflexivity].
      unfold client_base in *. cbn. rewrite Kc, Hc. cbn. eauto.
    + split; [assumption | left; split; reflexivity].
  - cbn. split; assumption.
Qed.

Lemma inference_keeps_inv (cfg : Settings) (ref_audio : Arg) (task : TtsTask) (s : St) :
  worker_inv cfg s ->
  worker_inv cfg (snd (inference (Some cfg) ref_audio task s)).
Proof.
  intros Hinv. unfold inference, try_except. unfold bind at 1.
  pose proof (ensure_keeps_inv Hinv) as H1.
  destruct (_ensure_and_select_models (Some cfg) s) as [[[ | ] | msg] s1];
    cbn [snd] in H1; try exact H1.
  unfold bind.
  match goal with |- context [GradioClient.predict inference_api ?args s1] =>
    destruct (Effects.predict_effect inference_api args s1) as [K E];
    destruct (GradioClient.predict inference_api args s1) as [[d | msg] s2]
  end; cbn [snd] in *;
    now apply (@inv_step_other cfg inference_api s1 s2 eq_refl).
Qed.

(** The invariant reads the settings through their signature only. *)
Lemma inv_same_signature (cfg cfg' : Settings) (s : St) :
  signature_of cfg = signature_of cfg' -> worker_inv cfg s -> worker_inv cfg' s.
Proof.
  unfold signature_of, signature, worker_inv. intros Hsig.
  injection Hsig as Hb Hs Hg Hl. unfold signature. now rewrite Hb, Hs, Hg, Hl.
Qed.

Lemma inference_none (ref_audio : Arg) (task : TtsTask) (s : St) :
  snd (inference None ref_audio task s) = s.
Proof. reflexivity. Qed.

(** Turns whose settings have one signature keep the invariant of every
    settings value with that signature. *)
Lemma inferences_keep_inv (sg : Sig) (turns : list Turn) :
  Forall (fun t => forall cfg, turn_cfg t = Some cfg -> signature_of cfg = sg) turns ->
  forall s,
    once_per_client (events s) /\
    (forall cfg, signature_of cfg = sg -> worker_inv cfg s) ->
    once_per_client (events (inferences turns s)) /\
    (forall cfg, signature_of cfg = sg -> worker_inv cfg (inferences turns s)).
Proof.
  induction 1 as [ | [cfg ref_audio task] turns Hsig _ IH]; intros s [Honce Hinv];
    cbn [inferences turn_cfg turn_ref_audio turn_task] in *; [now split | ].
  apply IH. destruct cfg as [cfg | ].
  - pose proof (@inference_keeps_inv cfg ref_audio task s (Hinv cfg (Hsig cfg eq_refl)))
      as Hstep.
    split; [exact (proj1 Hstep) | ].
    intros cfg' Hsig'. apply (@inv_same_signature cfg cfg'); [ | exact Hstep].
    rewrite Hsig'. now apply Hsig.
  - rewrite inference_none. now split.
Qed.

End WorkerFacts.

Module StrFacts.

Lemma rstrip_app_slash (s : string) :
  Str.rstrip_slash (s ++ "/") = Str.rstrip_slash s.
Proof.
  unfold Str.rstrip_slash.
  induction s as [ | c s IH]; [reflexivity | ].
  cbn [String.append Str.rstrip_by]. now rewrite IH.
Qed.

Lemma rstrip_with_slash (base : string) :
  Str.rstrip_slash (Str.with_slash base) = Str.rstrip_slash base.
Proof.
  unfold Str.with_slash. destruct (Str.endswith_slash base); [reflexivity | ].
  apply rstrip_app_slash.
Qed.

Lemma Sig_eqb_eq (a b : Sig) : Sig_eqb a b = true -> a = b.
Proof.
  destruct a as [[[a1 a2] a3] a4], b as [[[b1 b2] b3] b4]. unfold Sig_eqb.
  rewrite !andb_true_iff, !String.eqb_eq. intros [[[-> ->] ->] ->]. reflexivity.
Qed.

End StrFacts.

Module ClientFacts.

Lemma fixed_ret {A} (a : A) : client_fixed (ret a).
Proof. intros s. reflexivity. Qed.

Lemma fixed_raise {A} (msg : string) : client_fixed (@raise A msg).
Proof. intros s. reflexivity. Qed.

Lemma fixed_bind {A B} (m : M A) (f : A -> M B) :
  client_fixed m -> (forall a, client_fixed (f a)) -> client_fixed (bind m f).
Proof.
  intros Hm Hf s. unfold bind. specialize (Hm s).
  destruct (m s) as [[a | msg] s1]; simpl in *; [ | assumption].
  now rewrite Hf.
Qed.

Lemma fixed_http (e : Event) : client_fixed (http e).
Proof.
  intros s. unfold http. now destruct (replies s) as [ | [msg | st txt j] rest].
Qed.

Lemma fixed_self : client_fixed GradioClient.self.
Proof.
  intros s. unfold GradioClient.self, bind, get_client. simpl.
  destruct (client s) eqn:Hc; simpl; exact Hc.
Qed.

Lemma fixed_upload (path : string) : client_fixed (GradioClient._upload_file path).
Proof.
  unfold GradioClient._upload_file.
  apply fixed_bind; [apply fixed_self | intros c].
  apply fixed_bind; [apply fixed_http | intros [[st txt] j]].
  destruct (400 <=? st)%Z; [apply fixed_raise | ].
  destruct j as [deps | e d | [ | p ps] | ];
    first [apply fixed_raise | apply fixed_ret].
Qed.

Lemma fixed_process_inputs (args : list Arg) :
  client_fixed (GradioClient._process_inputs args).
Proof.
  induction args as [ | a args IH]; simpl; [apply fixed_ret | ].
  apply fixed_bind.
  - destruct a as [v | [p | ]]; try apply fixed_ret.
    destruct (negb (Str.is_empty p) && negb (GradioClient.is_remote p));
      [ | apply fixed_ret].
    apply fixed_bind; [apply fixed_upload | intros; apply fixed_ret].
  - intros a'. apply fixed_bind; [exact IH | intros; apply fixed_ret].
Qed.

Lemma ensure_connected (s : St) :
  connected s -> GradioClient.ensure s = (Returned tt, s).
Proof.
  intros (c & Hc & Hs).
  unfold GradioClient.ensure, bind, GradioClient.self, bind, get_client.
  rewrite Hc. cbn [ret]. now rewrite Hs.
Qed.

(** A connected client goes through [predict] unchanged. *)
Lemma predict_keeps_client (api : string) (args : list Arg) (s : St) :
  connected s -> client (snd (GradioClient.predict api args s)) = client s.
Proof.
  intros Hcon. unfold GradioClient.predict. unfold bind at 1.
  rewrite (ensure_connected Hcon).
  apply fixed_bind; [apply fixed_self | intros c].
  destruct (GradioClient.lookup _ (fn_map c)); [ | apply fixed_raise].
  apply fixed_bind; [apply fixed_process_inputs | intros _].
  apply fixed_bind; [apply fixed_http | intros [[st txt] j]].
  destruct (negb (st =? 200)%Z); [apply fixed_raise | ].
  destruct j as [deps | [e | ] d | ps | ];
    try destruct (Str.is_empty e); first [apply fixed_raise | apply fixed_ret].
Qed.

Lemma select_models_keeps_client (cfg : Settings) (s : St) :
  connected s -> client (snd (select_models cfg s)) = client s.
Proof.
  intros Hcon. unfold select_models, bind.
  match goal with |- context [GradioClient.predict sovits_api ?args s] =>
    pose proof (predict_keeps_client sovits_api args Hcon) as H1;
    destruct (GradioClient.predict sovits_api args s) as [[d1 | msg1] s1]
  end; simpl in *; [ | assumption].
  assert (Hcon1 : connected s1) by (unfold connected; now rewrite H1).
  match goal with |- context [GradioClient.predict gpt_api ?args s1] =>
    pose proof (predict_keeps_client gpt_api args Hcon1) as H2;
    destruct (GradioClient.predict gpt_api args s1) as [[d2 | msg2] s2]
  end; simpl in *; congruence.
Qed.

Lemma load_config_connected (s : St) :
  connected s -> connected (snd (GradioClient._load_config s)).
Proof.
  intros (c & Hc & Hs).
  unfold GradioClient._load_config, bind, GradioClient.self, bind, get_client.
  rewrite Hc. cbn [ret]. unfold http.
  destruct (replies s) as [ | [msg | st txt j] rest]; simpl;
    try (exists c; now split).
  destruct (400 <=? st)%Z; [ | destruct j as [entries | e d | ps | ]]; simpl;
    try (exists c; now split).
  match goal with |- context [GradioClient.load_deps 0 entries ?st] =>
    destruct (DescriptorLoop.load_deps_run entries 0 st (c := c) Hc) as (read & Hst & _)
  end.
  rewrite Hst. eexists. split; [reflexivity | exact Hs].
Qed.

(** [ensure] returns only with a connected client. *)
Lemma ensure_returns (s s1 : St) :
  GradioClient.ensure s = (Returned tt, s1) -> connected s1.
Proof.
  unfold GradioClient.ensure. unfold bind at 1.
  unfold GradioClient.self, bind at 1, get_client.
  destruct (client s) as [c | ] eqn:Hc; cbn [ret raise]; [ | discriminate].
  destruct (session c) eqn:Hs.
  - intros H; inversion H; subst. exists c. now split.
  - unfold bind, GradioClient.update, set_client.
    match goal with |- context [GradioClient._load_config ?st] =>
      assert (Hcon : connected st) by (eexists; split; reflexivity);
      pose proof (load_config_connected Hcon) as H1;
      destruct (GradioClient._load_config st) as [[[] | msg] s2]
    end; intros H; inversion H; subst. exact H1.
Qed.

End ClientFacts.

Module HelperFacts.
Import HttpHelper.

Lemma settled_fixpoint (settings : Settings) (s : St) :
  settled settings s ->
  _ensure_client_and_models settings s = (Returned true, s).
Proof.
  unfold settled, _ensure_client_and_models.
  intros (Hb & (c & Hc & Hs & Hm) & Hsig).
  rewrite Hb.
  unfold bind at 1, get_client. rewrite Hc, Hm.
  unfold bind at 1, ret. unfold bind at 1, GradioClient.ensure.
  unfold bind at 1, GradioClient.self, bind at 1, get_client. rewrite Hc. cbn [ret].
  rewrite Hs. cbn [ret]. unfold bind, get_sig. rewrite Hsig, WorkerFacts.sig_same.
  reflexivity.
Qed.

(** The state after the client test of [_ensure_client_and_models]. *)
Lemma helper_recreate_effect (base : string) (s : St) (m : M bool) :
  exists sA,
    bind get_client
      (fun c => bind (if must_recreate c base
                      then bind (try_except
                                   (match c with
                                    | Some _ => GradioClient.close
                                    | None => ret tt
                                    end)
                                   (fun _ => ret tt))
                                (fun _ => bind (GradioClient.new base)
                                               (fun _ => set_sig None))
                      else ret tt)
                     (fun _ => m)) s = m sA /\
    exists c, client sA = Some c /\ must_recreate (Some c) base = false.
Proof.
  unfold bind at 1, get_client.
  destruct (must_recreate (client s) base) eqn:Hm.
  - unfold bind at 1. unfold bind at 1. unfold try_except.
    match goal with |- context [match ?t s with _ => _ end] =>
      destruct (t s) as [[[] | msg] s0] end;
      (eexists; split; [reflexivity | ]; eexists; split; [reflexivity | ];
       unfold must_recreate; cbn [base_url];
       rewrite StrFacts.rstrip_with_slash, String.eqb_refl; reflexivity).
  - exists s. split; [reflexivity | ].
    destruct (client s) as [c | ]; [ | discriminate]. now exists c.
Qed.

Lemma returns_true_settled (settings : Settings) (s s1 : St) :
  _ensure_client_and_models settings s = (Returned true, s1) ->
  settled settings s1.
Proof.
  unfold _ensure_client_and_models, settled.
  destruct (Str.is_empty (Str.strip (gradio_server_url settings))) eqn:Hb;
    [discriminate | ].
  match goal with |- context [bind (if _ then _ else _) (fun _ => ?m)] =>
    destruct (helper_recreate_effect (Str.strip (gradio_server_url settings)) s m)
      as (sA & -> & cA & HcA & HmA)
  end.
  unfold bind at 1.
  destruct (Effects.quietly_ensure sA) as [(Kc & Ks & _) _].
  destruct (GradioClient.ensure sA) as [[[] | msg] sB] eqn:He; [ | discriminate].
  pose proof (@ClientFacts.ensure_returns sA sB He) as Hcon.
  destruct Hcon as (cB & HcB & HsB). cbn [snd] in Kc, Ks.
  assert (HmB : must_recreate (Some cB) (Str.strip (gradio_server_url settings)) = false).
  { unfold client_base in Kc. rewrite HcA, HcB in Kc. cbn in Kc.
    injection Kc as Kc. unfold must_recreate in *. now rewrite Kc. }
  unfold bind at 1, get_sig.
  destruct (sig_differs (selected_sig sB) _) eqn:Hd.
  - unfold try_except. unfold bind at 1.
    assert (HconB : connected sB) by (exists cB; now split).
    pose proof (@ClientFacts.select_models_keeps_client settings sB HconB) as Hsel.
    destruct (select_models settings sB) as [[[] | msg] sC]; cbn in *;
      intros H; inversion H; subst; clear H.
    split; [reflexivity | ]. split; [ | reflexivity].
    exists cB. cbn. rewrite Hsel. repeat split; assumption.
  - intros H; inversion H; subst; clear H.
    split; [reflexivity | ]. split; [exists cB; repeat split; assumption | ].
    unfold sig_differs in Hd. destruct (selected_sig s1) as [g | ]; [ | discriminate].
    apply negb_false_iff in Hd. now rewrite (StrFacts.Sig_eqb_eq _ _ Hd).
Qed.

(** [settled] reads the settings through their signature only. *)
Lemma settled_same_signature (settings settings' : Settings) (s : St) :
  signature_of settings' = signature_of settings ->
  settled settings s -> settled settings' s.
Proof.
  unfold signature_of, signature, settled. intros Hsig.
  injection Hsig as Hb Hs Hg Hl. unfold signature. now rewrite Hb, Hs, Hg, Hl.
Qed.

Lemma settled_calls (settings : Settings) (later : list Settings) (s : St) :
  settled settings s ->
  Forall (fun x => signature_of x = signature_of settings) later ->
  calls later s = s /\
  Forall (fun x => _ensure_client_and_models x s = (Returned true, s)) later.
Proof.
  intros Hs. induction 1 as [ | x later Hx _ [IHc IHf]]; [split; [reflexivity | constructor] | ].
  pose proof (settled_fixpoint (settled_same_signature Hx Hs)) as Hfix.
  split; [cbn [calls]; now rewrite Hfix | now constructor].
Qed.

End HelperFacts.

(** C8, counterexample: in the HTTP helper, with the configuration
    unchanged and the server failing the first [change_gpt_weights], the
    second call issues both model-selection calls again on the same client:
    one client, two [change_sovits_weights]. *)
Lemma once_per_client_counterexample :
  ~ once_per_client
      (events (HttpHelper.calls [Sample.settings; Sample.settings] Sample.flaky)) /\
  count_new_clients
    (events (HttpHelper.calls [Sample.settings; Sample.settings] Sample.flaky)) = 1 /\
  count_posts sovits_api
    (events (HttpHelper.calls [Sample.settings; Sample.settings] Sample.flaky)) = 2.
Proof.
  split; [ | split; reflexivity].
  unfold once_per_client. vm_compute. discriminate.
Qed.

(** C8, amended.  In the predict worker, over any number of consecutive
    inference turns whose settings have one signature (the stripped server
    URL, the two model names, the text language; the settings may differ
    otherwise from turn to turn, and may be missing), from any state of its
    variables and whatever the server answers, no client issues either
    model-selection call twice: the calls come again only on a newly made
    client.  In the HTTP helper, once a call has returned [True], every
    further call with settings of the same signature returns [True], sends
    nothing and changes nothing; a selection that failed is tried again by
    the next call. *)
Theorem model_selection_is_memoized :
  (forall (sg : Sig) (turns : list PredictWorker.Turn)
          (c : option GradioClient) (sel : option Sig) (ready : bool)
          (server : list Reply),
     Forall (fun t => forall cfg,
                        PredictWorker.turn_cfg t = Some cfg -> signature_of cfg = sg)
            turns ->
     once_per_client
       (events (PredictWorker.inferences turns (mkSt c sel ready [] server)))) /\
  (forall (settings : Settings) (s s1 : St) (later : list Settings),
     HttpHelper._ensure_client_and_models settings s = (Returned true, s1) ->
     Forall (fun x => signature_of x = signature_of settings) later ->
     HttpHelper.calls later s1 = s1 /\
     Forall (fun x => HttpHelper._ensure_client_and_models x s1 = (Returned true, s1))
            later).
Proof.
  split.
  - intros sg turns c sel ready server Hsig.
    apply (WorkerFacts.inferences_keep_inv Hsig).
    split; [reflexivity | ].
    intros cfg _. split; [reflexivity | right; right; split; reflexivity].
  - intros settings s s1 later H Hsig.
    pose proof (@HelperFacts.returns_true_settled settings s s1 H) as Hs.
    exact (HelperFacts.settled_calls Hs Hsig).
Qed.

Lemma model_selection_is_memoized_witness :
  once_per_client
    (events (PredictWorker.inferences
               [PredictWorker.mkTurn (Some Sample.settings) (FileData None) Sample.a;
                PredictWorker.mkTurn None (FileData None) Sample.c;
                PredictWorker.mkTurn (Some Sample.resized) (FileData None) Sample.b]
               Sample.flaky)) /\
  HttpHelper.calls [Sample.resized; Sample.settings; Sample.resized]
    (snd (HttpHelper._ensure_client_and_models Sample.settings Sample.healthy)) =
    snd (HttpHelper._ensure_client_and_models Sample.settings Sample.healthy).
Proof.
  split.
  - apply (proj1 model_selection_is_memoized (signature_of Sample.settings)).
    apply Forall_cons; [intros cfg H; injection H as <-; reflexivity | ].
    apply Forall_cons; [intros cfg H; discriminate H | ].
    apply Forall_cons; [intros cfg H; injection H as <-; reflexivity | ].
    apply Forall_nil.
  - apply (proj2 model_selection_is_memoized Sample.settings Sample.healthy).
    + reflexivity.
    + apply Forall_cons; [reflexivity | ].
      apply Forall_cons; [reflexivity | ].
      apply Forall_cons; [reflexivity | apply Forall_nil].
Defined.

(** The predict worker against the same server: the failed selection costs
    the client, and the next turn starts on a new one. *)
Example worker_recreates_client_after_failure :
  let evs := events (PredictWorker.inferences
                       [PredictWorker.mkTurn (Some Sample.settings) (FileData None) Sample.a;
                        PredictWorker.mkTurn (Some Sample.settings) (FileData None) Sample.b]
                       Sample.flaky) in
  count_new_clients evs = 2 /\ count_posts sovits_api evs = 1 /\
  selection_once evs = true.
Proof. repeat split. Qed.

(** * Further properties of the code *)

Unset Implicit Arguments.

(** ** Queues: order, conservation, occupancy *)

Module QueueRuns.

Lemma fits_le (v : PyVal) (n m : nat) : fits v n -> m <= n -> fits v m.
Proof.
  unfold fits. destruct (effective_cap v); [lia | trivial].
Qed.

Lemma push_fits (q : PredictQueue.t) (task : TtsTask) (n : nat) :
  fits (PredictQueue.max_size q) (List.length (PredictQueue.high q)
                                  + List.length (PredictQueue.normal q) + S n) ->
  PredictQueue.push task q = PredictQueue.mkPush true [] (PredictQueue.append task q).
Proof.
  unfold fits, PredictQueue.push, PredictQueue.is_full, PredictQueue.size.
  destruct (effective_cap (PredictQueue.max_size q)) as [c | ]; [ | reflexivity].
  cbn beta iota. intros Hfit. destruct (Z.leb_spec c (Z.of_nat (List.length (PredictQueue.high q)
                                             + List.length (PredictQueue.normal q))));
    [exfalso; lia | reflexivity].
Qed.

(** Pushes that fit are all admitted and land at the tail of their level. *)
Lemma pushes_fit (tasks : list TtsTask) :
  forall q,
    fits (PredictQueue.max_size q)
         (List.length (PredictQueue.high q) + List.length (PredictQueue.normal q)
          + List.length tasks) ->
    PredictQueue.run (predict_pushes tasks) q =
      (map (fun _ => ObsPush true []) tasks,
       PredictQueue.mk (PredictQueue.max_size q)
                       (PredictQueue.high q ++ filter is_high tasks)
                       (PredictQueue.normal q ++ filter is_normal tasks)
                       (PredictQueue.on_evict q)).
Proof.
  induction tasks as [ | x tasks IH]; intros q Hfit.
  - simpl. rewrite !app_nil_r. now destruct q.
  - cbn [predict_pushes map PredictQueue.run PredictQueue.step].
    simpl List.length in Hfit.
    rewrite (push_fits q x (List.length tasks)) by exact Hfit.
    cbn [PredictQueue.accepted PredictQueue.emitted PredictQueue.after].
    fold (predict_pushes tasks).
    rewrite IH.
    + unfold PredictQueue.append, is_high, is_normal.
      destruct (priority x) eqn:Hp; cbn [filter map]; rewrite Hp; cbn;
        rewrite <- ?app_assoc; reflexivity.
    + unfold PredictQueue.append.
      destruct (priority x); cbn;
        (eapply fits_le; [exact Hfit | rewrite ?length_app; cbn; lia]).
Qed.

End QueueRuns.

(** X1. Tasks pushed onto an empty predict queue that has room for all of
    them are all admitted, and popping then returns the HIGH tasks in push
    order followed by the NORMAL tasks in push order. *)
Theorem pops_are_a_stable_partition_of_pushes
        (v : PyVal) (cb : option EvictCallback) (tasks : list TtsTask) :
  fits v (List.length tasks) ->
  fst (PredictQueue.run (predict_pushes tasks) (PredictQueue.empty v cb)) =
    map (fun _ => ObsPush true []) tasks /\
  PredictQueue.drain (List.length tasks)
    (snd (PredictQueue.run (predict_pushes tasks) (PredictQueue.empty v cb))) =
    filter is_high tasks ++ filter is_normal tasks.
Proof.
  intros Hfit.
  rewrite (QueueRuns.pushes_fit tasks (PredictQueue.empty v cb)) by exact Hfit.
  cbn [fst snd PredictQueue.empty PredictQueue.high PredictQueue.normal app
       PredictQueue.max_size PredictQueue.on_evict].
  split; [reflexivity | ].
  assert (Hlen : List.length tasks =
                 List.length (filter is_high tasks) + List.length (filter is_normal tasks)).
  { clear. induction tasks as [ | x tasks IH]; [reflexivity | ].
    unfold is_high, is_normal in *. cbn [filter].
    destruct (priority x); cbn; lia. }
  rewrite Hlen. apply PopOrder.drain_all.
Qed.

Lemma pops_are_a_stable_partition_of_pushes_witness :
  fits (PyInt 4) 4 /\
  PredictQueue.drain 4
    (snd (PredictQueue.run (predict_pushes [Sample.a; Sample.h; Sample.b; Sample.g])
            (PredictQueue.empty (PyInt 4) Sample.cancelled_cb))) =
  [Sample.h; Sample.g; Sample.a; Sample.b].
Proof.
  assert (F : fits (PyInt 4) 4) by (vm_compute; discriminate).
  split; [exact F | ].
  exact (proj2 (pops_are_a_stable_partition_of_pushes (PyInt 4) Sample.cancelled_cb
                  [Sample.a; Sample.h; Sample.b; Sample.g] F)).
Defined.

Module AudioWindow.

Lemma full_iff (n : nat) (q0 : list (AudioSegment * TtsTask)) (cb : option EvictCallback) :
  0 < n ->
  AudioQueue.is_full (AudioQueue.mk (PyInt (Z.of_nat n)) q0 cb) = (n <=? List.length q0).
Proof.
  intros Hn. unfold AudioQueue.is_full. cbn [AudioQueue.max_size].
  rewrite effective_cap_int by lia. unfold AudioQueue.size. cbn [AudioQueue.q].
  destruct (Nat.leb_spec n (List.length q0)).
  - apply Z.leb_le. lia.
  - apply Z.leb_gt. lia.
Qed.

Lemma emitted_cons (b : bool) (ev : list StatusEvent) (obs : list Obs) :
  emitted_of (ObsPush b ev :: obs) = ev ++ emitted_of obs.
Proof. reflexivity. Qed.

(** A run of pushes keeps the newest [n] items and reports the others. *)
Lemma window (n : nat) (cb : option EvictCallback) (items : list (AudioSegment * TtsTask)) :
  0 < n ->
  forall q0,
    List.length q0 <= n ->
    let r := AudioQueue.run (audio_pushes items) (AudioQueue.mk (PyInt (Z.of_nat n)) q0 cb) in
    let all := q0 ++ items in
    snd r = AudioQueue.mk (PyInt (Z.of_nat n)) (skipn (List.length all - n) all) cb /\
    emitted_of (fst r) =
      flat_map (fun x => notify cb (Some (snd x))) (firstn (List.length all - n) all).
Proof.
  intros Hn. induction items as [ | x items IH]; intros q0 Hlen; cbn zeta.
  - rewrite app_nil_r. replace (List.length q0 - n) with 0 by lia.
    cbn. split; reflexivity.
  - destruct x as [xa xt].
    cbn [audio_pushes map AudioQueue.run AudioQueue.step fst snd].
    fold (audio_pushes items).
    unfold AudioQueue.push. rewrite full_iff by exact Hn.
    cbn [AudioQueue.q AudioQueue.max_size AudioQueue.on_evict fst snd].
    destruct (Nat.leb_spec n (List.length q0)) as [Hfull | Hroom].
    + destruct q0 as [ | old rest]; [cbn in Hfull; lia | ].
      cbn [List.length] in Hlen, Hfull.
      specialize (IH (rest ++ [(xa, xt)])).
      rewrite length_app in IH. cbn [List.length] in IH.
      specialize (IH ltac:(lia)). cbn zeta in IH.
      rewrite <- app_assoc in IH. cbn [app] in IH.
      destruct (AudioQueue.run (audio_pushes items)
                  (AudioQueue.mk (PyInt (Z.of_nat n)) (rest ++ [(xa, xt)]) cb)) as [obs a2].
      cbn [fst snd] in *. destruct IH as [IHq IHe].
      cbn [app List.length].
      assert (Hk : S (List.length (rest ++ (xa, xt) :: items)) - n
                   = S (List.length (rest ++ (xa, xt) :: items) - n))
        by (rewrite length_app; cbn [List.length]; lia).
      rewrite Hk, emitted_cons, IHe. cbn [skipn firstn flat_map].
      split; [exact IHq | reflexivity].
    + specialize (IH (q0 ++ [(xa, xt)])).
      rewrite length_app in IH. cbn [List.length] in IH.
      specialize (IH ltac:(lia)). cbn zeta in IH.
      rewrite <- app_assoc in IH. cbn [app] in IH.
      destruct (AudioQueue.run (audio_pushes items)
                  (AudioQueue.mk (PyInt (Z.of_nat n)) (q0 ++ [(xa, xt)]) cb)) as [obs a2].
      cbn [fst snd] in *. destruct IH as [IHq IHe].
      rewrite emitted_cons. cbn [app].
      split; [exact IHq | exact IHe].
Qed.

End AudioWindow.

(** X2. The playback queue is a sliding window: after any sequence of pushes
    onto an empty queue of capacity [n], it holds the newest [n] items in
    arrival order, and the eviction callback was called for exactly the
    older ones, once each, oldest first. *)
Theorem playback_queue_keeps_newest
        (n : nat) (cb : option EvictCallback) (items : list (AudioSegment * TtsTask)) :
  0 < n ->
  let r := AudioQueue.run (audio_pushes items)
             (AudioQueue.empty (PyInt (Z.of_nat n)) cb) in
  AudioQueue.q (snd r) = skipn (List.length items - n) items /\
  emitted_of (fst r) =
    flat_map (fun x => notify cb (Some (snd x))) (firstn (List.length items - n) items).
Proof.
  intros Hn r. subst r.
  destruct (AudioWindow.window n cb items Hn [] ltac:(cbn; lia)) as [Hq He].
  cbn [app] in Hq, He. unfold AudioQueue.empty. rewrite Hq. split; [reflexivity | exact He].
Qed.

Lemma playback_queue_keeps_newest_witness :
  0 < 2 /\
  AudioQueue.q
    (snd (AudioQueue.run
            (audio_pushes [(Sample.silence, Sample.a); (Sample.silence, Sample.h);
                           (Sample.silence, Sample.b)])
            (AudioQueue.empty (PyInt 2) Sample.cancelled_cb))) =
  [(Sample.silence, Sample.h); (Sample.silence, Sample.b)].
Proof.
  split; [lia | ].
  exact (proj1 (playback_queue_keeps_newest 2 Sample.cancelled_cb
                  [(Sample.silence, Sample.a); (Sample.silence, Sample.h);
                   (Sample.silence, Sample.b)] ltac:(lia))).
Defined.

Module Conservation.

Lemma full_nonempty (q : PredictQueue.t) :
  PredictQueue.is_full q = true -> 0 < nsize q.
Proof.
  unfold PredictQueue.is_full, PredictQueue.size, nsize.
  destruct (effective_cap (PredictQueue.max_size q)) as [c | ] eqn:Hc; [ | discriminate].
  apply effective_cap_pos in Hc. intros H. apply Z.leb_le in H. lia.
Qed.

Lemma counts_cons (ob : Obs) (obs : list Obs) :
  accepted_count (ob :: obs) = accepted_count [ob] + accepted_count obs /\
  popped_count (ob :: obs) = popped_count [ob] + popped_count obs /\
  emitted_of (ob :: obs) = emitted_of [ob] ++ emitted_of obs.
Proof.
  unfold accepted_count, popped_count, emitted_of. cbn [filter flat_map].
  rewrite app_nil_r.
  destruct ob as [[ | ] ev | [x | ]]; cbn; repeat split; reflexivity.
Qed.

Lemma step_conserves (o : PredictQueue.Op) (q : PredictQueue.t) :
  PredictQueue.on_evict q = Some TTSService.on_evict_cancelled ->
  let ob := fst (PredictQueue.step o q) in
  let q' := snd (PredictQueue.step o q) in
  PredictQueue.on_evict q' = Some TTSService.on_evict_cancelled /\
  accepted_count [ob] + nsize q =
    nsize q' + popped_count [ob] + List.length (emitted_of [ob]) /\
  Forall (fun e => ev_status e = cancelled) (emitted_of [ob]).
Proof.
  intros Hcb. destruct o as [task | ]; cbn zeta.
  - cbn [PredictQueue.step fst snd]. unfold PredictQueue.push.
    destruct (PredictQueue.is_full q) eqn:Hf.
    + apply full_nonempty in Hf.
      destruct (priority task) eqn:Hp.
      * unfold PredictQueue.evict, nsize in *.
        destruct (PredictQueue.normal q) as [ | v rest] eqn:Hn.
        -- destruct (PredictQueue.high q) as [ | v rest] eqn:Hh; [cbn in Hf; lia | ].
           unfold PredictQueue.append. rewrite Hp, Hcb. cbn.
           rewrite length_app. cbn. (repeat split; first [assumption | lia | repeat constructor]).
        -- unfold PredictQueue.append. rewrite Hp, Hcb. cbn.
           rewrite length_app. cbn. (repeat split; first [assumption | lia | repeat constructor]).
      * cbn. (repeat split; first [assumption | lia | repeat constructor]).
    + unfold PredictQueue.append, nsize.
      destruct (priority task); cbn; rewrite length_app; cbn;
        (repeat split; first [assumption | lia | repeat constructor]).
  - cbn [PredictQueue.step]. unfold PredictQueue.pop, nsize.
    destruct (PredictQueue.high q) as [ | h hs] eqn:Hh.
    + destruct (PredictQueue.normal q) as [ | m ms] eqn:Hn; cbn.
      * rewrite Hh, Hn. (repeat split; first [assumption | lia | repeat constructor]).
      * (repeat split; first [assumption | lia | repeat constructor]).
    + cbn. (repeat split; first [assumption | lia | repeat constructor]).
Qed.

Lemma run_conserves (ops : list PredictQueue.Op) :
  forall q,
    PredictQueue.on_evict q = Some TTSService.on_evict_cancelled ->
    let obs := fst (PredictQueue.run ops q) in
    let q' := snd (PredictQueue.run ops q) in
    accepted_count obs + nsize q =
      nsize q' + popped_count obs + List.length (emitted_of obs) /\
    Forall (fun e => ev_status e = cancelled) (emitted_of obs).
Proof.
  induction ops as [ | o ops IH]; intros q Hcb; cbn zeta.
  - cbn. split; [lia | constructor].
  - cbn [PredictQueue.run].
    destruct (step_conserves o q Hcb) as (Hcb1 & Hcount & Hall). cbn zeta in *.
    destruct (PredictQueue.step o q) as [ob q1]. cbn [fst snd] in *.
    specialize (IH q1 Hcb1). cbn zeta in IH.
    destruct (PredictQueue.run ops q1) as [obs q2]. cbn [fst snd] in *.
    destruct IH as [IHcount IHall].
    destruct (counts_cons ob obs) as (-> & -> & ->).
    rewrite length_app. split; [lia | now apply Forall_app].
Qed.

End Conservation.

(** X3. No admitted task is dropped without notice: over any run of pushes
    and pops on a predict queue built as the service builds it, whatever the
    capacity value, the number of admitted pushes equals the number of tasks
    still queued plus the number popped plus the number of [cancelled]
    events the eviction callback emitted, and the callback emits nothing but
    [cancelled]. *)
Theorem admitted_tasks_are_queued_popped_or_cancelled
        (v : PyVal) (ops : list PredictQueue.Op) :
  let r := PredictQueue.run ops
             (PredictQueue.empty v (Some TTSService.on_evict_cancelled)) in
  accepted_count (fst r) =
    List.length (PredictQueue.high (snd r)) + List.length (PredictQueue.normal (snd r))
    + popped_count (fst r) + List.length (emitted_of (fst r)) /\
  Forall (fun e => ev_status e = cancelled) (emitted_of (fst r)).
Proof.
  cbn zeta.
  destruct (Conservation.run_conserves ops
              (PredictQueue.empty v (Some TTSService.on_evict_cancelled)) eq_refl)
    as [Hcount Hall].
  cbn zeta in Hcount. unfold nsize in Hcount. cbn in Hcount.
  split; [lia | exact Hall].
Qed.

Module Reachable.

Lemma pop_wf (q q' : PredictQueue.t) (x : TtsTask) :
  PredictQueue.wf q -> PredictQueue.pop q = Some (x, q') -> PredictQueue.wf q'.
Proof.
  intros [Hh Hn]. unfold PredictQueue.pop, PredictQueue.wf.
  destruct (PredictQueue.high q) as [ | h hs] eqn:Eh.
  - destruct (PredictQueue.normal q) as [ | m ms] eqn:En; [discriminate | ].
    intros H; injection H as _ <-. cbn. split; [constructor | now inversion Hn].
  - intros H; injection H as _ <-. cbn. split; [now inversion Hh | assumption].
Qed.

Lemma step_wf (o : PredictQueue.Op) (q : PredictQueue.t) :
  PredictQueue.wf q -> PredictQueue.wf (snd (PredictQueue.step o q)).
Proof.
  intros Hw. destruct o as [task | ]; cbn [PredictQueue.step].
  - cbn [snd]. now apply PopOrder.push_wf.
  - destruct (PredictQueue.pop q) as [[x q'] | ] eqn:Hp; cbn [snd]; [ | exact Hw].
    exact (pop_wf q q' x Hw Hp).
Qed.

Lemma run_wf (ops : list PredictQueue.Op) :
  forall q, PredictQueue.wf q -> PredictQueue.wf (snd (PredictQueue.run ops q)).
Proof.
  induction ops as [ | o ops IH]; intros q Hw; [exact Hw | ].
  cbn [PredictQueue.run].
  pose proof (step_wf o q Hw) as H1.
  destruct (PredictQueue.step o q) as [ob q1]. cbn [snd] in H1.
  specialize (IH q1 H1).
  destruct (PredictQueue.run ops q1) as [obs q2]. exact IH.
Qed.

End Reachable.

(** X4. The predict queue keeps every task in the deque of its priority:
    after any pushes and pops from the empty queue, whatever the capacity
    value, the HIGH deque holds tasks of priority HIGH only and the NORMAL
    deque tasks of priority NORMAL only, so that popping the queue empty
    returns no NORMAL task before a HIGH one. *)
Theorem reachable_queue_is_sorted_by_priority
        (v : PyVal) (cb : option EvictCallback) (ops : list PredictQueue.Op) :
  let q := snd (PredictQueue.run ops (PredictQueue.empty v cb)) in
  Forall (fun x => priority x = HIGH) (PredictQueue.high q) /\
  Forall (fun x => priority x = NORMAL) (PredictQueue.normal q) /\
  exists hs ns,
    PredictQueue.drain (nsize q) q = hs ++ ns /\
    Forall (fun x => priority x = HIGH) hs /\
    Forall (fun x => priority x = NORMAL) ns.
Proof.
  cbn zeta.
  assert (Hw : PredictQueue.wf (snd (PredictQueue.run ops (PredictQueue.empty v cb))))
    by (apply Reachable.run_wf; split; constructor).
  destruct Hw as [Hh Hn]. split; [exact Hh | split; [exact Hn | ]].
  exists (PredictQueue.high (snd (PredictQueue.run ops (PredictQueue.empty v cb)))),
         (PredictQueue.normal (snd (PredictQueue.run ops (PredictQueue.empty v cb)))).
  split; [ | split; assumption].
  destruct (snd (PredictQueue.run ops (PredictQueue.empty v cb))) as [m h n c].
  apply PopOrder.drain_all.
Qed.

(** X5. A push on a full queue never changes the number of queued items,
    also when that number is above the capacity (the capacity was lowered
    after the items were queued): the predict queue rejects a NORMAL task and
    trades one victim for a HIGH task, the playback queue trades its oldest
    item for the new one.  A lowered capacity evicts nothing by itself. *)
Theorem push_on_full_queue_keeps_occupancy (c : Z) :
  (forall q task,
     effective_cap (PredictQueue.max_size q) = Some c ->
     (c <= PredictQueue.size q)%Z ->
     PredictQueue.size (PredictQueue.after (PredictQueue.push task q)) = PredictQueue.size q) /\
  (forall a audio task,
     effective_cap (AudioQueue.max_size a) = Some c ->
     (c <= AudioQueue.size a)%Z ->
     AudioQueue.size (snd (AudioQueue.push audio task a)) = AudioQueue.size a) /\
  (forall q v, PredictQueue.high (PredictQueue.set_max_size v q) = PredictQueue.high q /\
               PredictQueue.normal (PredictQueue.set_max_size v q) = PredictQueue.normal q).
Proof.
  split; [ | split].
  - intros q task Hc Hs.
    pose proof (effective_cap_pos _ Hc) as Hpos.
    unfold PredictQueue.push. rewrite (PredictQueueFacts.is_full_true q Hc Hs).
    destruct (priority task); [ | reflexivity].
    pose proof (PredictQueueFacts.evict_spec q) as [_ He].
    destruct (PredictQueue.evict q) as [ev q1]. cbn [snd PredictQueue.after] in *.
    rewrite PredictQueueFacts.size_append, He; lia.
  - intros a audio task Hc Hs.
    pose proof (effective_cap_pos _ Hc) as Hpos.
    unfold AudioQueue.push, AudioQueue.is_full. rewrite Hc.
    destruct (Z.leb_spec c (AudioQueue.size a)); [ | lia].
    unfold AudioQueue.size in *.
    destruct (AudioQueue.q a) as [ | old rest]; cbn in *; [lia | ].
    rewrite length_app. cbn. lia.
  - intros q v. split; reflexivity.
Qed.

Lemma push_on_full_queue_keeps_occupancy_witness :
  PredictQueue.size
    (PredictQueue.after
       (PredictQueue.push Sample.g (PredictQueue.set_max_size (PyInt 1) Sample.mixed_q))) =
  PredictQueue.size (PredictQueue.set_max_size (PyInt 1) Sample.mixed_q).
Proof.
  apply (proj1 (push_on_full_queue_keeps_occupancy 1));
    [reflexivity | vm_compute; discriminate].
Defined.

(** ** The facade: admission, status events, replacement rules *)

Module Admission.

Lemma accepted_iff (task : TtsTask) (q : PredictQueue.t) :
  PredictQueue.accepted (PredictQueue.push task q) = true <->
  priority task = HIGH \/ PredictQueue.is_full q = false.
Proof.
  unfold PredictQueue.push.
  destruct (PredictQueue.is_full q); [ | cbn; split; auto].
  destruct (priority task); cbn.
  - destruct (PredictQueue.evict q). cbn. split; auto.
  - split; [discriminate | intros [H | H]; discriminate].
Qed.

Lemma configured_full (c : Settings) (q : PredictQueue.t) :
  PredictQueue.is_full (PredictQueue.set_max_size (configured_cap c) q) = false <->
  (max_tts_queue_size c <= 0)%Z \/ (PredictQueue.size q < max_tts_queue_size c)%Z.
Proof.
  unfold PredictQueue.is_full, configured_cap, effective_cap.
  change (PredictQueue.size (PredictQueue.set_max_size _ q)) with (PredictQueue.size q).
  destruct (Z.eqb_spec (max_tts_queue_size c) 0) as [Hz | Hz]; cbn.
  - split; [intros _; left; lia | reflexivity].
  - destruct (Z.ltb_spec 0 (max_tts_queue_size c)) as [Hpos | Hneg]; cbn.
    + rewrite Z.leb_gt. split; [auto | intros [H | H]; [lia | exact H]].
    + split; [intros _; left; exact Hneg | reflexivity].
Qed.

Lemma enabled_result
      (re_escape : string -> string)
      (re_sub : string -> string -> string -> bool -> SubResult)
      (s : TTSService.t) (c : Settings) (txt : string) (prio : Priority)
      (k : option string) (room : option Z) :
  TTSService.cfg s = Some c -> tts_enabled c = true ->
  fst (TTSService.enqueue_text re_escape re_sub txt prio k room s) =
  PredictQueue.accepted
    (PredictQueue.push
       (mkTask (TTSService.apply_rules re_escape re_sub (replacement_rules c) txt)
               prio k room)
       (PredictQueue.set_max_size (configured_cap c) (TTSService.predict_q s))).
Proof.
  intros Hc Hen. unfold TTSService.enqueue_text. rewrite Hc, Hen. cbn [negb].
  destruct (PredictQueue.accepted _); [reflexivity | now destruct k].
Qed.

End Admission.

(** X6. [enqueue_text] returns [True] exactly when the service has settings
    with [tts_enabled] and the task is HIGH, or [max_tts_queue_size] is zero
    or negative, or fewer than [max_tts_queue_size] tasks are queued for
    inference: a HIGH task is never turned down, a NORMAL one only by a full
    queue. *)
Theorem enqueue_text_accepts_iff
        (re_escape : string -> string)
        (re_sub : string -> string -> string -> bool -> SubResult)
        (s : TTSService.t) (txt : string) (prio : Priority)
        (k : option string) (room : option Z) :
  fst (TTSService.enqueue_text re_escape re_sub txt prio k room s) = true <->
  exists c,
    TTSService.cfg s = Some c /\ tts_enabled c = true /\
    (prio = HIGH \/ (max_tts_queue_size c <= 0)%Z \/
     (PredictQueue.size (TTSService.predict_q s) < max_tts_queue_size c)%Z).
Proof.
  destruct (TTSService.cfg s) as [c | ] eqn:Hc.
  - destruct (tts_enabled c) eqn:Hen.
    + rewrite (Admission.enabled_result re_escape re_sub s c txt prio k room Hc Hen).
      rewrite Admission.accepted_iff, Admission.configured_full. cbn [priority].
      split.
      * intros H. exists c. repeat split; assumption.
      * intros (c' & Hc' & _ & H). injection Hc' as <-. exact H.
    + unfold TTSService.enqueue_text. rewrite Hc, Hen. cbn.
      split; [discriminate | intros (c' & Hc' & Hen' & _); congruence].
  - unfold TTSService.enqueue_text. rewrite Hc. cbn.
    split; [discriminate | intros (c' & Hc' & _); discriminate].
Qed.

Module PushShape.

Lemma push_shape (task : TtsTask) (q : PredictQueue.t) :
  PredictQueue.on_evict q = Some TTSService.on_evict_cancelled ->
  let r := PredictQueue.push task q in
  PredictQueue.on_evict (PredictQueue.after r) = Some TTSService.on_evict_cancelled /\
  PredictQueue.max_size (PredictQueue.after r) = PredictQueue.max_size q /\
  if PredictQueue.accepted r
  then (PredictQueue.emitted r = [] /\ nsize (PredictQueue.after r) = S (nsize q)) \/
       exists victim,
         (hd_error (PredictQueue.normal q) = Some victim \/
          PredictQueue.normal q = [] /\ hd_error (PredictQueue.high q) = Some victim) /\
         PredictQueue.emitted r = [mkEvent (room_id victim) (key victim) cancelled] /\
         nsize (PredictQueue.after r) = nsize q
  else PredictQueue.emitted r = [] /\
       PredictQueue.high (PredictQueue.after r) = PredictQueue.high q /\
       PredictQueue.normal (PredictQueue.after r) = PredictQueue.normal q.
Proof.
  intros Hcb. cbn zeta. unfold PredictQueue.push, nsize.
  destruct (PredictQueue.is_full q) eqn:Hf.
  - destruct (priority task) eqn:Hp; [ | cbn; auto].
    unfold PredictQueue.evict, PredictQueue.append. rewrite Hp, Hcb.
    destruct (PredictQueue.normal q) as [ | v rest] eqn:Hn.
    + destruct (PredictQueue.high q) as [ | v rest] eqn:Hh; cbn.
      * rewrite Hh, Hn. cbn. auto.
      * repeat split. right. exists v. rewrite length_app. cbn.
        split; [right; auto | split; [reflexivity | lia]].
    + cbn. repeat split. right. exists v. rewrite length_app. cbn.
      split; [left; reflexivity | split; [reflexivity | lia]].
  - unfold PredictQueue.append. destruct (priority task); cbn;
      rewrite length_app; cbn;
      (split; [assumption | split; [reflexivity | left; split; [reflexivity | lia]]]).
Qed.

End PushShape.

(** X7. The status events of one [enqueue_text] call, on a service whose
    predict queue has the callback the service installs.  An admitted call
    emits [pending] for the new task last; either nothing comes before it
    and the queue has one task more, or one [cancelled] comes before it, for
    the task at the head of the NORMAL deque or, when that deque is empty, at
    the head of the HIGH deque, and the queue has as many tasks as before.
    A call that returns [False] leaves the queued tasks as they were and
    emits one [cancelled] for the new task when the service is enabled and
    the key is not [None], and nothing otherwise.  No call emits [playing]
    or [done], touches the items of the playback queue or the render log; an
    enabled call stores the configured capacity in both queues. *)
Theorem enqueue_text_status_events
        (re_escape : string -> string)
        (re_sub : string -> string -> string -> bool -> SubResult)
        (s : TTSService.t) (txt : string) (prio : Priority)
        (k : option string) (room : option Z) :
  PredictQueue.on_evict (TTSService.predict_q s) = Some TTSService.on_evict_cancelled ->
  let r := TTSService.enqueue_text re_escape re_sub txt prio k room s in
  let q := TTSService.predict_q s in
  let q' := TTSService.predict_q (snd r) in
  (exists evs,
     TTSService.status_log (snd r) = TTSService.status_log s ++ evs /\
     if fst r
     then (evs = [mkEvent room k pending] /\ nsize q' = S (nsize q)) \/
          exists victim,
            (hd_error (PredictQueue.normal q) = Some victim \/
             PredictQueue.normal q = [] /\ hd_error (PredictQueue.high q) = Some victim) /\
            evs = [mkEvent (room_id victim) (key victim) cancelled;
                   mkEvent room k pending] /\
            nsize q' = nsize q
     else evs = (if enabled s
                 then match k with
                      | Some _ => [mkEvent room k cancelled]
                      | None => []
                      end
                 else []) /\
          PredictQueue.high q' = PredictQueue.high q /\
          PredictQueue.normal q' = PredictQueue.normal q) /\
  TTSService.rendered (snd r) = TTSService.rendered s /\
  AudioQueue.q (TTSService.audio_q (snd r)) = AudioQueue.q (TTSService.audio_q s) /\
  PredictQueue.on_evict (TTSService.predict_q (snd r)) =
    Some TTSService.on_evict_cancelled /\
  (forall c, TTSService.cfg s = Some c -> tts_enabled c = true ->
     PredictQueue.max_size (TTSService.predict_q (snd r)) = configured_cap c /\
     AudioQueue.max_size (TTSService.audio_q (snd r)) = configured_cap c).
Proof.
  intros Hcb r q q'. subst r q q'. unfold TTSService.enqueue_text, enabled.
  destruct (TTSService.cfg s) as [c0 | ] eqn:Hc.
  2:{ cbn. split; [exists []; rewrite app_nil_r; auto | ].
      repeat split; try assumption; discriminate. }
  destruct (tts_enabled c0) eqn:Hen; cbn [negb].
  2:{ cbn. split; [exists []; rewrite app_nil_r; auto | ].
      repeat split; try assumption; congruence. }
  match goal with |- context [PredictQueue.push ?t ?q] =>
    destruct (PushShape.push_shape t q Hcb) as (Hcb' & Hmax & Hshape);
    destruct (PredictQueue.push t q) as [acc em aft]
  end.
  change (nsize (PredictQueue.set_max_size (configured_cap c0) (TTSService.predict_q s)))
    with (nsize (TTSService.predict_q s)) in Hshape.
  cbn [PredictQueue.accepted PredictQueue.emitted PredictQueue.after
       PredictQueue.set_max_size PredictQueue.high PredictQueue.normal] in *.
  destruct acc.
  - cbn [fst snd]. unfold TTSService._emit_status.
    rewrite !TraceFacts.status_log_emit_all, !TraceFacts.rendered_emit_all.
    cbn [TTSService.predict_q TTSService.audio_q TTSService.emit_all TTSService.log
         AudioQueue.set_max_size AudioQueue.q AudioQueue.max_size].
    split.
    + eexists. split; [rewrite <- app_assoc; reflexivity | ].
      destruct Hshape as [[-> Hn] | (v & Hv & -> & Hn)].
      * left. split; [reflexivity | exact Hn].
      * right. exists v. split; [exact Hv | split; [reflexivity | exact Hn]].
    + split; [reflexivity | split; [reflexivity | split; [assumption | ]]].
      intros c1 H1 _. injection H1 as <-. split; [exact Hmax | reflexivity].
  - destruct Hshape as (-> & Hh & Hn).
    destruct k as [k | ]; cbn [fst snd]; unfold TTSService._emit_status;
      rewrite ?TraceFacts.status_log_emit_all, ?TraceFacts.rendered_emit_all;
      cbn [TTSService.predict_q TTSService.audio_q TTSService.emit_all TTSService.log
           AudioQueue.set_max_size AudioQueue.q AudioQueue.max_size].
    + split; [eexists; split; [rewrite <- app_assoc; reflexivity | ] | ].
      * split; [reflexivity | split; assumption].
      * split; [reflexivity | split; [reflexivity | split; [assumption | ]]].
        intros c1 H1 _. injection H1 as <-. split; [exact Hmax | reflexivity].
    + split; [exists []; split; [rewrite !app_nil_r; reflexivity | ] | ].
      * split; [reflexivity | split; assumption].
      * split; [reflexivity | split; [reflexivity | split; [assumption | ]]].
        intros c1 H1 _. injection H1 as <-. split; [exact Hmax | reflexivity].
Qed.

Lemma enqueue_text_status_events_witness :
  exists evs,
    TTSService.status_log
      (snd (TTSService.enqueue_text Sample.re_escape Sample.re_sub "h" HIGH
              (Some "key-h"%string) (Some 7%Z) Sample.busy)) =
    TTSService.status_log Sample.busy ++ evs /\
    evs = [mkEvent (Some 7%Z) (Some "key-a"%string) cancelled;
           mkEvent (Some 7%Z) (Some "key-h"%string) pending].
Proof.
  destruct (enqueue_text_status_events Sample.re_escape Sample.re_sub Sample.busy
              "h" HIGH (Some "key-h"%string) (Some 7%Z) eq_refl)
    as ((evs & Hlog & Hcase) & _).
  exists evs. split; [exact Hlog | ].
  cbn in Hcase. destruct Hcase as [[_ Hn] | (victim & Hv & -> & _)].
  - vm_compute in Hn. discriminate Hn.
  - destruct Hv as [Hv | [Hv _]]; [ | vm_compute in Hv; discriminate Hv].
    vm_compute in Hv. injection Hv as <-. reflexivity.
Defined.

Module Rules.
Import TTSService.

Section Loop.

Variable re_escape : string -> string.
Variable re_sub : string -> string -> string -> bool -> SubResult.




End Loop.

End Rules.



(** ** The play worker and the playback queue *)

(** X9. The play worker takes the playback queue from the front: after a
    run of [n] turns the queue holds the items behind the first [n], and the
    worker has changed neither the settings nor the predict queue nor the
    capacity or callback of the playback queue. *)
Theorem play_worker_consumes_in_order
        (envs : list RenderEnv) (s : TTSService.t) :
  let s' := TTSService._play_worker envs s in
  AudioQueue.q (TTSService.audio_q s') =
    skipn (List.length envs) (AudioQueue.q (TTSService.audio_q s)) /\
  AudioQueue.max_size (TTSService.audio_q s') = AudioQueue.max_size (TTSService.audio_q s) /\
  AudioQueue.on_evict (TTSService.audio_q s') = AudioQueue.on_evict (TTSService.audio_q s) /\
  TTSService.predict_q s' = TTSService.predict_q s /\
  TTSService.cfg s' = TTSService.cfg s.
Proof.
  cbn zeta. revert s.
  induction envs as [ | env envs IH]; intros s; [cbn; auto | ].
  cbn [TTSService._play_worker List.length].
  destruct (AudioQueue.q (TTSService.audio_q s)) as [ | [audio task] rest] eqn:Hq.
  - rewrite (PlayWorkerFacts.play_once_waits env s Hq). cbn. auto.
  - destruct (PlayWorkerFacts.play_once_spec env s Hq)
      as (s' & Hstep & Hq' & Hmax & Hcb & Hpq & Hcfg & _).
    rewrite Hstep. destruct (IH s') as (H1 & H2 & H3 & H4 & H5).
    rewrite H1, H2, H3, H4, H5, Hq', Hmax, Hcb, Hpq, Hcfg. cbn. auto.
Qed.

(** ** The Gradio client *)

(** X10. [ensure] is idempotent: once it has returned, calling it again
    returns at once, sends nothing and changes nothing. *)
Theorem ensure_is_idempotent (s s1 : St) :
  GradioClient.ensure s = (Returned tt, s1) ->
  GradioClient.ensure s1 = (Returned tt, s1).
Proof.
  intros H. apply ClientFacts.ensure_connected.
  exact (@ClientFacts.ensure_returns s s1 H).
Qed.

Lemma ensure_is_idempotent_witness :
  GradioClient.ensure (snd (GradioClient.ensure Fixture.fresh)) =
    (Returned tt, snd (GradioClient.ensure Fixture.fresh)).
Proof.
  apply (ensure_is_idempotent Fixture.fresh). reflexivity.
Defined.

Module Sticky.

(** Where [_load_config] raises: the client is the one it began with, but
    for the bindings of the records the loop read before it raised. *)
Lemma load_config_raises (s s1 : St) (c : GradioClient) (msg : string) :
  client s = Some c ->
  GradioClient._load_config s = (Raised msg, s1) ->
  exists m1,
    client s1 = Some (mkClient (base_url c) (session c) m1) /\
    match next_descriptor s with
    | Some entries =>
        exists read tail,
          entries = map Readable read ++ Unreadable msg :: tail /\
          m1 = GradioClient.add_deps 0 read (fn_map c)
    | None => m1 = fn_map c
    end.
Proof.
  intros Hc. unfold GradioClient._load_config, bind, GradioClient.self, bind, get_client.
  rewrite Hc. cbn [ret]. unfold http, next_descriptor.
  assert (Heta : Some c = Some (mkClient (base_url c) (session c) (fn_map c)))
    by now destruct c.
  destruct (replies s) as [ | [m | st txt j] rest]; cbn.
  - intros H; inversion H; subst. exists (fn_map c). cbn. rewrite Hc. now split.
  - intros H; inversion H; subst. exists (fn_map c). cbn. rewrite Hc. now split.
  - destruct j as [entries | e d | ps | ]; destruct (400 <=? st)%Z; cbn;
      try (intros H; inversion H; subst; exists (fn_map c); cbn; rewrite Hc; now split).
    match goal with |- context [GradioClient.load_deps 0 entries ?st] =>
      destruct (DescriptorLoop.load_deps_run entries 0 st (c := c) Hc) as (read & Hst & Hres);
      destruct (GradioClient.load_deps 0 entries st) as [o s2]
    end.
    cbn [fst snd] in *. intros H. injection H as Ho' Hs'. subst o s1.
    exists (GradioClient.add_deps 0 read (fn_map c)). rewrite Hst. cbn [client].
    split; [reflexivity | ].
    destruct Hres as [[Ho _] | (err & tail & Ho & ->)]; [discriminate Ho | ].
    injection Ho as <-. now exists read, tail.
Qed.

Lemma ensure_raises (s s1 : St) (b : string) (m : list (string * Z)) (msg : string) :
  client s = Some (mkClient b false m) ->
  GradioClient.ensure s = (Raised msg, s1) ->
  exists m1,
    client s1 = Some (mkClient b true m1) /\
    match next_descriptor s with
    | Some entries =>
        exists read tail,
          entries = map Readable read ++ Unreadable msg :: tail /\
          m1 = GradioClient.add_deps 0 read m
    | None => m1 = m
    end.
Proof.
  intros Hc. unfold GradioClient.ensure. unfold bind at 1.
  unfold GradioClient.self, bind at 1, get_client. rewrite Hc. cbn [ret session].
  unfold bind, GradioClient.update, set_client. cbn [base_url fn_map].
  match goal with |- context [GradioClient._load_config ?st] =>
    pose proof (load_config_raises st) as Hl;
    destruct (GradioClient._load_config st) as [[[] | msg'] s2]
  end; intros H; inversion H; subst.
  exact (Hl s1 _ msg eq_refl eq_refl).
Qed.

Lemma predict_unknown (api : string) (args : list Arg) (s : St) (c : GradioClient) :
  client s = Some c -> session c = true ->
  GradioClient.lookup (api_key api) (fn_map c) = None ->
  GradioClient.predict api args s = (Raised api_not_found, s).
Proof.
  intros Hc Hs Hl. unfold GradioClient.predict. unfold bind at 1.
  rewrite (@ClientFacts.ensure_connected s) by (exists c; now split).
  unfold bind, GradioClient.self, bind, get_client. rewrite Hc. cbn [ret].
  unfold api_key in Hl. now rewrite Hl.
Qed.

End Sticky.

(** X11. A failed descriptor fetch is not retried.  When [ensure] raises on
    a client whose session was not open, the session stays set.  The
    name-to-index map stays as it was when no descriptor arrived (the
    connection failed, the status was 400 or above, the body was no
    descriptor document); when it arrived and the loop over its records
    raised, the map has the bindings of the records before the one that made
    the loop raise.  The next [ensure] returns at once without a request,
    and [predict] of any name the map then lacks raises "API not found" and
    sends nothing, whatever the server would answer. *)
Theorem failed_descriptor_fetch_is_not_retried
        (s s1 : St) (b : string) (m : list (string * Z)) (msg : string) :
  client s = Some (mkClient b false m) ->
  GradioClient.ensure s = (Raised msg, s1) ->
  exists m1,
    client s1 = Some (mkClient b true m1) /\
    match next_descriptor s with
    | Some entries =>
        exists read tail,
          entries = map Readable read ++ Unreadable msg :: tail /\
          m1 = GradioClient.add_deps 0 read m
    | None => m1 = m
    end /\
    GradioClient.ensure s1 = (Returned tt, s1) /\
    forall s2 api args,
      client s2 = client s1 ->
      GradioClient.lookup (api_key api) m1 = None ->
      GradioClient.predict api args s2 = (Raised api_not_found, s2).
Proof.
  intros Hc He.
  destruct (Sticky.ensure_raises s s1 b m msg Hc He) as (m1 & H1 & Hm).
  exists m1. split; [exact H1 | split; [exact Hm | split]].
  - apply ClientFacts.ensure_connected. eexists. split; [exact H1 | reflexivity].
  - intros s2 api args H2 Hl. rewrite H1 in H2.
    now apply Sticky.predict_unknown with (c := mkClient b true m1).
Qed.

Lemma failed_descriptor_fetch_is_not_retried_witness :
  client (snd (GradioClient.ensure Fixture.half_read)) =
    Some (mkClient Fixture.base true [("change_sovits_weights"%string, 0%Z)]) /\
  GradioClient.predict inference_api []
    (mkSt (client (snd (GradioClient.ensure Fixture.half_read))) None false []
          [Response 200 "{}" (ConfigDoc (map Readable Sample.deps)); Sample.answer]) =
  (Raised api_not_found,
   mkSt (client (snd (GradioClient.ensure Fixture.half_read))) None false []
        [Response 200 "{}" (ConfigDoc (map Readable Sample.deps)); Sample.answer]).
Proof.
  destruct (failed_descriptor_fetch_is_not_retried
              Fixture.half_read (snd (GradioClient.ensure Fixture.half_read))
              Fixture.base []
              "TypeError: int() argument must be a string or a real number, not 'NoneType'"
              eq_refl eq_refl)
    as (m1 & Hc & _ & _ & Hp).
  split; [reflexivity | ].
  apply Hp; [reflexivity | ].
  vm_compute in Hc. injection Hc as <-. reflexivity.
Defined.

(** X12. [predict] of a name the descriptor did not list raises "API not
    found" before anything is uploaded or posted: on a connected client the
    state, the event log included, is left as it was. *)
Theorem predict_unknown_api_sends_nothing
        (api : string) (args : list Arg) (s : St) (c : GradioClient) :
  client s = Some c -> session c = true ->
  GradioClient.lookup (api_key api) (fn_map c) = None ->
  GradioClient.predict api args s = (Raised api_not_found, s).
Proof. exact (Sticky.predict_unknown api args s c). Qed.

Lemma predict_unknown_api_sends_nothing_witness :
  GradioClient.predict "/set_seed" [Fixture.reference] Fixture.ready =
    (Raised api_not_found, Fixture.ready).
Proof.
  apply (predict_unknown_api_sends_nothing "/set_seed" [Fixture.reference] Fixture.ready
           (mkClient Fixture.base true Sample.fns)); reflexivity.
Defined.

(** X13. [close] drops the session and keeps the name-to-index map; a second
    [close] does nothing; the next [ensure] opens a session again and fetches
    the descriptor with one GET of [<base>config]. *)
Theorem close_then_ensure_fetches_again (s : St) (c : GradioClient) :
  client s = Some c -> session c = true ->
  let s1 := snd (GradioClient.close s) in
  fst (GradioClient.close s) = Returned tt /\
  client s1 = Some (mkClient (base_url c) false (fn_map c)) /\
  events s1 = events s /\
  GradioClient.close s1 = (Returned tt, s1) /\
  events (snd (GradioClient.ensure s1)) = HttpGet (base_url c ++ "config") :: events s.
Proof.
  intros Hc Hs. cbn zeta.
  assert (Hclose : GradioClient.close s =
            (Returned tt,
             mkSt (Some (mkClient (base_url c) false (fn_map c))) (selected_sig s)
                  (gradio_ready s) (events s) (replies s))).
  { unfold GradioClient.close, bind, GradioClient.self, bind, get_client,
      GradioClient.update, set_client.
    rewrite Hc. cbn [ret]. now rewrite Hs. }
  rewrite Hclose. cbn [fst snd client events].
  split; [reflexivity | split; [reflexivity | split; [reflexivity | split]]].
  - reflexivity.
  - unfold GradioClient.ensure, bind, GradioClient.self, bind, get_client,
      GradioClient.update, set_client.
    cbn [client ret session base_url fn_map selected_sig gradio_ready events replies].
    unfold GradioClient._load_config, bind, GradioClient.self, bind, get_client, http.
    cbn [client ret base_url replies events].
    destruct (replies s) as [ | [m | st txt j] rest]; cbn; try reflexivity.
    destruct (400 <=? st)%Z; [ | destruct j as [entries | e d | ps | ]]; try reflexivity.
    match goal with |- context [GradioClient.load_deps 0 entries ?st] =>
      destruct (DescriptorLoop.load_deps_events entries 0 st
                  (c := mkClient (base_url c) true (fn_map c)) eq_refl) as [Hev _]
    end.
    exact Hev.
Qed.

Lemma close_then_ensure_fetches_again_witness :
  events (snd (GradioClient.ensure (snd (GradioClient.close Fixture.ready)))) =
    [HttpGet "http://localhost:9872/config"].
Proof.
  exact (proj2 (proj2 (proj2 (proj2
           (close_then_ensure_fetches_again Fixture.ready
              (mkClient Fixture.base true Sample.fns) eq_refl eq_refl))))).
Defined.

Module Inputs.

Lemma upload_returns (path uploaded : string) (s s1 : St) :
  GradioClient._upload_file path s = (Returned uploaded, s1) ->
  client s1 = client s /\ replies s1 = tl (replies s) /\
  (exists r, hd_error (replies s) = Some r /\ uploaded_path r = Some uploaded) /\
  (exists url, events s1 = HttpUpload url path :: events s) /\
  (forall c, client s = Some c ->
     events s1 = HttpUpload (base_url c ++ "upload") path :: events s).
Proof.
  unfold GradioClient._upload_file, bind, GradioClient.self, bind, get_client.
  destruct (client s) as [c | ] eqn:Hc; cbn [ret raise]; [ | discriminate].
  unfold http.
  destruct (replies s) as [ | [m | st txt j] rest]; cbn; try discriminate.
  destruct (400 <=? st)%Z eqn:Hst; [discriminate | ].
  destruct j as [deps | e d | [ | p ps] | ]; cbn; try discriminate.
  intros H; inversion H; subst; cbn. split; [exact Hc | split; [reflexivity | ]].
  split; [ | split; [eauto | ]].
  - eexists. split; [reflexivity | ]. cbn. now rewrite Hst.
  - intros c' Hc'. now injection Hc' as <-.
Qed.

Lemma head_stays (a : Arg) (s : St) :
  is_local_file a = false ->
  (match a with
   | FileData (Some p) =>
       if negb (Str.is_empty p) && negb (GradioClient.is_remote p)
       then bind (GradioClient._upload_file p)
                 (fun uploaded => ret (FileData (Some uploaded)))
       else ret a
   | _ => ret a
   end) s = (Returned a, s).
Proof.
  intros Hloc. destruct a as [v | [p | ]]; try reflexivity.
  cbn [is_local_file] in Hloc. now rewrite Hloc.
Qed.

Lemma nothing_to_upload (args : list Arg) (s : St) :
  forallb (fun a => negb (is_local_file a)) args = true ->
  GradioClient._process_inputs args s = (Returned args, s).
Proof.
  induction args as [ | a args IH]; intros Hall; [reflexivity | ].
  cbn [forallb] in Hall. apply andb_true_iff in Hall as [Ha Hrest].
  cbn [GradioClient._process_inputs]. unfold bind at 1.
  apply negb_true_iff in Ha. rewrite (head_stays a s Ha).
  unfold bind. now rewrite (IH Hrest).
Qed.

Lemma processed (args : list Arg) :
  forall s args' s',
    GradioClient._process_inputs args s = (Returned args', s') ->
    uploads (replies s) args args' (replies s') /\
    client s' = client s /\
    (forall c, client s = Some c ->
       events s' =
         rev (map (HttpUpload (base_url c ++ "upload")) (local_paths args)) ++ events s) /\
    count_uploads (events s') =
      count_uploads (events s) + List.length (filter is_local_file args).
Proof.
  induction args as [ | a args IH]; intros s args' s'.
  - cbn. intros H; inversion H; subst.
    split; [constructor | split; [reflexivity | split; [reflexivity | lia]]].
  - cbn [GradioClient._process_inputs]. unfold bind at 1.
    destruct (is_local_file a) eqn:Hloc.
    + destruct a as [v | [p | ]]; try discriminate.
      pose proof Hloc as Hloc'.
      cbn [is_local_file] in Hloc. rewrite Hloc.
      unfold bind at 1.
      destruct (GradioClient._upload_file p s) as [[u | msg] s1] eqn:Hup;
        [ | discriminate].
      destruct (upload_returns p u s s1 Hup)
        as (Hc1 & Hr1 & (r & Hhd & Hpath) & (url & Hev1) & Hurl).
      cbn [ret]. unfold bind.
      destruct (GradioClient._process_inputs args s1) as [[rest | msg] s2] eqn:Hrec;
        [ | discriminate].
      destruct (IH s1 rest s2 Hrec) as (Hall & Hc2 & Hevs & Hcount).
      intros H; inversion H; subst. split; [ | split; [congruence | split]].
      * destruct (replies s) as [ | r0 rs]; [discriminate Hhd | ].
        cbn in Hhd, Hr1. injection Hhd as ->. rewrite Hr1 in Hall.
        now constructor.
      * intros c Hc. rewrite (Hevs c) by congruence. rewrite (Hurl c Hc).
        cbn [local_paths flat_map]. rewrite Hloc'.
        change (flat_map _ args) with (local_paths args).
        cbn [app map rev]. now rewrite <- app_assoc.
      * rewrite Hcount, Hev1. unfold count_uploads. cbn [filter].
        rewrite Hloc'. cbn. lia.
    + rewrite (head_stays a s Hloc). unfold bind.
      destruct (GradioClient._process_inputs args s) as [[rest | msg] s2] eqn:Hrec;
        [ | discriminate].
      destruct (IH s rest s2 Hrec) as (Hall & Hc2 & Hevs & Hcount).
      intros H; inversion H; subst. split; [ | split; [exact Hc2 | split]].
      * now constructor.
      * intros c Hc. rewrite (Hevs c Hc). cbn [local_paths flat_map].
        change (flat_map _ args) with (local_paths args).
        destruct a as [v | [p | ]]; try reflexivity.
        now rewrite Hloc.
      * rewrite Hcount. cbn [filter]. now rewrite Hloc.
Qed.

Lemma uploads_length (rs rs' : list Reply) (args args' : list Arg) :
  uploads rs args args' rs' -> List.length args' = List.length args.
Proof. induction 1; cbn; congruence. Qed.

End Inputs.

(** X14. [_process_inputs] uploads the local files and nothing else.  When
    it returns, the argument list has the same length; every argument that
    is not a local ["gradio.FileData"] path (a plain value, a path that
    starts with [http://] or [https://], an empty or missing path) is passed
    on as it is; every local one is replaced by a ["gradio.FileData"] whose
    path is the first element of the server's answer to the upload of that
    file, the answers being taken in the order of the arguments; the
    requests sent are the uploads of the local paths to [<base>upload], one
    each, in that order, and nothing else.  With no local file among the
    arguments nothing is sent at all. *)
Theorem process_inputs_uploads_local_files_only (args : list Arg) (s : St) :
  (forall args' s',
     GradioClient._process_inputs args s = (Returned args', s') ->
     uploads (replies s) args args' (replies s') /\
     List.length args' = List.length args /\
     client s' = client s /\
     (forall c, client s = Some c ->
        events s' =
          rev (map (HttpUpload (base_url c ++ "upload")) (local_paths args)) ++ events s) /\
     count_uploads (events s') =
       count_uploads (events s) + List.length (filter is_local_file args)) /\
  (forallb (fun a => negb (is_local_file a)) args = true ->
   GradioClient._process_inputs args s = (Returned args, s)).
Proof.
  split.
  - intros args' s' H.
    destruct (Inputs.processed args s args' s' H) as (Hall & Hc & Hevs & Hcount).
    split; [exact Hall | split; [ | split; [exact Hc | split; [exact Hevs | exact Hcount]]]].
    exact (Inputs.uploads_length _ _ _ _ Hall).
  - apply Inputs.nothing_to_upload.
Qed.

Lemma process_inputs_uploads_local_files_only_witness :
  uploads (replies Fixture.uploading)
    [Plain "hello"; Fixture.reference; FileData (Some "https://host/ref.wav"%string)]
    [Plain "hello"; FileData (Some "/tmp/gradio/0a1b/ref.wav"%string);
     FileData (Some "https://host/ref.wav"%string)]
    [Sample.answer] /\
  events (snd (GradioClient._process_inputs
                 [Plain "hello"; Fixture.reference;
                  FileData (Some "https://host/ref.wav"%string)]
                 Fixture.uploading)) =
    [HttpUpload "http://localhost:9872/upload" "C:/voices/ref.wav"].
Proof.
  destruct (proj1 (process_inputs_uploads_local_files_only
                     [Plain "hello"; Fixture.reference;
                      FileData (Some "https://host/ref.wav"%string)]
                     Fixture.uploading)
                  [Plain "hello"; FileData (Some "/tmp/gradio/0a1b/ref.wav"%string);
                   FileData (Some "https://host/ref.wav"%string)]
                  (snd (GradioClient._process_inputs
                          [Plain "hello"; Fixture.reference;
                           FileData (Some "https://host/ref.wav"%string)]
                          Fixture.uploading))
                  eq_refl)
    as (Hup & _ & _ & Hev & _).
  split; [exact Hup | ].
  exact (Hev _ eq_refl).
Defined.

(** X15. One [predict] call on a connected client, for a name the descriptor
    listed and with no local file to upload, sends exactly one POST to
    [<base>api/predict/] with the index resolved for the name, and takes one
    reply.  It returns the ["data"] of the reply only for status 200 without
    an error field; any other status, a non-empty error field and a failed
    connection raise. *)
Theorem predict_posts_once
        (api : string) (args : list Arg) (s : St) (c : GradioClient) (fn : Z) :
  client s = Some c -> session c = true ->
  GradioClient.lookup (api_key api) (fn_map c) = Some fn ->
  forallb (fun a => negb (is_local_file a)) args = true ->
  let r := GradioClient.predict api args s in
  events (snd r) = HttpPost (base_url c ++ "api/predict/") api fn :: events s /\
  replies (snd r) = tl (replies s) /\
  client (snd r) = Some c /\
  (forall st txt e d rest,
     replies s = Response st txt (PredictDoc e d) :: rest ->
     fst r = if negb (st =? 200)%Z then Raised "RuntimeError: Gradio predict failed"
             else if has_error e then Raised "RuntimeError: Gradio API error"
                  else Returned d) /\
  (forall msg rest, replies s = ConnectFailed msg :: rest -> fst r = Raised msg).
Proof.
  intros Hc Hs Hl Hargs. cbn zeta.
  assert (Hpre : GradioClient.predict api args s =
            bind (http (HttpPost (base_url c ++ "api/predict/") api fn))
                 (fun r =>
                    let '(status, _, j) := r in
                    if negb (status =? 200)%Z
                    then raise "RuntimeError: Gradio predict failed"
                    else
                      match j with
                      | PredictDoc (Some e) d =>
                          if Str.is_empty e then ret d
                          else raise "RuntimeError: Gradio API error"
                      | PredictDoc None d => ret d
                      | ConfigDoc _ => ret EmptyString
                      | UploadDoc _ =>
                          raise "AttributeError: 'list' object has no attribute 'get'"
                      | NotJson => raise "ContentTypeError"
                      end) s).
  { unfold GradioClient.predict. unfold bind at 1.
    rewrite (@ClientFacts.ensure_connected s) by (exists c; now split).
    unfold bind at 1. unfold GradioClient.self, bind at 1, get_client.
    rewrite Hc. cbn [ret]. unfold api_key in Hl. rewrite Hl.
    unfold bind at 1. rewrite (Inputs.nothing_to_upload args s Hargs). reflexivity. }
  rewrite Hpre. clear Hpre. unfold bind, http.
  destruct (replies s) as [ | [m | st txt j] rest] eqn:Hr;
    cbn [fst snd events replies client tl].
  - repeat split; try assumption; intros; discriminate.
  - repeat split; try assumption; intros; try discriminate. congruence.
  - destruct (negb (st =? 200)%Z) eqn:Hst.
    + cbn. repeat split; try assumption; intros; try discriminate.
      match goal with H : _ :: _ = _ :: _ |- _ => inversion H; subst end.
      now rewrite Hst.
    + destruct j as [deps | [e | ] d | ps | ]; cbn;
        try (destruct (Str.is_empty e) eqn:He; cbn);
        repeat split; try assumption; intros; try discriminate;
        match goal with H : _ :: _ = _ :: _ |- _ => inversion H; subst end;
        rewrite Hst; cbn [has_error]; rewrite ?He; reflexivity.
Qed.

Lemma predict_posts_once_witness :
  events (snd (GradioClient.predict gpt_api [Plain "g1.ckpt"] Fixture.ready)) =
    [HttpPost "http://localhost:9872/api/predict/" gpt_api 1].
Proof.
  exact (proj1 (predict_posts_once gpt_api [Plain "g1.ckpt"] Fixture.ready
                  (mkClient Fixture.base true Sample.fns) 1
                  eq_refl eq_refl eq_refl eq_refl)).
Defined.

(** ** The health probe, for a server that answers *)

(** X16. [gradio_health] never raises and always reports [ok = ready].  When
    the server answers the GET of [<base>config], the report is positive
    exactly for status 200; for any other status it carries the message
    ["HTTP <status>: "] followed by the first 120 characters of the body.
    An answer, whatever its status, leaves the cached client and the cached
    signature as they were. *)
Theorem health_probe_reports_the_status (settings : Settings) (s : St) :
  let base := Str.strip (gradio_server_url settings) in
  let r := HttpHelper.gradio_health settings s in
  (exists h, fst r = Returned h /\ HttpHelper.ok h = HttpHelper.ready h /\
             HttpHelper.url h = base) /\
  (forall st txt j rest,
     Str.is_empty base = false ->
     replies s = Response st txt j :: rest ->
     fst r = Returned
               (HttpHelper.mkHealth (st =? 200)%Z (st =? 200)%Z base
                  (if (st =? 200)%Z then None
                   else Some ("HTTP " ++ Str.of_Z st ++ ": " ++ substring 0 120 txt)%string)) /\
     client (snd r) = client s /\
     selected_sig (snd r) = selected_sig s /\
     events (snd r) = HttpGet (Str.with_slash base ++ "config") :: events s /\
     replies (snd r) = rest).
Proof.
  cbn zeta. split.
  - unfold HttpHelper.gradio_health.
    destruct (Str.is_empty (Str.strip (gradio_server_url settings))).
    + eexists. cbn. repeat split.
    + unfold try_except at 1, bind at 1, http.
      destruct (replies s) as [ | [m | st txt j] rest];
        cbn [fst snd]; [ | | destruct (negb (st =? 200)%Z); eexists; cbn; repeat split].
      all: unfold bind at 1, set_sig; unfold bind at 1, try_except at 1, bind at 1,
             get_client; cbn [client].
      all: destruct (client s) as [c | ];
             [unfold GradioClient.close, bind, GradioClient.self, bind, get_client;
              cbn [client ret]; destruct (session c) | ];
             eexists; cbn; repeat split.
  - intros st txt j rest Hb Hr. unfold HttpHelper.gradio_health. rewrite Hb.
    unfold try_except, bind, http. rewrite Hr.
    destruct (st =? 200)%Z; cbn; repeat split.
Qed.

Lemma health_probe_reports_the_status_witness :
  fst (HttpHelper.gradio_health Sample.settings
         (mkSt None None false [] [Response 503 "Service Unavailable" NotJson])) =
  Returned (HttpHelper.mkHealth false false "http://localhost:9872/"
              (Some "HTTP 503: Service Unavailable"%string)).
Proof.
  exact (proj1 (proj2 (health_probe_reports_the_status Sample.settings
                         (mkSt None None false [] [Response 503 "Service Unavailable" NotJson]))
                 503%Z "Service Unavailable"%string NotJson [] eq_refl eq_refl)).
Defined.

(** ** The predict worker's model selection *)

Module Selection.

Lemma prelude (base : string) (s : St) (m : M bool) :
  exists sA,
    bind get_client
      (fun c => bind (if PredictWorker.must_recreate c base
                      then bind (GradioClient.new base) (fun _ => set_sig None)
                      else ret tt)
                     (fun _ => m)) s = m sA /\
    exists c, client sA = Some c /\
              Str.rstrip_slash (base_url c) = Str.rstrip_slash (Str.with_slash base).
Proof.
  unfold bind at 1, get_client.
  destruct (PredictWorker.must_recreate (client s) base) eqn:Hm.
  - eexists. split; [reflexivity | ]. cbn. eexists. split; reflexivity.
  - exists s. split; [reflexivity | ].
    unfold PredictWorker.must_recreate in Hm.
    destruct (client s) as [c | ]; [ | discriminate].
    exists c. split; [reflexivity | ].
    apply negb_false_iff in Hm. now apply String.eqb_eq in Hm.
Qed.

Lemma select_models_keeps (cfg : Settings) (s : St) :
  keeps s (snd (select_models cfg s)).
Proof.
  unfold select_models, bind.
  match goal with |- context [GradioClient.predict sovits_api ?args s] =>
    destruct (Effects.predict_effect sovits_api args s) as [K1 _];
    destruct (GradioClient.predict sovits_api args s) as [[d1 | msg1] s1]
  end; cbn [snd] in *; [ | exact K1].
  match goal with |- context [GradioClient.predict gpt_api ?args s1] =>
    destruct (Effects.predict_effect gpt_api args s1) as [K2 _];
    destruct (GradioClient.predict gpt_api args s1) as [[d2 | msg2] s2]
  end; cbn [snd] in *; eapply Effects.keeps_trans; eassumption.
Qed.

End Selection.

Module SelectionOutcome.

Lemma outcome (cfg : Settings) (s : St) :
  let base := Str.strip (gradio_server_url cfg) in
  let r := PredictWorker._ensure_and_select_models (Some cfg) s in
  PredictWorker._ensure_and_select_models None s = (Returned false, s) /\
  exists b,
    fst r = Returned b /\
    if b
    then selected_sig (snd r) = Some (signature base cfg) /\
         exists c, client (snd r) = Some c /\
                   Str.rstrip_slash (base_url c) = Str.rstrip_slash (Str.with_slash base)
    else if Str.is_empty base then snd r = s
         else client (snd r) = None /\ selected_sig (snd r) = None /\
              gradio_ready (snd r) = false.
Proof.
  cbn zeta. split; [reflexivity | ].
  destruct (PredictWorker._ensure_and_select_models (Some cfg) s) as [o s'] eqn:E.
  cbn [fst snd]. revert E.
  unfold PredictWorker._ensure_and_select_models.
  destruct (Str.is_empty (Str.strip (gradio_server_url cfg))) eqn:Hb.
  - intros E. inversion E; subst. exists false. split; reflexivity.
  - match goal with |- context [bind (if _ then _ else _) (fun _ => ?m)] =>
      destruct (Selection.prelude (Str.strip (gradio_server_url cfg)) s m)
        as (sA & -> & c & Hc & Hbase)
    end.
    unfold try_except, bind at 1, get_sig.
    destruct (sig_differs (selected_sig sA) _) eqn:Hd.
    + unfold bind at 1. unfold bind at 1.
      destruct (Selection.select_models_keeps cfg sA) as (Kc & _ & _).
      destruct (select_models cfg sA) as [[[] | msg] sC]; cbn [snd] in Kc.
      * cbn. intros E. inversion E; subst. clear E.
        exists true. cbn. split; [reflexivity | split; [reflexivity | ]].
        unfold client_base in Kc. rewrite Hc in Kc. cbn in Kc.
        destruct (client sC) as [c' | ]; [ | discriminate].
        injection Kc as Kc. exists c'. split; [reflexivity | now rewrite Kc].
      * cbn. intros E. inversion E; subst. clear E.
        exists false. cbn. repeat split.
    + cbn. intros E. inversion E; subst. clear E.
      exists true. split; [reflexivity | split; [ | now exists c]].
      unfold sig_differs in Hd.
      destruct (selected_sig s') as [g | ]; [ | discriminate].
      apply negb_false_iff in Hd. now rewrite (StrFacts.Sig_eqb_eq _ _ Hd).
Qed.

(** After a [True] the next call is a memo hit. *)
Lemma memo_hit (cfg : Settings) (s : St) (c : GradioClient) :
  Str.is_empty (Str.strip (gradio_server_url cfg)) = false ->
  client s = Some c ->
  Str.rstrip_slash (base_url c) =
    Str.rstrip_slash (Str.with_slash (Str.strip (gradio_server_url cfg))) ->
  selected_sig s = Some (signature (Str.strip (gradio_server_url cfg)) cfg) ->
  PredictWorker._ensure_and_select_models (Some cfg) s = (Returned true, s).
Proof.
  intros Hb Hc Hbase Hsig. unfold PredictWorker._ensure_and_select_models.
  rewrite Hb. unfold bind at 1, get_client. rewrite Hc.
  unfold PredictWorker.must_recreate. rewrite Hbase, String.eqb_refl. cbn [negb].
  unfold bind at 1, ret. unfold try_except, bind, get_sig.
  rewrite Hsig, WorkerFacts.sig_same. reflexivity.
Qed.

End SelectionOutcome.

(** X17. [_ensure_and_select_models] never raises.  When it returns [True],
    the memo holds the signature of the current settings and there is a
    client for the configured base URL.  When it returns [False] although a
    server URL is configured, the selection failed: the client and the memo
    are dropped and the ready flag is cleared, so that the next turn starts
    with a new client.  Without settings or without a server URL it returns
    [False] and changes nothing. *)
Theorem ensure_and_select_models_outcome (cfg : Settings) (s : St) :
  let base := Str.strip (gradio_server_url cfg) in
  let r := PredictWorker._ensure_and_select_models (Some cfg) s in
  PredictWorker._ensure_and_select_models None s = (Returned false, s) /\
  exists b,
    fst r = Returned b /\
    if b
    then selected_sig (snd r) = Some (signature base cfg) /\
         exists c, client (snd r) = Some c /\
                   Str.rstrip_slash (base_url c) = Str.rstrip_slash (Str.with_slash base)
    else if Str.is_empty base then snd r = s
         else client (snd r) = None /\ selected_sig (snd r) = None /\
              gradio_ready (snd r) = false.
Proof. exact (SelectionOutcome.outcome cfg s). Qed.

(** X25. In the predict worker the memo holds: once
    [_ensure_and_select_models] has returned [True] for the settings, calling
    it again with the same settings returns [True], sends nothing and
    changes nothing, whatever the server would answer. *)
Theorem worker_memo_hit_sends_nothing (cfg : Settings) (s s1 : St) :
  PredictWorker._ensure_and_select_models (Some cfg) s = (Returned true, s1) ->
  forall server,
    let s2 := mkSt (client s1) (selected_sig s1) (gradio_ready s1) (events s1) server in
    PredictWorker._ensure_and_select_models (Some cfg) s2 = (Returned true, s2).
Proof.
  intros H server. cbn zeta.
  destruct (SelectionOutcome.outcome cfg s) as (_ & b & Hret & Hpost).
  cbn zeta in Hret, Hpost. rewrite H in Hret, Hpost. cbn [fst snd] in Hret, Hpost.
  injection Hret as <-. destruct Hpost as (Hsig & c & Hc & Hbase).
  apply SelectionOutcome.memo_hit with (c := c); try assumption.
  destruct (Str.is_empty (Str.strip (gradio_server_url cfg))) eqn:Hb; [ | reflexivity].
  exfalso. unfold PredictWorker._ensure_and_select_models in H. rewrite Hb in H.
  discriminate H.
Qed.

Lemma worker_memo_hit_sends_nothing_witness :
  let s1 := snd (PredictWorker._ensure_and_select_models (Some Sample.settings)
                   Sample.healthy) in
  PredictWorker._ensure_and_select_models (Some Sample.settings)
    (mkSt (client s1) (selected_sig s1) (gradio_ready s1) (events s1) []) =
  (Returned true, mkSt (client s1) (selected_sig s1) (gradio_ready s1) (events s1) []).
Proof.
  exact (worker_memo_hit_sends_nothing Sample.settings Sample.healthy
           (snd (PredictWorker._ensure_and_select_models (Some Sample.settings)
                   Sample.healthy)) eq_refl []).
Defined.

(** X18. Base URLs that differ only in trailing slashes name the same
    client: for a client made for one of them, neither the predict worker
    nor the HTTP helper makes a new client when the settings hold the other,
    and both do make a new one when the URLs differ otherwise. *)
Theorem trailing_slashes_keep_the_client (made_for now : string) (c : GradioClient) :
  base_url c = Str.with_slash made_for ->
  PredictWorker.must_recreate (Some c) now =
    negb (Str.rstrip_slash made_for =? Str.rstrip_slash now)%string /\
  HttpHelper.must_recreate (Some c) now =
    negb (Str.rstrip_slash made_for =? Str.rstrip_slash now)%string /\
  Str.rstrip_slash (made_for ++ "/") = Str.rstrip_slash made_for.
Proof.
  intros Hc. unfold PredictWorker.must_recreate, HttpHelper.must_recreate.
  rewrite Hc, !StrFacts.rstrip_with_slash.
  repeat split. apply StrFacts.rstrip_app_slash.
Qed.

Lemma trailing_slashes_keep_the_client_witness :
  PredictWorker.must_recreate
    (Some (mkClient "http://localhost:9872/" true Sample.fns)) "http://localhost:9872//" =
  false.
Proof.
  exact (proj1 (trailing_slashes_keep_the_client "http://localhost:9872"
                  "http://localhost:9872//"
                  (mkClient "http://localhost:9872/" true Sample.fns) eq_refl)).
Defined.

(** ** The descriptor and the HTTP helper *)

Module Descriptor.

Lemma add_deps_app (a b : list Dep) :
  forall i m,
    GradioClient.add_deps i (a ++ b) m =
    GradioClient.add_deps (i + Z.of_nat (List.length a)) b (GradioClient.add_deps i a m).
Proof.
  induction a as [ | d a IH]; intros i m.
  - cbn. now rewrite Z.add_0_r.
  - cbn [app GradioClient.add_deps List.length]. rewrite IH.
    f_equal. lia.
Qed.

Lemma unnamed_keep (k : string) (deps : list Dep) :
  forall i m,
    Forall (fun d => forall name, dep_api_name d = Some name ->
                                  Str.is_empty name = false -> api_key name <> k) deps ->
    GradioClient.lookup k (GradioClient.add_deps i deps m) = GradioClient.lookup k m.
Proof.
  induction deps as [ | d deps IH]; intros i m Hall; [reflexivity | ].
  inversion Hall as [ | d' deps' Hd Hrest]; subst.
  cbn [GradioClient.add_deps]. rewrite (IH _ _ Hrest).
  destruct (dep_api_name d) as [name | ] eqn:Hn; [ | reflexivity].
  destruct (Str.is_empty name) eqn:He; [reflexivity | ].
  cbn [GradioClient.lookup]. specialize (Hd name eq_refl He).
  unfold api_key in Hd. apply String.eqb_neq in Hd. now rewrite Hd.
Qed.

End Descriptor.

(** X19. How [_load_config] binds names to call indices.  The record that
    comes last in the descriptor wins for its name, with its own ["id"] or,
    when it has none, with its position in the list; a name no record of the
    descriptor carries keeps the binding the client had. *)
Theorem descriptor_binds_names_to_indices
        (deps : list Dep) (m : list (string * Z)) :
  (forall d name,
     dep_api_name d = Some name -> Str.is_empty name = false ->
     GradioClient.lookup (api_key name) (GradioClient.add_deps 0 (deps ++ [d]) m) =
       Some (match dep_id d with
             | Some n => n
             | None => Z.of_nat (List.length deps)
             end)) /\
  (forall k,
     Forall (fun d => forall name, dep_api_name d = Some name ->
                                   Str.is_empty name = false -> api_key name <> k) deps ->
     GradioClient.lookup k (GradioClient.add_deps 0 deps m) = GradioClient.lookup k m).
Proof.
  split.
  - intros d name Hn He. rewrite Descriptor.add_deps_app.
    cbn [GradioClient.add_deps]. rewrite Hn, He. cbn [GradioClient.lookup].
    unfold api_key. rewrite String.eqb_refl. now destruct (dep_id d).
  - intros k. apply Descriptor.unnamed_keep.
Qed.

Lemma descriptor_binds_names_to_indices_witness :
  GradioClient.lookup (api_key "/inference")
    (GradioClient.add_deps 0
       ([mkDep (Some "/inference"%string) (Some 9%Z); mkDep None None]
          ++ [mkDep (Some " /inference "%string) None]) []) =
  Some 2%Z.
Proof.
  exact (proj1 (descriptor_binds_names_to_indices
                  [mkDep (Some "/inference"%string) (Some 9%Z); mkDep None None] [])
               (mkDep (Some " /inference "%string) None) " /inference "%string
               eq_refl eq_refl).
Defined.

(** X20. The HTTP helper does not recover from a failed descriptor fetch by
    itself.  When the first call finds no client and the server does not
    answer, the call raises and leaves a client whose session is set and
    whose name-to-index map is empty; every later call with these settings
    then returns [False] without sending anything, whatever the server
    would answer, as long as the memo is [None] and that client stays. *)
Theorem helper_is_stuck_after_failed_fetch
        (settings : Settings) (s : St) (msg : string) :
  let base := Str.strip (gradio_server_url settings) in
  Str.is_empty base = false ->
  client s = None ->
  next_failure s = Some msg ->
  fst (HttpHelper._ensure_client_and_models settings s) = Raised msg /\
  client (snd (HttpHelper._ensure_client_and_models settings s)) =
    Some (mkClient (Str.with_slash base) true []) /\
  forall s2,
    client s2 = Some (mkClient (Str.with_slash base) true []) ->
    selected_sig s2 = None ->
    HttpHelper._ensure_client_and_models settings s2 = (Returned false, s2).
Proof.
  cbn zeta. intros Hb Hc Hfail. split; [ | split].
  - unfold HttpHelper._ensure_client_and_models. rewrite Hb.
    unfold bind, get_client, try_except, GradioClient.new, log_event, set_client, set_sig,
      GradioClient.ensure, GradioClient.self, GradioClient.update, bind, get_client,
      set_client, GradioClient._load_config, bind, GradioClient.self, bind, get_client, http.
    rewrite Hc. cbn. unfold next_failure in Hfail.
    destruct (replies s) as [ | [m | st txt j] rest]; cbn; try discriminate;
      injection Hfail as <-; reflexivity.
  - unfold HttpHelper._ensure_client_and_models. rewrite Hb.
    unfold bind, get_client, try_except, GradioClient.new, log_event, set_client, set_sig,
      GradioClient.ensure, GradioClient.self, GradioClient.update, bind, get_client,
      set_client, GradioClient._load_config, bind, GradioClient.self, bind, get_client, http.
    rewrite Hc. cbn. unfold next_failure in Hfail.
    destruct (replies s) as [ | [m | st txt j] rest]; cbn; try discriminate; reflexivity.
  - intros s2 Hc2 Hsig. unfold HttpHelper._ensure_client_and_models. rewrite Hb.
    unfold bind at 1, get_client. rewrite Hc2.
    unfold HttpHelper.must_recreate. cbn [base_url].
    rewrite StrFacts.rstrip_with_slash, String.eqb_refl. cbn [negb].
    unfold bind at 1, ret. unfold bind at 1.
    rewrite (@ClientFacts.ensure_connected s2) by (eexists; split; [exact Hc2 | reflexivity]).
    unfold bind at 1, get_sig. rewrite Hsig. cbn [sig_differs].
    unfold try_except, bind at 1, select_models, bind at 1.
    rewrite (Sticky.predict_unknown sovits_api _ s2 _ Hc2 eq_refl eq_refl).
    reflexivity.
Qed.

Lemma helper_is_stuck_after_failed_fetch_witness :
  HttpHelper._ensure_client_and_models Sample.settings
    (mkSt (Some (mkClient "http://localhost:9872/" true [])) None false []
          [Response 200 "{}" (ConfigDoc (map Readable Sample.deps)); Sample.answer; Sample.answer]) =
  (Returned false,
   mkSt (Some (mkClient "http://localhost:9872/" true [])) None false []
        [Response 200 "{}" (ConfigDoc (map Readable Sample.deps)); Sample.answer; Sample.answer]).
Proof.
  apply (proj2 (proj2 (helper_is_stuck_after_failed_fetch Sample.settings Fixture.cold_down
                         "Cannot connect to host localhost:9872"
                         eq_refl eq_refl eq_refl)));
    reflexivity.
Defined.

(** ** The priority of an event type *)

Module TextFacts.

Lemma upper_app (a b : string) :
  Text.upper (a ++ b) = (Text.upper a ++ Text.upper b)%string.
Proof.
  induction a as [ | c a IH]; [reflexivity | ].
  cbn [String.append Text.upper]. now rewrite IH.
Qed.

Lemma upper_char_idem (c : ascii) :
  Text.upper_char (Text.upper_char c) = Text.upper_char c.
Proof.
  destruct c as [[] [] [] [] [] [] [] []]; reflexivity.
Qed.

Lemma upper_idem (s : string) : Text.upper (Text.upper s) = Text.upper s.
Proof.
  induction s as [ | c s IH]; [reflexivity | ].
  cbn [Text.upper]. now rewrite upper_char_idem, IH.
Qed.

Lemma prefix_app (n post : string) : String.prefix n (n ++ post) = true.
Proof.
  induction n as [ | c n IH]; [now destruct post | ].
  cbn [String.append String.prefix].
  destruct (ascii_dec c c) as [_ | Hne]; [exact IH | now elim Hne].
Qed.

Lemma contains_app (n pre post : string) :
  Text.contains n (pre ++ n ++ post) = true.
Proof.
  induction pre as [ | c pre IH].
  - cbn [String.append]. destruct (n ++ post)%string eqn:E;
      cbn [Text.contains]; rewrite <- E, prefix_app; reflexivity.
  - cbn [String.append Text.contains]. rewrite IH. apply orb_true_r.
Qed.

End TextFacts.

(** X21. Event types are compared without regard to letter case.  On ASCII
    text, an event type that contains [SUPER_CHAT] in any mix of cases, at
    any place, has priority HIGH, and so has one that spells [SEND_GIFT],
    [COMBO_SEND] or [GUARD_BUY] in any mix of cases; the priority of an
    event type is the priority of its upper-case form; a missing event
    type is NORMAL. *)
Theorem event_priority_ignores_case :
  (forall pre w post,
     Text.is_ascii (pre ++ w ++ post) = true ->
     Text.upper w = "SUPER_CHAT"%string ->
     priority_from_event_type (Some (pre ++ w ++ post)%string) = HIGH) /\
  (forall w,
     Text.is_ascii w = true ->
     Text.upper w = "SEND_GIFT"%string \/ Text.upper w = "COMBO_SEND"%string \/
     Text.upper w = "GUARD_BUY"%string ->
     priority_from_event_type (Some w) = HIGH) /\
  (forall s,
     Text.is_ascii s = true ->
     priority_from_event_type (Some (Text.upper s)) = priority_from_event_type (Some s)) /\
  priority_from_event_type None = NORMAL.
Proof.
  split; [ | split; [ | split]].
  - intros pre w post _ Hw. unfold priority_from_event_type.
    rewrite !TextFacts.upper_app, Hw, TextFacts.contains_app. reflexivity.
  - intros w _ Hw. unfold priority_from_event_type.
    destruct Hw as [-> | [-> | ->]]; reflexivity.
  - intros s _. unfold priority_from_event_type. now rewrite TextFacts.upper_idem.
  - reflexivity.
Qed.

Lemma event_priority_ignores_case_witness :
  priority_from_event_type (Some "Super_Chat_Message_JPN"%string) = HIGH.
Proof.
  exact (proj1 event_priority_ignores_case EmptyString "Super_Chat"%string
               "_Message_JPN"%string eq_refl eq_refl).
Defined.

(** ** The gain *)

Module VolumeFacts.
Import QArith Lqa.
Import Volume.

Lemma gt_spec (q b : Q) : gt (FFinite q) b = true <-> b < q.
Proof.
  cbn. rewrite negb_true_iff. split.
  - intros H. apply Qnot_le_lt. intros Hle. apply Qle_bool_iff in Hle. congruence.
  - intros H. destruct (Qle_bool q b) eqn:E; [ | reflexivity].
    apply Qle_bool_iff in E. lra.
Qed.

Lemma lt_spec (q b : Q) : lt (FFinite q) b = true <-> q < b.
Proof.
  cbn. rewrite negb_true_iff. split.
  - intros H. apply Qnot_le_lt. intros Hle. apply Qle_bool_iff in Hle. congruence.
  - intros H. destruct (Qle_bool b q) eqn:E; [ | reflexivity].
    apply Qle_bool_iff in E. lra.
Qed.

Lemma nonzero_spec (q : Q) : nonzero (FFinite q) = true <-> ~ q == 0.
Proof.
  cbn. rewrite negb_true_iff. split.
  - intros H Hz. apply Qeq_bool_iff in Hz. congruence.
  - intros H. destruct (Qeq_bool q 0) eqn:E; [ | reflexivity].
    apply Qeq_bool_iff in E. contradiction.
Qed.

Lemma safe_passes (x : PyFloat) : safe_gain x -> gain_to_apply x = Some x.
Proof.
  destruct x as [ | neg | q]; cbn [safe_gain]; try contradiction.
  intros (Hlo & Hhi & Hnz). unfold gain_to_apply.
  rewrite (proj2 (nonzero_spec q) Hnz).
  destruct (gt (FFinite q) 24) eqn:Hg; [apply gt_spec in Hg; lra | ].
  destruct (lt (FFinite q) (-60)) eqn:Hl; [apply lt_spec in Hl; lra | ].
  now rewrite (proj2 (nonzero_spec q) Hnz).
Qed.

Lemma result_safe (x g : PyFloat) :
  x <> FNaN -> gain_to_apply x = Some g -> safe_gain g.
Proof.
  intros Hx. unfold gain_to_apply.
  destruct x as [ | [ | ] | q]; [congruence | | | ].
  - cbn. intros H; injection H as <-. cbn. lra.
  - cbn. intros H; injection H as <-. cbn. lra.
  - destruct (nonzero (FFinite q)) eqn:Hnz.
    + destruct (gt (FFinite q) 24) eqn:Hg.
      * cbn. intros H; injection H as <-. cbn. lra.
      * destruct (lt (FFinite q) (-60)) eqn:Hl.
        -- cbn. intros H; injection H as <-. cbn. lra.
        -- rewrite Hnz. intros H; injection H as <-. cbn.
           apply nonzero_spec in Hnz.
           assert (~ 24 < q) by (intros C; apply gt_spec in C; congruence).
           assert (~ q < -60) by (intros C; apply lt_spec in C; congruence).
           repeat split; [lra | lra | exact Hnz].
    + cbn. discriminate.
Qed.

(** X22. The gain handed to [apply_gain].  For every volume setting that is
    a number, it lies between -60 and 24 dB and is not zero; a setting
    within that range and not zero is handed on unchanged, a setting above
    24 (plus infinity too) gives 24, one below -60 (minus infinity too) gives
    -60; a setting of zero makes the worker skip [apply_gain]; clamping a
    clamped value changes nothing.  Not-a-number passes every comparison and
    reaches [apply_gain] as it is. *)
Theorem gain_is_clamped (x : PyFloat) :
  (x <> FNaN -> forall g, gain_to_apply x = Some g -> safe_gain g) /\
  (safe_gain x -> gain_to_apply x = Some x) /\
  (gt x 24 = true -> gain_to_apply x = Some (FFinite 24)) /\
  (lt x (-60) = true -> gain_to_apply x = Some (FFinite (-60))) /\
  (forall q, x = FFinite q -> q == 0 -> gain_to_apply x = None) /\
  (forall g, gain_to_apply x = Some g -> gain_to_apply g = Some g) /\
  gain_to_apply FNaN = Some FNaN.
Proof.
  split; [exact (fun Hx g => result_safe x g Hx) | ].
  split; [exact (safe_passes x) | ].
  split; [ | split; [ | split; [ | split; [ | reflexivity]]]].
  - intros Hg. unfold gain_to_apply.
    destruct x as [ | [ | ] | q]; try discriminate; [reflexivity | ].
    assert (Hnz : nonzero (FFinite q) = true)
      by (apply nonzero_spec; apply gt_spec in Hg; lra).
    now rewrite Hnz, Hg.
  - intros Hl. unfold gain_to_apply.
    destruct x as [ | [ | ] | q]; try discriminate; [reflexivity | ].
    assert (Hnz : nonzero (FFinite q) = true)
      by (apply nonzero_spec; apply lt_spec in Hl; lra).
    rewrite Hnz.
    destruct (gt (FFinite q) 24) eqn:Hg;
      [apply gt_spec in Hg; apply lt_spec in Hl; lra | ].
    now rewrite Hl.
  - intros q -> Hz. unfold gain_to_apply.
    assert (Hnz : nonzero (FFinite q) = false).
    { destruct (nonzero (FFinite q)) eqn:E; [ | reflexivity].
      apply nonzero_spec in E. contradiction. }
    now rewrite Hnz.
  - intros g Hg. destruct x as [ | neg | q].
    + cbn in Hg. injection Hg as <-. reflexivity.
    + apply safe_passes. apply (result_safe (FInf neg) g); [discriminate | exact Hg].
    + apply safe_passes. apply (result_safe (FFinite q) g); [discriminate | exact Hg].
Qed.

Lemma gain_is_clamped_witness :
  gain_to_apply (FFinite (61 # 2)) = Some (FFinite 24).
Proof.
  exact (proj1 (proj2 (proj2 (gain_is_clamped (FFinite (61 # 2))))) eq_refl).
Defined.

End VolumeFacts.

(** ** The audio URL *)

Module AnswerFacts.
Import Answer.

Lemma scan_first (before after : list JVal) (e v : JVal) :
  Forall (fun x => tagged_url x = None) before ->
  tagged_url e = Some v ->
  scan (before ++ e :: after) = Some v.
Proof.
  intros Hb He. induction Hb as [ | x before Hx _ IH]; cbn [app scan].
  - now rewrite He.
  - now rewrite Hx.
Qed.

End AnswerFacts.

(** X23. Which URL the predict worker takes from the answer.  In the nested
    shape the first entry tagged ["url"] decides: its third element is the
    URL, and when that element is empty the task is skipped although a later
    entry may carry a URL.  Whatever the answer, a URL that is taken is never
    an empty or null value, and it is taken only from a non-empty list whose
    first element is an object or a list; an object without ["url"] gives no
    URL, the scan is not tried on it. *)
Theorem audio_url_comes_from_the_first_tagged_entry :
  (forall before first more_tags v more after rest,
     Forall (fun x => Answer.tagged_url x = None) before ->
     Answer.audio_url
       (Answer.JList (Answer.JList (before ++ Answer.entry first more_tags v more :: after)
                        :: rest)) =
     if Answer.truthy v then Some v else None) /\
  (forall data v,
     Answer.audio_url data = Some v ->
     Answer.truthy v = true /\
     exists first rest,
       data = Answer.JList (first :: rest) /\
       ((exists fields, first = Answer.JDict fields /\ Answer.get "url" fields = Some v) \/
        (exists entries, first = Answer.JList entries /\ Answer.scan entries = Some v))) /\
  (forall fields rest,
     Answer.get "url" fields = None ->
     Answer.audio_url (Answer.JList (Answer.JDict fields :: rest)) = None).
Proof.
  split; [ | split].
  - intros before first more_tags v more after rest Hb.
    unfold Answer.audio_url.
    now rewrite (AnswerFacts.scan_first before after
                   (Answer.entry first more_tags v more) v Hb eq_refl).
  - intros data v H. unfold Answer.audio_url in H.
    destruct data as [ | b | q | t | [ | first rest] | fields]; try discriminate.
    destruct first as [ | b | q | t | entries | fields]; try discriminate.
    + destruct (Answer.scan entries) as [u | ] eqn:Hs; [ | discriminate].
      destruct (Answer.truthy u) eqn:Ht; [ | discriminate].
      injection H as <-. split; [exact Ht | ].
      exists (Answer.JList entries), rest. split; [reflexivity | right].
      now exists entries.
    + destruct (Answer.get "url" fields) as [u | ] eqn:Hg; [ | discriminate].
      destruct (Answer.truthy u) eqn:Ht; [ | discriminate].
      injection H as <-. split; [exact Ht | ].
      exists (Answer.JDict fields), rest. split; [reflexivity | left].
      now exists fields.
  - intros fields rest Hg. unfold Answer.audio_url. now rewrite Hg.
Qed.

Lemma audio_url_comes_from_the_first_tagged_entry_witness :
  Answer.audio_url
    (Answer.JList
       [Answer.JList
          ([Answer.JStr "audio"; Answer.JList [Answer.JNull]]
             ++ Answer.entry Answer.JNull [] (Answer.JStr EmptyString) []
             :: [Answer.entry Answer.JNull [] (Answer.JStr "http://host/a.wav") []])]) =
  None.
Proof.
  exact (proj1 audio_url_comes_from_the_first_tagged_entry
               [Answer.JStr "audio"; Answer.JList [Answer.JNull]]
               Answer.JNull [] (Answer.JStr EmptyString) []
               [Answer.entry Answer.JNull [] (Answer.JStr "http://host/a.wav") []] []
               ltac:(repeat constructor)).
Defined.

(** ** After a failed probe *)

Module Reselect.

Lemma quiet_suffix (old evs : list Event) :
  quiet_ext old evs -> exists more, evs = more ++ old.
Proof.
  induction 1 as [ | e evs He _ [more ->]]; [now exists [] | now exists (e :: more)].
Qed.

Lemma count_quiet (api : string) (old evs : list Event) :
  quiet_ext old evs -> count_posts api evs = count_posts api old.
Proof.
  induction 1 as [ | e evs He _ IH]; [reflexivity | ].
  unfold count_posts in *. destruct e; try discriminate; cbn; exact IH.
Qed.

(** A [predict] that returns has sent its POST, last. *)
Lemma predict_returned (api : string) (args : list Arg) (s s' : St) (d : string) :
  GradioClient.predict api args s = (Returned d, s') ->
  exists url fn evs,
    quiet_ext (events s) evs /\ events s' = HttpPost url api fn :: evs.
Proof.
  unfold GradioClient.predict. unfold bind at 1.
  destruct (Effects.quietly_ensure s) as [_ Hq1].
  destruct (GradioClient.ensure s) as [[[] | msg] s1]; [ | discriminate].
  cbn [snd] in Hq1. unfold bind at 1. unfold GradioClient.self, bind at 1, get_client.
  destruct (client s1) as [c | ]; cbn [ret raise]; [ | discriminate].
  destruct (GradioClient.lookup _ (fn_map c)) as [fn | ]; [ | discriminate].
  unfold bind at 1.
  destruct (Effects.quietly_process_inputs args s1) as [_ Hq2].
  destruct (GradioClient._process_inputs args s1) as [[args' | msg] s2]; [ | discriminate].
  cbn [snd] in Hq2. unfold bind, http.
  assert (Hq : quiet_ext (events s) (events s2))
    by (eapply EventLog.quiet_ext_trans; eassumption).
  destruct (replies s2) as [ | [m | st txt j] rest]; try discriminate.
  destruct (negb (st =? 200)%Z); [discriminate | ].
  destruct j as [deps | [e | ] dd | ps | ]; try discriminate;
    try (destruct (Str.is_empty e); try discriminate);
    intros H; inversion H; subst; cbn [events];
    exists (base_url c ++ "api/predict/")%string, fn, (events s2); split;
    [exact Hq | reflexivity | exact Hq | reflexivity | exact Hq | reflexivity].
Qed.

(** Both selection calls went out when [select_models] returns. *)
Lemma select_models_returned (cfg : Settings) (s s' : St) :
  select_models cfg s = (Returned tt, s') ->
  count_posts sovits_api (events s') = S (count_posts sovits_api (events s)) /\
  count_posts gpt_api (events s') = S (count_posts gpt_api (events s)) /\
  exists more, events s' = more ++ events s.
Proof.
  unfold select_models. unfold bind at 1.
  match goal with |- context [GradioClient.predict sovits_api ?args s] =>
    destruct (GradioClient.predict sovits_api args s) as [[d1 | msg1] s1] eqn:H1
  end; [ | discriminate].
  apply predict_returned in H1 as (u1 & f1 & e1 & Hq1 & Hev1).
  unfold bind at 1.
  match goal with |- context [GradioClient.predict gpt_api ?args s1] =>
    destruct (GradioClient.predict gpt_api args s1) as [[d2 | msg2] s2] eqn:H2
  end; [ | discriminate].
  apply predict_returned in H2 as (u2 & f2 & e2 & Hq2 & Hev2).
  cbn. intros H; inversion H; subst. rewrite Hev2.
  pose proof (count_quiet sovits_api _ _ Hq2) as C2s.
  pose proof (count_quiet gpt_api _ _ Hq2) as C2g.
  pose proof (count_quiet sovits_api _ _ Hq1) as C1s.
  pose proof (count_quiet gpt_api _ _ Hq1) as C1g.
  rewrite Hev1 in C2s, C2g.
  destruct (quiet_suffix _ _ Hq1) as (m1 & ->).
  destruct (quiet_suffix _ _ Hq2) as (m2 & E2). rewrite Hev1 in E2.
  unfold count_posts in *. cbn in C2s, C2g |- *.
  split; [lia | split; [lia | ]].
  exists (HttpPost u2 gpt_api f2 :: m2 ++ HttpPost u1 sovits_api f1 :: m1).
  rewrite E2. cbn. now rewrite <- app_assoc.
Qed.

(** [ensure] on a client without session starts with the descriptor GET. *)
Lemma ensure_fetches (s : St) (c : GradioClient) :
  client s = Some c -> session c = false ->
  events (snd (GradioClient.ensure s)) = HttpGet (base_url c ++ "config") :: events s /\
  selected_sig (snd (GradioClient.ensure s)) = selected_sig s.
Proof.
  intros Hc Hs.
  unfold GradioClient.ensure, bind, GradioClient.self, bind, get_client,
    GradioClient.update, set_client.
  rewrite Hc. cbn [ret]. rewrite Hs.
  unfold GradioClient._load_config, bind, GradioClient.self, bind, get_client, http.
  cbn [client ret base_url replies events].
  destruct (replies s) as [ | [m | st txt j] rest]; cbn; auto.
  destruct (400 <=? st)%Z; [ | destruct j as [entries | e d | ps | ]]; cbn; auto.
  match goal with |- context [GradioClient.load_deps 0 entries ?st] =>
    destruct (DescriptorLoop.load_deps_run entries 0 st
                (c := mkClient (base_url c) true (fn_map c)) eq_refl) as (read & Hst & _)
  end.
  rewrite Hst. split; reflexivity.
Qed.

(** The variables after a probe that met a connection failure. *)
Lemma probe_failed (settings : Settings) (s : St) (c : GradioClient) (msg : string) :
  Str.is_empty (Str.strip (gradio_server_url settings)) = false ->
  client s = Some c ->
  next_failure s = Some msg ->
  let s1 := snd (HttpHelper.gradio_health settings s) in
  client s1 = Some (mkClient (base_url c) false (fn_map c)) /\
  selected_sig s1 = None /\
  events s1 =
    HttpGet (Str.with_slash (Str.strip (gradio_server_url settings)) ++ "config")
      :: events s.
Proof.
  intros Hb Hc Hfail. cbn zeta. unfold HttpHelper.gradio_health. rewrite Hb.
  unfold next_failure in Hfail.
  unfold try_except, bind, http, set_sig, get_client, GradioClient.close,
    GradioClient.self, GradioClient.update, set_client, get_client, ret, raise, bind.
  destruct (replies s) as [ | [m | st txt j] rest]; try discriminate;
    cbn [client selected_sig gradio_ready events replies tl];
    rewrite Hc; cbn; destruct (session c) eqn:Hs; cbn; repeat split;
    destruct c as [bu se fm]; cbn in *; subst; reflexivity.
Qed.

End Reselect.

Module ReselectMore.

Lemma extends_suffix (api : string) (old evs : list Event) :
  extends api old evs -> exists more, evs = more ++ old.
Proof.
  intros [evs' Hq | url fn evs' Hq]; destruct (Reselect.quiet_suffix _ _ Hq) as (m & ->).
  - now exists m.
  - now exists (HttpPost url api fn :: m).
Qed.

Lemma select_models_suffix (cfg : Settings) (s : St) :
  exists more, events (snd (select_models cfg s)) = more ++ events s.
Proof.
  unfold select_models, bind.
  match goal with |- context [GradioClient.predict sovits_api ?args s] =>
    destruct (Effects.predict_effect sovits_api args s) as [_ E1];
    destruct (GradioClient.predict sovits_api args s) as [[d1 | msg1] s1]
  end; cbn [snd] in *; destruct (extends_suffix _ _ _ E1) as (m1 & H1);
    [ | now exists m1].
  match goal with |- context [GradioClient.predict gpt_api ?args s1] =>
    destruct (Effects.predict_effect gpt_api args s1) as [_ E2];
    destruct (GradioClient.predict gpt_api args s1) as [[d2 | msg2] s2]
  end; cbn [snd fst ret] in *; destruct (extends_suffix _ _ _ E2) as (m2 & H2);
    exists (m2 ++ m1); rewrite H2, H1; now rewrite app_assoc.
Qed.

End ReselectMore.

(** X24. A failed health probe makes the HTTP helper select the models
    again.  From the state a successful [_ensure_client_and_models] left,
    after a probe that met a connection failure, the next call with the same
    settings does not answer from the memo: it first fetches the descriptor
    again, and when it returns [True] it has issued [change_sovits_weights]
    and [change_gpt_weights] once more each and stored the signature
    again. *)
Theorem failed_probe_makes_the_helper_reselect
        (settings : Settings) (s : St) (c : GradioClient) (msg : string) :
  settled settings s ->
  client s = Some c ->
  next_failure s = Some msg ->
  let base := Str.strip (gradio_server_url settings) in
  let s1 := snd (HttpHelper.gradio_health settings s) in
  let r := HttpHelper._ensure_client_and_models settings s1 in
  (exists more, events (snd r) = more ++ HttpGet (base_url c ++ "config") :: events s1) /\
  (fst r = Returned true ->
   count_posts sovits_api (events (snd r)) = S (count_posts sovits_api (events s)) /\
   count_posts gpt_api (events (snd r)) = S (count_posts gpt_api (events s)) /\
   selected_sig (snd r) = Some (signature base settings)).
Proof.
  intros (Hb & (c0 & Hc0 & Hs0 & Hm0) & Hsig) Hc Hfail. cbn zeta.
  rewrite Hc in Hc0. injection Hc0 as <-.
  destruct (Reselect.probe_failed settings s c msg Hb Hc Hfail) as (Hc1 & Hsig1 & Hev1).
  cbn zeta in Hc1, Hsig1, Hev1.
  remember (snd (HttpHelper.gradio_health settings s)) as s1 eqn:Es1. clear Es1.
  destruct (HttpHelper._ensure_client_and_models settings s1) as [o s'] eqn:E.
  cbn [fst snd]. revert E.
  unfold HttpHelper._ensure_client_and_models. rewrite Hb.
  unfold bind at 1, get_client. rewrite Hc1.
  change (HttpHelper.must_recreate (Some (mkClient (base_url c) false (fn_map c)))
            (Str.strip (gradio_server_url settings)))
    with (HttpHelper.must_recreate (Some c) (Str.strip (gradio_server_url settings))).
  rewrite Hm0. unfold bind at 1, ret. unfold bind at 1.
  destruct (Reselect.ensure_fetches s1 _ Hc1 eq_refl) as [Hev2 Hsig2].
  cbn [base_url] in Hev2.
  destruct (GradioClient.ensure s1) as [[[] | m] s2]; cbn [snd] in Hev2, Hsig2.
  - unfold bind at 1, get_sig. rewrite Hsig2, Hsig1. cbn [sig_differs].
    unfold try_except. unfold bind at 1.
    destruct (ReselectMore.select_models_suffix settings s2) as (more & Hsuf).
    destruct (select_models settings s2) as [[[] | m] s3] eqn:Hsel; cbn [snd] in Hsuf.
    + destruct (Reselect.select_models_returned settings s2 s3 Hsel) as (Cs & Cg & _).
      cbn. intros E. inversion E; subst. cbn [events selected_sig].
      split; [exists more; now rewrite Hsuf, Hev2 | ].
      intros _. rewrite Cs, Cg, Hev2, Hev1. unfold count_posts. cbn.
      repeat split.
    + cbn. intros E. inversion E; subst.
      split; [exists more; now rewrite Hsuf, Hev2 | discriminate].
  - intros E. inversion E; subst.
    split; [exists []; now rewrite Hev2 | discriminate].
Qed.

Lemma failed_probe_makes_the_helper_reselect_witness :
  exists more,
    events (snd (HttpHelper._ensure_client_and_models Sample.settings
                   (snd (HttpHelper.gradio_health Sample.settings Sample.warm)))) =
    more ++ HttpGet "http://localhost:9872/config"
         :: events (snd (HttpHelper.gradio_health Sample.settings Sample.warm)).
Proof.
  refine (proj1 (failed_probe_makes_the_helper_reselect Sample.settings Sample.warm
                   (mkClient "http://localhost:9872/" true Sample.fns)
                   "Cannot connect to host localhost:9872" _ eq_refl eq_refl)).
  split; [reflexivity | split; [ | reflexivity]].
  eexists. split; [reflexivity | split; reflexivity].
Defined.
